(** * Busup Canvas: the AI response extraction and answer-merging engine

    A shallow embedding of [src/App.tsx].  JavaScript strings are sequences
    of UTF-16 code units, JSON values are an inductive type, JavaScript
    objects used as dictionaries ([AnswerMap]) are finite maps, and the
    built-ins the source calls ([String.prototype.trim], [JSON.parse],
    [JSON.stringify], the four regular expressions) are written out as
    executable functions. *)

From Stdlib Require Import ZArith NArith List Ascii String Bool Lia.
From stdpp Require Import base decidable countable gmap list.
Import ListNotations.

Local Open Scope N_scope.
Local Open Scope list_scope.

(** ** JavaScript strings *)

Module JsString.

(** A string is the list of its UTF-16 code units. *)
Definition jsstring := list N.

(** Source literals are written as UTF-8 text and decoded here. *)
Fixpoint utf16_of_utf8 (bs : list N) : jsstring :=
  match bs with
  | [] => []
  | b0 :: r0 =>
    if b0 <? 128 then b0 :: utf16_of_utf8 r0
    else match r0 with
    | [] => []
    | b1 :: r1 =>
      if b0 <? 224 then ((b0 mod 32) * 64 + b1 mod 64) :: utf16_of_utf8 r1
      else match r1 with
      | [] => []
      | b2 :: r2 =>
        if b0 <? 240
        then ((b0 mod 16) * 4096 + (b1 mod 64) * 64 + b2 mod 64) :: utf16_of_utf8 r2
        else match r2 with
        | [] => []
        | b3 :: r3 =>
          let cp := (b0 mod 8) * 262144 + (b1 mod 64) * 4096
                    + (b2 mod 64) * 64 + b3 mod 64 - 65536 in
          (55296 + cp / 1024) :: (56320 + cp mod 1024) :: utf16_of_utf8 r3
        end
      end
    end
  end.

Definition js (s : string) : jsstring :=
  utf16_of_utf8 (map (fun a => N_of_ascii a) (list_ascii_of_string s)).

(** JSON text is full of quotation marks; in [jq] literals an apostrophe
    stands for one. *)
Definition jq (s : string) : jsstring :=
  map (fun c => if c =? 39 then 34 else c) (js s).

Definition LF : N := 10.

(** [a === b] on strings. *)
Definition str_eqb (a b : jsstring) : bool := bool_decide (a = b).

Fixpoint starts_with (p s : jsstring) : bool :=
  match p, s with
  | [], _ => true
  | _ :: _, [] => false
  | a :: p', b :: s' => (a =? b) && starts_with p' s'
  end.

(** WhiteSpace and LineTerminator code points: what [trim] strips and what
    [\s] matches. *)
Definition is_space (c : N) : bool :=
  (c =? 9) || (c =? 10) || (c =? 11) || (c =? 12) || (c =? 13) || (c =? 32)
  || (c =? 160) || (c =? 5760) || ((8192 <=? c) && (c <=? 8202))
  || (c =? 8232) || (c =? 8233) || (c =? 8239) || (c =? 8287)
  || (c =? 12288) || (c =? 65279).

Fixpoint trimStart (s : jsstring) : jsstring :=
  match s with
  | c :: s' => if is_space c then trimStart s' else s
  | [] => []
  end.

Definition trimEnd (s : jsstring) : jsstring := rev (trimStart (rev s)).

Definition trim (s : jsstring) : jsstring := trimEnd (trimStart s).

(** Truthiness of a string: [!s] is [true] exactly on the empty string. *)
Definition nonempty (s : jsstring) : bool :=
  match s with [] => false | _ :: _ => true end.

(** [parts.join(sep)] *)
Fixpoint join (sep : jsstring) (parts : list jsstring) : jsstring :=
  match parts with
  | [] => []
  | [p] => p
  | p :: rest => p ++ sep ++ join sep rest
  end.

(** Decimal digits of a natural number, as [String(n)] prints an index. *)
Definition digit_char (d : N) : N := 48 + d.

Fixpoint pos_digits_fuel (fuel : nat) (n : N) (acc : jsstring) : jsstring :=
  match fuel with
  | O => acc
  | S f =>
    let acc' := digit_char (n mod 10) :: acc in
    if n / 10 =? 0 then acc' else pos_digits_fuel f (n / 10) acc'
  end.

Definition N_to_string (n : N) : jsstring :=
  pos_digits_fuel (S (N.to_nat (N.log2 n))) n [].

Definition nat_to_string (n : nat) : jsstring := N_to_string (N.of_nat n).

End JsString.
Export JsString.

(** ** JavaScript numbers

    A JSON number literal denotes the IEEE 754 binary64 value nearest to it
    (ties to even).  A finite non-zero value is [m * 2^e] in canonical form:
    [2^52 <= m < 2^53] with [-1074 <= e <= 971], or [m < 2^52] with
    [e = -1074].  [JSON.parse] cannot produce NaN. *)

Module JsNumber.
Local Open Scope Z_scope.

Inductive number :=
| NZero (neg : bool)
| NInf (neg : bool)
| NFin (neg : bool) (m : positive) (e : Z).

(** Round half to even of [num / den], for [den > 0]. *)
Definition div_half_even (num den : Z) : Z :=
  let q := num / den in
  let r := num mod den in
  if 2 * r <? den then q
  else if den <? 2 * r then q + 1
  else if Z.even q then q else q + 1.

(** The binary64 value nearest to [P / Q], for [0 <= P] and [0 < Q]. *)
Definition round_ratio (neg : bool) (P Q : Z) : number :=
  if P =? 0 then NZero neg else
  let b0 := Z.log2 P - Z.log2 Q in
  let below := if 0 <=? b0 then P <? Q * 2 ^ b0 else P * 2 ^ (- b0) <? Q in
  let b := if below then b0 - 1 else b0 in
  let u := Z.max (b - 52) (-1074) in
  let m := if 0 <=? u then div_half_even P (Q * 2 ^ u)
           else div_half_even (P * 2 ^ (- u)) Q in
  if m =? 0 then NZero neg else
  let '(m', u') := if m =? 2 ^ 53 then (2 ^ 52, u + 1) else (m, u) in
  if 971 <? u' then NInf neg else NFin neg (Z.to_pos m') u'.

(** Value of a list of decimal digits, most significant first. *)
Definition digits_value (ds : list N) : Z :=
  fold_left (fun acc d => 10 * acc + Z.of_N d) ds 0.

(** The number denoted by the literal [-? ip . fp e ±ed]. *)
Definition number_of_lexeme (neg : bool) (ip fp : list N)
    (eneg : bool) (ed : list N) : number :=
  let m := digits_value (ip ++ fp) in
  let e := (if eneg then - digits_value ed else digits_value ed)
           - Z.of_nat (length fp) in
  if 0 <=? e then round_ratio neg (m * 10 ^ e) 1
  else round_ratio neg m (10 ^ (- e)).

Definition number_of_nat (n : nat) : number := round_ratio false (Z.of_nat n) 1.

(** Truthiness: only [0] and [-0] are falsy. *)
Definition number_truthy (x : number) : bool :=
  match x with NZero _ => false | _ => true end.

(** *** Order, [Math.min] and [Math.max] *)

(** [m1 * 2^e1] against [m2 * 2^e2]. *)
Definition mag_compare (m1 : positive) (e1 : Z) (m2 : positive) (e2 : Z) : comparison :=
  let e := Z.min e1 e2 in
  Z.pos m1 * 2 ^ (e1 - e) ?= Z.pos m2 * 2 ^ (e2 - e).

(** The order of the values; [-0] and [+0] are equal. *)
Definition num_compare (x y : number) : comparison :=
  match x, y with
  | NZero _, NZero _ => Eq
  | NZero _, NInf neg | NZero _, NFin neg _ _ => if neg then Gt else Lt
  | NInf neg, NZero _ | NFin neg _ _, NZero _ => if neg then Lt else Gt
  | NInf n1, NInf n2 => if Bool.eqb n1 n2 then Eq else if n1 then Lt else Gt
  | NInf neg, NFin _ _ _ => if neg then Lt else Gt
  | NFin _ _ _, NInf neg => if neg then Gt else Lt
  | NFin n1 m1 e1, NFin n2 m2 e2 =>
    match n1, n2 with
    | false, false => mag_compare m1 e1 m2 e2
    | true, true => mag_compare m2 e2 m1 e1
    | true, false => Lt
    | false, true => Gt
    end
  end.

(** [x <= y] *)
Definition num_le (x y : number) : Prop := num_compare x y <> Gt.

(** [Math.min(x, y)]; [-0] counts as smaller than [+0]. *)
Definition Math_min (x y : number) : number :=
  match num_compare x y with
  | Lt => x
  | Gt => y
  | Eq => match x with NZero true => x | _ => y end
  end.

(** [Math.max(x, y)]; [+0] counts as larger than [-0]. *)
Definition Math_max (x y : number) : number :=
  match num_compare x y with
  | Gt => x
  | Lt => y
  | Eq => match x with NZero false => x | _ => y end
  end.

(** *** [String(x)]: the shortest decimal that reads back as [x] *)

Definition number_eqb (x y : number) : bool :=
  match x, y with
  | NZero a, NZero b => Bool.eqb a b
  | NInf a, NInf b => Bool.eqb a b
  | NFin a m e, NFin b m' e' => Bool.eqb a b && (m =? m')%positive && (e =? e')
  | _, _ => false
  end.

(** [round_ratio] of [s * 10^t]. *)
Definition round_decimal (s t : Z) : number :=
  if 0 <=? t then round_ratio false (s * 10 ^ t) 1
  else round_ratio false s (10 ^ (- t)).

Section Shortest.
Variables (m : positive) (e : Z).

(** [x = xn / xd] *)
Let xn : Z := if 0 <=? e then Z.pos m * 2 ^ e else Z.pos m.
Let xd : Z := if 0 <=? e then 1 else 2 ^ (- e).

(** [10^j <= x] *)
Definition pow10_le (j : Z) : bool :=
  if 0 <=? j then 10 ^ j * xd <=? xn else xd <=? xn * 10 ^ (- j).

(** The [n] with [10^(n-1) <= x < 10^n]. *)
Definition decade : Z :=
  let c := (Z.log2 (Z.pos m) + e) * 30103 / 100000 in
  if pow10_le (c + 1) then c + 2 else if pow10_le c then c + 1 else c.

(** [floor (x / 10^t)] *)
Definition scaled_floor (t : Z) : Z :=
  if 0 <=? t then xn / (xd * 10 ^ t) else (xn * 10 ^ (- t)) / xd.

(** Is [lo * 10^t] at least as close to [x] as [(lo+1) * 10^t]
    (ties go to the even one)? *)
Definition lower_closer (lo t : Z) : bool :=
  let twice_x_num := 2 * xn in
  let mid := 2 * lo + 1 in
  let cmp := if 0 <=? t then twice_x_num ?= mid * 10 ^ t * xd
             else twice_x_num * 10 ^ (- t) ?= mid * xd in
  match cmp with Lt => true | Gt => false | Eq => Z.even lo end.

(** The [k]-digit candidates around [x]: [(s, n)] with
    [s * 10^(n-k)] reading back as [x]. *)
Definition candidate (k : Z) : option (Z * Z) :=
  let t := decade - k in
  let lo := scaled_floor t in
  let hi := if lo + 1 =? 10 ^ k then (10 ^ (k - 1), t + 1) else (lo + 1, t) in
  let ok_lo := number_eqb (round_decimal lo t) (NFin false m e) in
  let ok_hi := number_eqb (round_decimal (fst hi) (snd hi)) (NFin false m e) in
  match ok_lo, ok_hi with
  | true, true =>
    if lower_closer lo t then Some (lo, t + k) else Some (fst hi, snd hi + k)
  | true, false => Some (lo, t + k)
  | false, true => Some (fst hi, snd hi + k)
  | false, false => None
  end.

Fixpoint shortest_from (fuel : nat) (k : Z) : Z * Z :=
  match fuel with
  | O => (scaled_floor (decade - k), decade)
  | S f =>
    match candidate k with
    | Some r => r
    | None => shortest_from f (k + 1)
    end
  end.

(** Seventeen significant digits always suffice for binary64. *)
Definition shortest : Z * Z := shortest_from 17 1.
End Shortest.

Definition zeros (n : Z) : jsstring := repeat 48%N (Z.to_nat n).

(** Number::toString, steps 5 to 10, on the digits [ds] of [s] and the
    decimal exponent [n]. *)
Definition format_decimal (ds : jsstring) (n : Z) : jsstring :=
  let k := Z.of_nat (length ds) in
  if (k <=? n) && (n <=? 21) then ds ++ zeros (n - k)
  else if (0 <? n) && (n <=? 21)
  then firstn (Z.to_nat n) ds ++ 46%N :: skipn (Z.to_nat n) ds
  else if (-6 <? n) && (n <=? 0) then 48%N :: 46%N :: zeros (- n) ++ ds
  else
    let ex := n - 1 in
    let sign := if ex <? 0 then 45%N else 43%N in
    let tail := 101%N :: sign :: N_to_string (Z.to_N (Z.abs ex)) in
    match ds with
    | [] => tail
    | [d] => d :: tail
    | d :: rest => d :: 46%N :: rest ++ tail
    end.

Definition Number_toString (x : number) : jsstring :=
  match x with
  | NZero _ => [48%N]
  | NInf neg => (if neg then [45%N] else []) ++ js "Infinity"
  | NFin neg m e =>
    let '(s, n) := shortest m e in
    (if neg then [45%N] else []) ++ format_decimal (N_to_string (Z.to_N s)) n
  end.

End JsNumber.
Export JsNumber.

(** ** JSON values, [JSON.parse] and [JSON.stringify] *)

Module Json.

#[local] Set Warnings "-register-all".

(** What [JSON.parse] returns.  An object lists its own properties in
    property-enumeration order (array-index keys ascending, then the other
    keys in creation order). *)
Inductive JSON :=
| JNull
| JBool (b : bool)
| JNum (x : number)
| JStr (s : jsstring)
| JArr (elems : list JSON)
| JObj (props : list (jsstring * JSON)).

(** Own-property lookup. *)
Fixpoint assoc (k : jsstring) (props : list (jsstring * JSON)) : option JSON :=
  match props with
  | [] => None
  | (k', v) :: rest => if str_eqb k k' then Some v else assoc k rest
  end.

(** [v.k] or [v[k]] for a value that is not [null]: [None] is [undefined].
    Only plain objects carry the property names this program reads; none of
    those names is inherited from a prototype. *)
Definition get (v : JSON) (k : jsstring) : option JSON :=
  match v with
  | JObj props => assoc k props
  | _ => None
  end.

(** [a ?? b] *)
Definition coalesce (a b : option JSON) : option JSON :=
  match a with
  | None | Some JNull => b
  | Some _ => a
  end.

(** Truthiness of a value ([None] is [undefined]). *)
Definition truthy (v : option JSON) : bool :=
  match v with
  | None | Some JNull => false
  | Some (JBool b) => b
  | Some (JNum x) => number_truthy x
  | Some (JStr s) => nonempty s
  | Some (JArr _) | Some (JObj _) => true
  end.

(** [typeof v === 'object'] (true of [null], arrays and objects). *)
Definition typeof_object (v : JSON) : bool :=
  match v with
  | JNull | JArr _ | JObj _ => true
  | _ => false
  end.

(** *** Property order *)

Definition is_digit (c : N) : bool := (48 <=? c) && (c <=? 57).

(** A canonical array index: ["0"], or digits without a leading zero,
    below [2^32 - 1]. *)
Definition array_index (k : jsstring) : option N :=
  match k with
  | [] => None
  | c :: rest =>
    if forallb is_digit k && (negb (c =? 48) || match rest with [] => true | _ => false end)
    then
      let n := fold_left (fun acc d => 10 * acc + (d - 48)) k 0 in
      if n <? 4294967295 then Some n else None
    else None
  end.

Fixpoint obj_replace (k : jsstring) (v : JSON) (props : list (jsstring * JSON))
  : list (jsstring * JSON) :=
  match props with
  | [] => []
  | (k', v') :: rest =>
    if str_eqb k k' then (k', v) :: rest else (k', v') :: obj_replace k v rest
  end.

Fixpoint obj_insert_index (i : N) (k : jsstring) (v : JSON)
    (props : list (jsstring * JSON)) : list (jsstring * JSON) :=
  match props with
  | [] => [(k, v)]
  | (k', v') :: rest =>
    match array_index k' with
    | Some j => if j <? i then (k', v') :: obj_insert_index i k v rest
                else (k, v) :: props
    | None => (k, v) :: props
    end
  end.

(** CreateDataProperty: an existing property keeps its place and takes the
    new value; a new one is created ("__proto__" is an ordinary key here). *)
Definition obj_define (props : list (jsstring * JSON)) (k : jsstring) (v : JSON)
  : list (jsstring * JSON) :=
  match assoc k props with
  | Some _ => obj_replace k v props
  | None =>
    match array_index k with
    | Some i => obj_insert_index i k v props
    | None => props ++ [(k, v)]
    end
  end.

(** *** [JSON.parse]

    The JSON grammar is read by a pushdown automaton that consumes one code
    unit per step: [ctl] is the position in the grammar, [stack] the open
    arrays and objects, innermost first. *)

Inductive numst :=
| NMinus   (* after '-': a digit must follow *)
| NLead0   (* after a leading 0 *)
| NInt     (* inside the integer digits *)
| NDot     (* after '.': a digit must follow *)
| NFrac    (* inside the fraction digits *)
| NE       (* after 'e' or 'E' *)
| NESign   (* after the exponent sign *)
| NExp.    (* inside the exponent digits *)

Record numacc := NumAcc
  { na_neg : bool; na_int : list N; na_frac : list N;
    na_eneg : bool; na_exp : list N }.

Inductive ctl :=
| CValue                (* a value must start here *)
| CArrOpen              (* after '[': a value or ']' *)
| CObjOpen              (* after '{': a key or '}' *)
| CKey                  (* after ',' in an object: a key *)
| CColon                (* after a key: ':' *)
| CAfter                (* after a complete value *)
| CStr (key : bool) (acc : list N)            (* inside a string, reversed *)
| CEsc (key : bool) (acc : list N)            (* after a backslash *)
| CHex (key : bool) (acc : list N) (todo : nat) (code : N)   (* in \uXXXX *)
| CLit (rest : jsstring) (v : JSON)           (* inside true, false, null *)
| CNum (st : numst) (a : numacc).

Inductive frame :=
| FArr (done : list JSON)                             (* reversed *)
| FObj (props : list (jsstring * JSON))
| FObjK (props : list (jsstring * JSON)) (key : jsstring).

Record pstate := PState
  { p_ctl : ctl; p_stack : list frame; p_top : option JSON }.

(** JSON whitespace is tab, line feed, carriage return and space only. *)
Definition json_ws (c : N) : bool :=
  (c =? 9) || (c =? 10) || (c =? 13) || (c =? 32).

Definition hex_value (c : N) : option N :=
  if is_digit c then Some (c - 48)
  else if (97 <=? c) && (c <=? 102) then Some (c - 87)
  else if (65 <=? c) && (c <=? 70) then Some (c - 55)
  else None.

(** A value is complete: it becomes the result, an array element or the
    value of the pending key. *)
Definition push_value (v : JSON) (stack : list frame) (top : option JSON)
  : option pstate :=
  match stack with
  | [] => Some (PState CAfter [] (Some v))
  | FArr done :: st => Some (PState CAfter (FArr (v :: done) :: st) top)
  | FObjK props k :: st => Some (PState CAfter (FObj (obj_define props k v) :: st) top)
  | FObj _ :: _ => None
  end.

Definition finish_number (a : numacc) : JSON :=
  JNum (number_of_lexeme (na_neg a) (rev (na_int a)) (rev (na_frac a))
          (na_eneg a) (rev (na_exp a))).

Definition num_accepting (st : numst) : bool :=
  match st with
  | NLead0 | NInt | NFrac | NExp => true
  | _ => false
  end.

(** One code unit outside strings, literals and numbers. *)
Definition step_token (k : ctl) (stack : list frame) (top : option JSON) (c : N)
  : option pstate :=
  let start_value :=
    if c =? 34 then Some (PState (CStr false []) stack top)
    else if c =? 91 then Some (PState CArrOpen (FArr [] :: stack) top)
    else if c =? 123 then Some (PState CObjOpen (FObj [] :: stack) top)
    else if c =? 45 then Some (PState (CNum NMinus (NumAcc true [] [] false [])) stack top)
    else if c =? 48 then Some (PState (CNum NLead0 (NumAcc false [0] [] false [])) stack top)
    else if is_digit c
    then Some (PState (CNum NInt (NumAcc false [c - 48] [] false [])) stack top)
    else if c =? 116 then Some (PState (CLit (js "rue") (JBool true)) stack top)
    else if c =? 102 then Some (PState (CLit (js "alse") (JBool false)) stack top)
    else if c =? 110 then Some (PState (CLit (js "ull") JNull) stack top)
    else None in
  if json_ws c then Some (PState k stack top) else
  match k with
  | CValue => start_value
  | CArrOpen =>
    if c =? 93 then
      match stack with
      | FArr _ :: st => push_value (JArr []) st top
      | _ => None
      end
    else start_value
  | CObjOpen =>
    if c =? 34 then Some (PState (CStr true []) stack top)
    else if c =? 125 then
      match stack with
      | FObj props :: st => push_value (JObj props) st top
      | _ => None
      end
    else None
  | CKey => if c =? 34 then Some (PState (CStr true []) stack top) else None
  | CColon => if c =? 58 then Some (PState CValue stack top) else None
  | CAfter =>
    match stack with
    | FArr done :: st =>
      if c =? 44 then Some (PState CValue stack top)
      else if c =? 93 then push_value (JArr (rev done)) st top
      else None
    | FObj props :: st =>
      if c =? 44 then Some (PState CKey stack top)
      else if c =? 125 then push_value (JObj props) st top
      else None
    | _ => None
    end
  | _ => None
  end.

(** The closing quote of a string: a key waits for its value, a string
    value is complete. *)
Definition finish_string (key : bool) (acc : list N)
    (stack : list frame) (top : option JSON) : option pstate :=
  if key then
    match stack with
    | FObj props :: st => Some (PState CColon (FObjK props (rev acc) :: st) top)
    | _ => None
    end
  else push_value (JStr (rev acc)) stack top.

Definition escape_value (c : N) : option N :=
  if (c =? 34) || (c =? 92) || (c =? 47) then Some c
  else if c =? 98 then Some 8
  else if c =? 102 then Some 12
  else if c =? 110 then Some 10
  else if c =? 114 then Some 13
  else if c =? 116 then Some 9
  else None.

(** One code unit inside a number; [None] when [c] does not continue it. *)
Definition step_number (st : numst) (a : numacc) (c : N) : option (numst * numacc) :=
  let d := c - 48 in
  let is_e := (c =? 101) || (c =? 69) in
  let add_int := NumAcc (na_neg a) (d :: na_int a) (na_frac a) (na_eneg a) (na_exp a) in
  let add_frac := NumAcc (na_neg a) (na_int a) (d :: na_frac a) (na_eneg a) (na_exp a) in
  let add_exp := NumAcc (na_neg a) (na_int a) (na_frac a) (na_eneg a) (d :: na_exp a) in
  match st with
  | NMinus =>
    if c =? 48 then Some (NLead0, add_int)
    else if is_digit c then Some (NInt, add_int) else None
  | NLead0 =>
    if c =? 46 then Some (NDot, a) else if is_e then Some (NE, a) else None
  | NInt =>
    if is_digit c then Some (NInt, add_int)
    else if c =? 46 then Some (NDot, a) else if is_e then Some (NE, a) else None
  | NDot => if is_digit c then Some (NFrac, add_frac) else None
  | NFrac =>
    if is_digit c then Some (NFrac, add_frac)
    else if is_e then Some (NE, a) else None
  | NE =>
    if c =? 43 then Some (NESign, a)
    else if c =? 45
    then Some (NESign, NumAcc (na_neg a) (na_int a) (na_frac a) true (na_exp a))
    else if is_digit c then Some (NExp, add_exp) else None
  | NESign => if is_digit c then Some (NExp, add_exp) else None
  | NExp => if is_digit c then Some (NExp, add_exp) else None
  end.

Definition step (s : pstate) (c : N) : option pstate :=
  let stack := p_stack s in
  let top := p_top s in
  match p_ctl s with
  | CStr key acc =>
    if c =? 34 then finish_string key acc stack top
    else if c =? 92 then Some (PState (CEsc key acc) stack top)
    else if c <? 32 then None
    else Some (PState (CStr key (c :: acc)) stack top)
  | CEsc key acc =>
    if c =? 117 then Some (PState (CHex key acc 4 0) stack top)
    else match escape_value c with
         | Some e => Some (PState (CStr key (e :: acc)) stack top)
         | None => None
         end
  | CHex key acc todo code =>
    match hex_value c with
    | Some h =>
      let code' := 16 * code + h in
      match todo with
      | S (S l) => Some (PState (CHex key acc (S l) code') stack top)
      | _ => Some (PState (CStr key (code' :: acc)) stack top)
      end
    | None => None
    end
  | CLit rest v =>
    match rest with
    | [] => None
    | [r] => if c =? r then push_value v stack top else None
    | r :: rest' => if c =? r then Some (PState (CLit rest' v) stack top) else None
    end
  | CNum st a =>
    match step_number st a c with
    | Some (st', a') => Some (PState (CNum st' a') stack top)
    | None =>
      if num_accepting st then
        match push_value (finish_number a) stack top with
        | Some s' => step_token (p_ctl s') (p_stack s') (p_top s') c
        | None => None
        end
      else None
    end
  | k => step_token k stack top c
  end.

Fixpoint run (s : pstate) (text : jsstring) : option pstate :=
  match text with
  | [] => Some s
  | c :: rest =>
    match step s c with
    | Some s' => run s' rest
    | None => None
    end
  end.

(** End of input: exactly one complete value, nothing left open. *)
Definition finish (s : pstate) : option JSON :=
  match p_ctl s, p_stack s with
  | CAfter, [] => p_top s
  | CNum st a, [] => if num_accepting st then Some (finish_number a) else None
  | _, _ => None
  end.

(** [JSON.parse(text)]; [None] is a thrown SyntaxError. *)
Definition JSON_parse (text : jsstring) : option JSON :=
  match run (PState CValue [] None) text with
  | Some s => finish s
  | None => None
  end.

(** *** [JSON.stringify] (without indentation) *)

Definition hex_digit (d : N) : N := if d <? 10 then 48 + d else 87 + d.

(** [\uXXXX], lower-case hexadecimal. *)
Definition unicode_escape (c : N) : jsstring :=
  [92; 117; hex_digit (c / 4096 mod 16); hex_digit (c / 256 mod 16);
   hex_digit (c / 16 mod 16); hex_digit (c mod 16)].

Definition is_high_surrogate (c : N) : bool := (55296 <=? c) && (c <=? 56319).
Definition is_low_surrogate (c : N) : bool := (56320 <=? c) && (c <=? 57343).

(** QuoteJSONString, without the enclosing quotation marks. *)
Fixpoint quote_body (s : jsstring) : jsstring :=
  match s with
  | [] => []
  | c :: rest =>
    if c =? 8 then 92 :: 98 :: quote_body rest
    else if c =? 9 then 92 :: 116 :: quote_body rest
    else if c =? 10 then 92 :: 110 :: quote_body rest
    else if c =? 12 then 92 :: 102 :: quote_body rest
    else if c =? 13 then 92 :: 114 :: quote_body rest
    else if c =? 34 then 92 :: 34 :: quote_body rest
    else if c =? 92 then 92 :: 92 :: quote_body rest
    else if c <? 32 then unicode_escape c ++ quote_body rest
    else if is_high_surrogate c then
      match rest with
      | d :: rest' =>
        if is_low_surrogate d then c :: d :: quote_body rest'
        else unicode_escape c ++ quote_body rest
      | [] => unicode_escape c
      end
    else if is_low_surrogate c then unicode_escape c ++ quote_body rest
    else c :: quote_body rest
  end.

Definition quote (s : jsstring) : jsstring := 34 :: quote_body s ++ [34].

Fixpoint JSON_stringify (v : JSON) : jsstring :=
  match v with
  | JNull => js "null"
  | JBool true => js "true"
  | JBool false => js "false"
  | JNum (NInf _) => js "null"
  | JNum x => Number_toString x
  | JStr s => quote s
  | JArr elems => 91 :: join [44] (map JSON_stringify elems) ++ [93]
  | JObj props =>
    123 :: join [44] (map (fun p => quote (fst p) ++ 58 :: JSON_stringify (snd p)) props)
        ++ [125]
  end.

(** [Object.entries(v)] for a value that is neither [null] nor [undefined]:
    the own enumerable string-keyed properties, in enumeration order. *)
Fixpoint indexed {A} (i : nat) (l : list A) : list (jsstring * A) :=
  match l with
  | [] => []
  | x :: rest => (nat_to_string i, x) :: indexed (S i) rest
  end.

Definition Object_entries (v : JSON) : list (jsstring * JSON) :=
  match v with
  | JObj props => props
  | JArr elems => indexed 0 elems
  | JStr s => indexed 0 (map (fun c => JStr [c]) s)
  | _ => []
  end.

End Json.
Export Json.

(** ** Source: [asText] *)

(** The argument is a property read, so it may be [undefined] ([None]). *)
Definition asText (value : option JSON) : jsstring :=
  match value with
  | Some (JStr s) => trim s
  | Some (JNum x) => Number_toString x
  | Some (JBool true) => js "true"
  | Some (JBool false) => js "false"
  | Some (JArr l) => JSON_stringify (JArr l)
  | Some (JObj props) => JSON_stringify (JObj props)
  | Some JNull | None => []
  end.

(** ** The regular expressions of the source, as matchers *)

Module Regex.

Definition fence : jsstring := js "```".

(** [([\s\S]+?)```]: the shortest capture of at least one code unit that is
    followed by a fence. *)
Fixpoint lazy_until_fence (cap_rev : list N) (rest : jsstring) : option jsstring :=
  match rest with
  | [] => None
  | c :: rest' =>
    if starts_with fence rest' then Some (rev (c :: cap_rev))
    else lazy_until_fence (c :: cap_rev) rest'
  end.

(** [\s*([\s\S]+?)```]: the greedy [\s*] gives whitespace back when the rest
    fails to match. *)
Fixpoint ws_then_capture (r : jsstring) : option jsstring :=
  match r with
  | c :: r' =>
    if is_space c then
      match ws_then_capture r' with
      | Some cap => Some cap
      | None => lazy_until_fence [] r
      end
    else lazy_until_fence [] r
  | [] => None
  end.

(** The part after an opening fence: [(?:json)?] is tried with, then
    without, the annotation. *)
Definition after_fence (r : jsstring) : option jsstring :=
  let annotated :=
    if starts_with (js "json") r then ws_then_capture (skipn 4 r) else None in
  match annotated with
  | Some cap => Some cap
  | None => ws_then_capture r
  end.

(** [text.match(/```(?:json)?\s*([\s\S]+?)```/)]: group 1 of the leftmost
    match, [None] when there is no match. *)
Fixpoint fenced_block (text : jsstring) : option jsstring :=
  match text with
  | [] => None
  | _ :: rest =>
    let here := if starts_with fence text then after_fence (skipn 3 text) else None in
    match here with
    | Some cap => Some cap
    | None => fenced_block rest
    end
  end.

(** [text.indexOf('{')] as the suffix that starts there. *)
Fixpoint from_first (ch : N) (text : jsstring) : option jsstring :=
  match text with
  | [] => None
  | c :: rest => if c =? ch then Some text else from_first ch rest
  end.

(** The longest prefix that ends with [ch]. *)
Definition upto_last (ch : N) (text : jsstring) : jsstring :=
  rev (match from_first ch (rev text) with Some r => r | None => [] end).

(** [text.match(/\{[\s\S]+\}/)]: the leftmost opening brace through the
    last closing brace, with at least one code unit between them. *)
Definition brace_block (text : jsstring) : option jsstring :=
  match from_first 123 text with
  | Some (open :: body) =>
    let inner := upto_last 125 body in
    if (2 <=? length inner)%nat then Some (open :: inner) else None
  | _ => None
  end.

(** *** [/(TAM|SAM|SOM)[^:]*:\s*([\s\S]*?)(?=(TAM|SAM|SOM)[^:]*:|$)/gi] *)

Inductive slot := Tam | Sam | Som.

(** Case-insensitive matching folds the ASCII letters only: no other code
    unit canonicalizes to one of T, A, M, S, O. *)
Definition fold_case (c : N) : N :=
  if (65 <=? c) && (c <=? 90) then c + 32 else c.

Definition label_at (s : jsstring) : option (slot * jsstring) :=
  match s with
  | a :: b :: c :: rest =>
    let w := [fold_case a; fold_case b; fold_case c] in
    if str_eqb w (js "tam") then Some (Tam, rest)
    else if str_eqb w (js "sam") then Some (Sam, rest)
    else if str_eqb w (js "som") then Some (Som, rest)
    else None
  | _ => None
  end.

(** [[^:]*:] : everything up to the next colon, which must exist.  Returns
    what follows the colon and the number of code units consumed. *)
Fixpoint through_colon (s : jsstring) : option (jsstring * nat) :=
  match s with
  | [] => None
  | c :: rest =>
    if c =? 58 then Some (rest, 1%nat)
    else match through_colon rest with
         | Some (r, n) => Some (r, S n)
         | None => None
         end
  end.

(** [(TAM|SAM|SOM)[^:]*:] at the head of [s]. *)
Definition label_colon_at (s : jsstring) : option (slot * jsstring * nat) :=
  match label_at s with
  | Some (k, rest) =>
    match through_colon rest with
    | Some (r, n) => Some (k, r, (3 + n)%nat)
    | None => None
    end
  | None => None
  end.

(** [([\s\S]*?)(?=(TAM|SAM|SOM)[^:]*:|$)]: the shortest capture after which
    a label with its colon, or the end of the text, follows. *)
Fixpoint lazy_until_label (cap_rev : list N) (rest : jsstring) : jsstring :=
  match rest with
  | [] => rev cap_rev
  | c :: rest' =>
    match label_colon_at rest with
    | Some _ => rev cap_rev
    | None => lazy_until_label (c :: cap_rev) rest'
    end
  end.

Fixpoint skip_spaces (s : jsstring) : jsstring * nat :=
  match s with
  | c :: rest =>
    if is_space c then let '(r, n) := skip_spaces rest in (r, S n) else (s, O)
  | [] => ([], O)
  end.

(** One match attempt at the head of [s]: the label, group 2 and the length
    of the whole match. *)
Definition section_at (s : jsstring) : option (slot * jsstring * nat) :=
  match label_colon_at s with
  | Some (k, r, n) =>
    let '(r', w) := skip_spaces r in
    let cap := lazy_until_label [] r' in
    Some (k, cap, (n + w + length cap)%nat)
  | None => None
  end.

End Regex.
Export Regex.

(** ** Source: the page-independent extractors *)

Record TamSamSom := { tam : jsstring; sam : jsstring; som : jsstring }.

(** [tryParseJson] inside [parseAiResult].  Reading a property of [null]
    throws, which the [catch] turns into [null]. *)
Definition parseAiResult_tryParseJson (raw : jsstring) : option TamSamSom :=
  match JSON_parse raw with
  | None | Some JNull => None
  | Some parsed =>
    let tam := asText (coalesce (get parsed (js "tam")) (get parsed (js "TAM"))) in
    let sam := asText (coalesce (get parsed (js "sam")) (get parsed (js "SAM"))) in
    let som := asText (coalesce (get parsed (js "som")) (get parsed (js "SOM"))) in
    if nonempty tam && nonempty sam && nonempty som
    then Some {| tam := tam; sam := sam; som := som |}
    else None
  end.

Definition set_section (key : slot) (value : jsstring) (s : TamSamSom) : TamSamSom :=
  match key with
  | Tam => {| tam := value; sam := sam s; som := som s |}
  | Sam => {| tam := tam s; sam := value; som := som s |}
  | Som => {| tam := tam s; sam := sam s; som := value |}
  end.

(** The [while ((match = regex.exec(trimmed)) !== null)] loop.  [skip] code
    units still belong to the previous match, so the next attempt starts
    where that match ended ([lastIndex]). *)
Fixpoint scan_sections (s : jsstring) (skip : nat) (sections : TamSamSom) : TamSamSom :=
  match s with
  | [] => sections
  | _ :: rest =>
    match skip with
    | S k => scan_sections rest k sections
    | O =>
      match section_at s with
      | Some (key, cap, len) =>
        scan_sections rest (pred len) (set_section key (trim cap) sections)
      | None => scan_sections rest O sections
      end
    end
  end.

Definition parseAiResult_sections (trimmed : jsstring) : option TamSamSom :=
  let sections := scan_sections trimmed O {| tam := []; sam := []; som := [] |} in
  if nonempty (tam sections) && nonempty (sam sections) && nonempty (som sections)
  then Some sections
  else None.

Definition parseAiResult (text : jsstring) : option TamSamSom :=
  let trimmed := trim text in
  if negb (nonempty trimmed) then None else
  match parseAiResult_tryParseJson trimmed with
  | Some jsonCandidate => Some jsonCandidate
  | None =>
    let blockParsed :=
      match brace_block trimmed with
      | Some block => parseAiResult_tryParseJson block
      | None => None
      end in
    match blockParsed with
    | Some r => Some r
    | None => parseAiResult_sections trimmed
    end
  end.

(** [value.replace(/\|/g, '\\|').trim()] *)
Definition sanitizeTableCell (value : jsstring) : jsstring :=
  trim (flat_map (fun c => if c =? 124 then [92; 124] else [c]) value).

Record CompetitorEntry :=
  { name : jsstring; website : jsstring;
    description : jsstring; successLikelihood : jsstring }.

(** [record.k1 ?? record.k2 ?? ...] *)
Definition first_of (record : JSON) (keys : list jsstring) : option JSON :=
  fold_left (fun acc k => coalesce acc (get record k)) keys None.

(** [asText(...) || fallback] *)
Definition or_default (s fallback : jsstring) : jsstring :=
  if nonempty s then s else fallback.

(** The callback of [list.map] in [parseCompetitorEntries]. *)
Definition normalize_competitor (entry : JSON) : option CompetitorEntry :=
  if negb (truthy (Some entry)) || negb (typeof_object entry) then None else
  Some
    {| name :=
         or_default
           (asText (first_of entry
              [js "name"; js "Nombre"; js "title"; js "company"; js "organisation"]))
           (js "Competidor sin nombre");
       website :=
         or_default
           (asText (first_of entry
              [js "website"; js "url"; js "link"; js "site"; js "Web"; js "web"]))
           (js "N/D");
       description :=
         or_default
           (asText (first_of entry
              [js "description"; js "descripcion"; js "summary"; js "detalle";
               js "detalles"]))
           (js "Descripción no disponible");
       successLikelihood :=
         or_default
           (asText (first_of entry
              [js "successLikelihood"; js "success_probability";
               js "successProbability"; js "success"; js "probability";
               js "probabilidad"]))
           (js "Sin estimación") |}.

(** The list [tryParse] works on: the parsed array itself, or the array
    under [competitors]. *)
Definition competitor_list (parsed : JSON) : option (list JSON) :=
  match parsed with
  | JArr l => Some l
  | JObj _ =>
    match get parsed (js "competitors") with
    | Some (JArr l) => Some l
    | _ => None
    end
  | _ => None
  end.

(** [.filter(Boolean)] over the optional results of a [map]. *)
Definition somes {A} (l : list (option A)) : list A :=
  flat_map (fun o => match o with Some x => [x] | None => [] end) l.

Definition parseCompetitorEntries_tryParse (raw : jsstring) : option (list CompetitorEntry) :=
  match JSON_parse raw with
  | None => None
  | Some parsed =>
    match competitor_list parsed with
    | None | Some [] => None
    | Some list =>
      match somes (map normalize_competitor list) with
      | [] => None
      | normalized => Some normalized
      end
    end
  end.

Definition parseCompetitorEntries (text : jsstring) : option (list CompetitorEntry) :=
  let trimmed := trim text in
  if negb (nonempty trimmed) then None else
  match parseCompetitorEntries_tryParse trimmed with
  | Some direct => Some direct
  | None =>
    match fenced_block trimmed with
    | Some block => parseCompetitorEntries_tryParse block
    | None => None
    end
  end.

Definition competitor_header : jsstring :=
  js "Nombre | Web | Descripción | Probabilidad de Éxito".
Definition competitor_separator : jsstring := js "--- | --- | --- | ---".

Definition formatCompetitorTable (entries : list CompetitorEntry) : jsstring :=
  let rows :=
    map (fun entry =>
           join (js " | ")
             [sanitizeTableCell (name entry); sanitizeTableCell (website entry);
              sanitizeTableCell (description entry);
              sanitizeTableCell (successLikelihood entry)])
        entries in
  join [LF] (competitor_header :: competitor_separator :: rows).

Record PorterResult :=
  { clientPower : jsstring; supplierPower : jsstring; substitutesThreat : jsstring;
    newEntrantsThreat : jsstring; competitiveRivalry : jsstring }.

(** [typeof v === 'string'], with the string. *)
Definition as_string (v : option JSON) : option jsstring :=
  match v with
  | Some (JStr s) => Some s
  | _ => None
  end.

(** [tryParseJson] inside [parsePorterResult]. *)
Definition parsePorterResult_tryParseJson (raw : jsstring) : option PorterResult :=
  match JSON_parse raw with
  | None | Some JNull => None
  | Some parsed =>
    match as_string (get parsed (js "clientPower")),
          as_string (get parsed (js "supplierPower")),
          as_string (get parsed (js "substitutesThreat")),
          as_string (get parsed (js "newEntrantsThreat")),
          as_string (get parsed (js "competitiveRivalry")) with
    | Some c, Some s, Some t, Some n, Some r =>
      Some {| clientPower := c; supplierPower := s; substitutesThreat := t;
              newEntrantsThreat := n; competitiveRivalry := r |}
    | _, _, _, _, _ => None
    end
  end.

Definition parsePorterResult (text : jsstring) : option PorterResult :=
  let trimmed := trim text in
  if negb (nonempty trimmed) then None else
  match parsePorterResult_tryParseJson trimmed with
  | Some direct => Some direct
  | None =>
    match fenced_block trimmed with
    | Some block => parsePorterResult_tryParseJson block
    | None => None
    end
  end.

(** ** Source: [extractMessageContent]

    The content arrives from [response.json()], so it is any JSON value. *)

(** The callback of [content.map]. *)
Definition chunk_text (chunk : JSON) : jsstring :=
  if negb (truthy (Some chunk)) then []
  else match chunk with
       | JStr s => s
       | JObj _ =>
         match get chunk (js "text") with
         | Some (JStr t) => t
         | _ => []
         end
       | _ => []
       end.

Definition extractMessageContent (content : JSON) : jsstring :=
  match content with
  | JStr s => s
  | JArr chunks => join [LF] (filter (fun s => nonempty s) (map chunk_text chunks))
  | _ => []
  end.

(** ** The quantitative-triple extractor as the specification words it

    Tier two of the specification looks for the first fenced code block
    and, failing that, for the first top-level [{...}] span. *)

(** The rest of a brace span, after its opening brace: up to the closing
    brace that balances it; [depth] counts the braces opened inside. *)
Fixpoint balanced_rest (depth : nat) (s : jsstring) : option jsstring :=
  match s with
  | [] => None
  | c :: rest =>
    if c =? 125 then
      match depth with
      | O => Some [c]
      | S d => option_map (cons c) (balanced_rest d rest)
      end
    else if c =? 123 then option_map (cons c) (balanced_rest (S depth) rest)
    else option_map (cons c) (balanced_rest depth rest)
  end.

Definition spec_top_level_span (text : jsstring) : option jsstring :=
  match from_first 123 text with
  | Some (open :: body) => option_map (cons open) (balanced_rest 0 body)
  | _ => None
  end.

Definition spec_tier2_candidate (trimmed : jsstring) : option jsstring :=
  match fenced_block trimmed with
  | Some block => Some block
  | None => spec_top_level_span trimmed
  end.

Definition spec_parseAiResult (text : jsstring) : option TamSamSom :=
  let trimmed := trim text in
  match parseAiResult_tryParseJson trimmed with
  | Some r => Some r
  | None =>
    let tier2 :=
      match spec_tier2_candidate trimmed with
      | Some candidate => parseAiResult_tryParseJson candidate
      | None => None
      end in
    match tier2 with
    | Some r => Some r
    | None => parseAiResult_sections trimmed
    end
  end.

(** ** The form schema and the answer map *)

Record FormItem := { area : jsstring; question : jsstring; help : jsstring }.
Record FormPage := { title : jsstring; items : list FormItem }.
Record FormFieldDescriptor :=
  { fieldId : jsstring; pageTitle : jsstring; fd_question : jsstring }.
Record PrefillAnswerEntry := { pe_fieldId : jsstring; pe_value : jsstring }.

(** [type AnswerMap = Record<string, string>] *)
Abbreviation AnswerMap := (gmap jsstring jsstring).

(** Every [throw new Error(...)] of the source, by throw site, and the one
    text that [handleFiles] shows in place of whatever the import threw. *)
Inductive AppError :=
| TamSamSomUnparsed        (* 'No pudimos interpretar la respuesta del modelo.' *)
| TamSamSomFieldsMissing   (* 'No encontramos los campos de TAM, SAM y SOM ...' *)
| CompetitorsUnparsed      (* 'No pudimos interpretar la lista de competidores ...' *)
| CompetitorsFieldMissing  (* 'No encontramos el campo de competidores ...' *)
| PorterUnparsed           (* 'No pudimos interpretar el análisis Porter ...' *)
| PorterFieldsMissing      (* 'No encontramos los 5 campos del análisis Porter ...' *)
| OnePagerEmpty            (* 'La IA no devolvió contenido para el one-pager.' *)
| OnePagerFieldMissing     (* 'No encontramos el campo del one-pager ...' *)
| PrefillNoJson            (* 'La IA no devolvió un JSON con campos a pre-rellenar.' *)
| PrefillUnparsed          (* 'No pudimos interpretar los campos pre-rellenados ...' *)
| PrefillUnknownFields     (* 'La IA no devolvió campos conocidos para completar.' *)
| PrefillNoEmptyFields     (* 'La IA no encontró campos vacíos para completar ...' *)
| EmptyReply               (* 'La respuesta de la IA vino vacía.' *)
| ImportSyntaxError        (* the SyntaxError of JSON.parse *)
| ImportNoAnswers          (* 'El archivo no contiene respuestas.' *)
| ImportUnrecognized.      (* 'No reconocemos el archivo. Asegúrate de ...' *)

(** [acc[key] = value] on a plain object: assigning a string to ["__proto__"]
    reaches the inherited setter, which ignores it, so no property appears. *)
Definition obj_assign (key value : jsstring) (acc : AnswerMap) : AnswerMap :=
  if str_eqb key (js "__proto__") then acc else <[key := value]> acc.

(** [.replace(/[\u0300-\u036f]/g, '')] *)
Definition strip_combining (s : jsstring) : jsstring :=
  filter (fun c => negb ((768 <=? c) && (c <=? 879))) s.

Definition is_slug_char (c : N) : bool :=
  ((97 <=? c) && (c <=? 122)) || is_digit c.

(** [.replace(/[^a-z0-9]+/g, '-')] *)
Fixpoint collapse_runs (s : jsstring) (in_run : bool) : jsstring :=
  match s with
  | [] => []
  | c :: rest =>
    if is_slug_char c then c :: collapse_runs rest false
    else if in_run then collapse_runs rest true
    else 45 :: collapse_runs rest true
  end.

(** [.replace(/(^-|-$)/g, '')] *)
Definition strip_edge_dashes (s : jsstring) : jsstring :=
  let s1 := match s with 45 :: rest => rest | _ => s end in
  match rev s1 with
  | 45 :: rest => rev rest
  | _ => s1
  end.

Section Schema.

(** [String.prototype.toLowerCase] and [normalize('NFD')] consult the
    Unicode tables of the platform; [form-pages.json] is the form. *)
Variable toLowerCase : jsstring -> jsstring.
Variable normalizeNFD : jsstring -> jsstring.
Variable formPages : list FormPage.

Definition summaryStepIndex : number := number_of_nat (length formPages).

(** [Math.max(0, Math.min(stepIndex, summaryStepIndex))] *)
Definition clamp_step (stepIndex : number) : number :=
  Math_max (NZero false) (Math_min stepIndex summaryStepIndex).

Definition slugify (value : jsstring) : jsstring :=
  strip_edge_dashes
    (collapse_runs (strip_combining (normalizeNFD (toLowerCase value))) false).

Definition makeFieldId (pageIndex : nat) (question : jsstring) : jsstring :=
  js "step-" ++ nat_to_string pageIndex ++ 45 :: slugify question.

(** [formPages.flatMap((page, pageIndex) => ...)], from page [pageIndex] on. *)
Fixpoint descriptors_from (pageIndex : nat) (pages : list FormPage)
  : list FormFieldDescriptor :=
  match pages with
  | [] => []
  | page :: rest =>
    map (fun item =>
           {| fieldId := makeFieldId pageIndex (question item);
              pageTitle := title page;
              fd_question := question item |}) (items page)
    ++ descriptors_from (S pageIndex) rest
  end.

Definition formFieldDescriptors : list FormFieldDescriptor :=
  descriptors_from 0 formPages.

Definition validFieldIdSet : gset jsstring :=
  list_to_set (map fieldId formFieldDescriptors).

(** [formPages[stepIndex]?.items ?? []] mapped to field identifiers. *)
Definition page_item_ids (stepIndex : nat) : list jsstring :=
  match nth_error formPages stepIndex with
  | Some page => map (fun item => makeFieldId stepIndex (question item)) (items page)
  | None => []
  end.

Definition applyTamSamSomResult (text : jsstring) (stepIndex : nat)
  : AppError + AnswerMap :=
  match parseAiResult text with
  | None => inl TamSamSomUnparsed
  | Some structured =>
    match page_item_ids stepIndex with
    | id0 :: id1 :: id2 :: _ =>
      inr (<[id2 := som structured]>
             (<[id1 := sam structured]> (<[id0 := tam structured]> ∅)))
    | _ => inl TamSamSomFieldsMissing
    end
  end.

(** [formPages[stepIndex]?.items?.[0]?.question], when truthy. *)
Definition first_question (stepIndex : nat) : option jsstring :=
  match nth_error formPages stepIndex with
  | Some page =>
    match items page with
    | item :: _ => if nonempty (question item) then Some (question item) else None
    | [] => None
    end
  | None => None
  end.

Definition applyCompetitorsResult (text : jsstring) (stepIndex : nat)
  : AppError + AnswerMap :=
  match parseCompetitorEntries text with
  | None => inl CompetitorsUnparsed
  | Some entries =>
    match first_question stepIndex with
    | None => inl CompetitorsFieldMissing
    | Some question =>
      inr {[ makeFieldId stepIndex question := formatCompetitorTable entries ]}
    end
  end.

Definition applyPorterResult (text : jsstring) (stepIndex : nat)
  : AppError + AnswerMap :=
  match parsePorterResult text with
  | None => inl PorterUnparsed
  | Some structured =>
    match page_item_ids stepIndex with
    | id0 :: id1 :: id2 :: id3 :: id4 :: _ =>
      inr (<[id4 := competitiveRivalry structured]>
            (<[id3 := newEntrantsThreat structured]>
              (<[id2 := substitutesThreat structured]>
                (<[id1 := supplierPower structured]>
                  (<[id0 := clientPower structured]> ∅)))))
    | _ => inl PorterFieldsMissing
    end
  end.

Definition applyOnePagerResult (text : jsstring) (stepIndex : nat)
  : AppError + AnswerMap :=
  let trimmed := trim text in
  if negb (nonempty trimmed) then inl OnePagerEmpty else
  match first_question stepIndex with
  | None => inl OnePagerFieldMissing
  | Some question => inr {[ makeFieldId stepIndex question := trimmed ]}
  end.

(** *** [normalizePrefillEntries] *)

(** The callback of [input.map] in the array branch. *)
Definition prefill_entry (entry : JSON) : option PrefillAnswerEntry :=
  if negb (truthy (Some entry)) || negb (typeof_object entry) then None else
  let fieldId := asText (first_of entry [js "fieldId"; js "id"; js "field"; js "key"]) in
  let value :=
    asText (first_of entry [js "value"; js "answer"; js "text"; js "content"]) in
  if negb (nonempty fieldId) || negb (nonempty value) then None
  else Some {| pe_fieldId := fieldId; pe_value := value |}.

(** The callback of [Object.entries(record).map] in the object branch. *)
Definition direct_entry (p : jsstring * JSON) : option PrefillAnswerEntry :=
  if negb (bool_decide (fst p ∈ validFieldIdSet)) then None else
  let value := asText (Some (snd p)) in
  if negb (nonempty value) then None
  else Some {| pe_fieldId := fst p; pe_value := value |}.

(** [entries.length ? entries : null] *)
Definition non_empty_or_null {A} (l : list A) : option (list A) :=
  match l with [] => None | _ => Some l end.

Definition nestedKeys : list jsstring :=
  [js "answers"; js "filledAnswers"; js "fields"; js "entries"; js "items"; js "data"].

(** The [for (const key of nestedKeys)] loop: the first nested value whose
    normalization [self] is a non-empty list wins; [direct] is what
    follows the loop. *)
Fixpoint first_nested (self : JSON -> option (option (list PrefillAnswerEntry)))
    (props : list (jsstring * JSON)) (direct : option (list PrefillAnswerEntry))
    (keys : list jsstring) : option (option (list PrefillAnswerEntry)) :=
  match keys with
  | [] => Some direct
  | key :: rest =>
    match assoc key props with
    | None => first_nested self props direct rest
    | Some v =>
      match self v with
      | None => None
      | Some (Some (e :: nested)) => Some (Some (e :: nested))
      | Some _ => first_nested self props direct rest
      end
    end
  end.

(** The routine calls itself on nested values and on the parse of a string
    input.  [fuel] bounds the depth of these calls; the outer [None] means
    the bound was reached, [Some None] is the result [null]. *)
Fixpoint normalize_fuel (fuel : nat) (input : JSON)
  : option (option (list PrefillAnswerEntry)) :=
  match fuel with
  | O => None
  | S fuel' =>
    if negb (truthy (Some input)) then Some None else
    match input with
    | JArr l => Some (non_empty_or_null (somes (map prefill_entry l)))
    | JObj props =>
      first_nested (normalize_fuel fuel') props
        (non_empty_or_null (somes (map direct_entry props))) nestedKeys
    | JStr s =>
      match JSON_parse s with
      | Some parsed => normalize_fuel fuel' parsed
      | None => Some None
      end
    | _ => Some None
    end
  end.

(** A measure that every self-call decreases. *)
Fixpoint jsize (v : JSON) : nat :=
  match v with
  | JStr s => S (length s)
  | JArr l => S (list_sum (map jsize l))
  | JObj props => S (list_sum (map (fun p => jsize (snd p)) props))
  | _ => 1
  end.

Definition normalizePrefillEntries (input : JSON) : option (list PrefillAnswerEntry) :=
  match normalize_fuel (jsize input) input with
  | Some r => r
  | None => None
  end.

(** The deepest chain of re-entries on the parse of a string that one call
    of the routine goes through, along the calls [normalize_fuel] makes. *)
Fixpoint nested_reentries (self : JSON -> option (option (list PrefillAnswerEntry)))
    (count : JSON -> nat) (props : list (jsstring * JSON)) (keys : list jsstring)
  : nat :=
  match keys with
  | [] => O
  | key :: rest =>
    match assoc key props with
    | None => nested_reentries self count props rest
    | Some v =>
      match self v with
      | Some (Some (_ :: _)) => count v
      | _ => Nat.max (count v) (nested_reentries self count props rest)
      end
    end
  end.

Fixpoint reentries_fuel (fuel : nat) (input : JSON) : nat :=
  match fuel with
  | O => O
  | S fuel' =>
    if negb (truthy (Some input)) then O else
    match input with
    | JObj props =>
      nested_reentries (normalize_fuel fuel') (reentries_fuel fuel') props nestedKeys
    | JStr s =>
      match JSON_parse s with
      | Some parsed => S (reentries_fuel fuel' parsed)
      | None => O
      end
    | _ => O
    end
  end.

Definition string_reentries (input : JSON) : nat :=
  reentries_fuel (jsize input) input.

(** *** [applyPrefillResult] *)

(** [trimmed.slice(firstBrace, lastBrace + 1)] under the guard
    [firstBrace !== -1 && lastBrace !== -1 && lastBrace > firstBrace]. *)
Definition brace_slice (text : jsstring) : option jsstring :=
  match from_first 123 text with
  | Some (open :: body) =>
    let inner := upto_last 125 body in
    if nonempty inner then Some (open :: inner) else None
  | _ => None
  end.

Definition applyPrefillResult_tryParse (payload : jsstring)
  : option (list PrefillAnswerEntry) :=
  match JSON_parse payload with
  | Some parsed => normalizePrefillEntries parsed
  | None => None
  end.

(** [value.trim()] is truthy and the identifier is a field of the form. *)
Definition recognized (entry : PrefillAnswerEntry) : bool :=
  bool_decide (pe_fieldId entry ∈ validFieldIdSet)
  && nonempty (trim (pe_value entry)).

Definition applyPrefillResult (text : jsstring) : AppError + AnswerMap :=
  let trimmed := trim text in
  if negb (nonempty trimmed) then inl PrefillNoJson else
  let entries1 := applyPrefillResult_tryParse trimmed in
  let entries2 :=
    match entries1 with
    | Some _ => entries1
    | None =>
      match fenced_block trimmed with
      | Some block => applyPrefillResult_tryParse block
      | None => None
      end
    end in
  let entries3 :=
    match entries2 with
    | Some _ => entries2
    | None =>
      match brace_slice trimmed with
      | Some span => applyPrefillResult_tryParse span
      | None => None
      end
    end in
  match entries3 with
  | None => inl PrefillUnparsed
  | Some entries =>
    match filter (fun e => recognized e) entries with
    | [] => inl PrefillUnknownFields
    | recognizedEntries =>
      inr (fold_left
             (fun acc entry => obj_assign (pe_fieldId entry) (trim (pe_value entry)) acc)
             recognizedEntries ∅)
    end
  end.

(** *** Application state *)

Inductive StatusMessage :=
| StatusSuccess (text : jsstring)
| StatusError (e : AppError).

Record AppState :=
  { answers : AnswerMap; currentStep : number; statusMessage : option StatusMessage }.

(** The predicate of [Object.entries(updates).filter(...)] in
    [handlePrefillWithAi]; [answers] is the map the callback closed over. *)
Definition fills_empty_field (answers : AnswerMap) (entry : jsstring * jsstring) : bool :=
  nonempty (trim (snd entry))
  && match answers !! fst entry with
     | Some existing => negb (nonempty (trim existing))
     | None => true
     end.

(** [Object.fromEntries(sanitizedEntries)] *)
Definition sanitizedUpdates (answers updates : AnswerMap) : AnswerMap :=
  filter (fun entry => fills_empty_field answers entry = true) updates.

(** [{ ...prev, ...updates }] *)
Definition spread (prev updates : AnswerMap) : AnswerMap := updates ∪ prev.

(** The [try] block of [handlePrefillWithAi] from the arrival of the
    response content up to the state update: the entries to write, or the
    error thrown.  [answers] is the map the callback closed over. *)
Definition prefill_outcome (answers : AnswerMap) (content : JSON)
  : AppError + AnswerMap :=
  let aiText := extractMessageContent content in
  if negb (nonempty (trim aiText)) then inl EmptyReply else
  match applyPrefillResult aiText with
  | inl e => inl e
  | inr updates =>
    let sanitized := sanitizedUpdates answers updates in
    if bool_decide (sanitized = ∅) then inl PrefillNoEmptyFields
    else inr sanitized
  end.

Definition prefill_success_text : jsstring :=
  js "Pre-rellenamos algunos campos usando tu brief. Revisalos antes de avanzar.".

(** [handlePrefillWithAi] from the arrival of the response content on.
    [captured] is the Answer Map the callback closed over when the request
    was issued; [st] is the state when the update runs, its answers are
    the [prev] of [setAnswers]. *)
Definition handlePrefillWithAi_response (captured : AnswerMap) (st : AppState)
    (content : JSON) : AppState :=
  match prefill_outcome captured content with
  | inl e =>
    {| answers := answers st; currentStep := currentStep st;
       statusMessage := Some (StatusError e) |}
  | inr sanitized =>
    {| answers := spread (answers st) sanitized; currentStep := currentStep st;
       statusMessage := Some (StatusSuccess prefill_success_text) |}
  end.

(** *** [buildBusinessContext] *)

Definition no_context : jsstring := js "Sin respuestas previas disponibles.".

(** The callback of [page.items.map].  A field identifier starts with
    [step-], so [answers[fieldId]] reads an own property or nothing, never
    a property inherited from [Object.prototype]. *)
Definition context_entry (answers : AnswerMap) (pageIndex : nat) (item : FormItem)
  : option jsstring :=
  match answers !! makeFieldId pageIndex (question item) with
  | Some answer =>
    if nonempty (trim answer)
    then Some (js "- " ++ question item ++ js ": " ++ trim answer)
    else None
  | None => None
  end.

(** The callback of [formPages.slice(0, targetStepIndex).map]. *)
Definition context_section (answers : AnswerMap) (pageIndex : nat) (page : FormPage)
  : option jsstring :=
  match somes (map (context_entry answers pageIndex) (items page)) with
  | [] => None
  | entries => Some (title page ++ js ":" ++ LF :: join [LF] entries)
  end.

(** [pages.map((page, pageIndex) => f(pageIndex, page))] from index [i]. *)
Fixpoint map_indexed {A B} (f : nat -> A -> B) (i : nat) (l : list A) : list B :=
  match l with
  | [] => []
  | x :: rest => f i x :: map_indexed f (S i) rest
  end.

Definition buildBusinessContext (answers : AnswerMap) (targetStepIndex : Z) : jsstring :=
  if (targetStepIndex <=? 0)%Z then no_context else
  let sections :=
    somes (map_indexed (context_section answers) 0
             (firstn (Z.to_nat targetStepIndex) formPages)) in
  match sections with
  | [] => no_context
  | _ => join [LF; LF] sections
  end.

(** *** [parseImport] *)

(** The reducer of [Object.entries(parsed.answers).reduce]. *)
Definition keep_string (acc : AnswerMap) (entry : jsstring * JSON) : AnswerMap :=
  match snd entry with
  | JStr value => obj_assign (fst entry) value acc
  | _ => acc
  end.

Definition parseImport (text : jsstring) : AppError + (AnswerMap * number) :=
  match JSON_parse text with
  | None => inl ImportSyntaxError
  | Some parsed =>
    if negb (truthy (Some parsed)) || negb (typeof_object parsed)
       || negb (truthy (get parsed (js "answers")))
    then inl ImportNoAnswers
    else
      let entries :=
        match get parsed (js "answers") with
        | Some a => Object_entries a
        | None => []
        end in
      let sanitizedAnswers := fold_left keep_string entries ∅ in
      let importedStep :=
        match get parsed (js "currentStep") with
        | Some (JNum n) => clamp_step n
        | _ => NZero false
        end in
      inr (sanitizedAnswers, importedStep)
  end.

Definition import_success_text : jsstring := js "Archivo importado correctamente.".

(** [handleFiles] once the file text is read: [goToStep] clamps again.
    The [catch] shows one fixed text for every error of the import. *)
Definition handleFiles_text (st : AppState) (text : jsstring) : AppState :=
  match parseImport text with
  | inl _ =>
    {| answers := answers st; currentStep := currentStep st;
       statusMessage := Some (StatusError ImportUnrecognized) |}
  | inr (sanitizedAnswers, importedStep) =>
    {| answers := sanitizedAnswers;
       currentStep := clamp_step importedStep;
       statusMessage := Some (StatusSuccess import_success_text) |}
  end.

(** *** The Context Builder as the specification words it *)

(** The rendered non-empty answers of one page, in declaration order. *)
Fixpoint spec_answered_lines (answers : AnswerMap) (pageIndex : nat)
    (its : list FormItem) : list jsstring :=
  match its with
  | [] => []
  | it :: rest =>
    match answers !! makeFieldId pageIndex (question it) with
    | Some a =>
      if nonempty (trim a)
      then (js "- " ++ question it ++ js ": " ++ trim a)
             :: spec_answered_lines answers pageIndex rest
      else spec_answered_lines answers pageIndex rest
    | None => spec_answered_lines answers pageIndex rest
    end
  end.

(** The pages strictly before [bound] that contribute an answer, each
    with its title and its lines, in form order. *)
Fixpoint spec_groups (answers : AnswerMap) (bound : Z) (pageIndex : nat)
    (pages : list FormPage) : list (jsstring * list jsstring) :=
  match pages with
  | [] => []
  | page :: rest =>
    let later := spec_groups answers bound (S pageIndex) rest in
    if (Z.of_nat pageIndex <? bound)%Z then
      match spec_answered_lines answers pageIndex (items page) with
      | [] => later
      | lines => (title page, lines) :: later
      end
    else later
  end.

Definition spec_render_group (g : jsstring * list jsstring) : jsstring :=
  fst g ++ js ":" ++ LF :: join [LF] (snd g).

Definition spec_context (answers : AnswerMap) (bound : Z) : jsstring :=
  match spec_groups answers bound 0 formPages with
  | [] => no_context
  | groups => join [LF; LF] (map spec_render_group groups)
  end.

End Schema.

(** ** Source: the constants derived from the form, and the handlers of [App] *)

(** [.replace(/\s+/g, '')] *)
Definition strip_spaces (s : jsstring) : jsstring :=
  filter (fun c => negb (is_space c)) s.

(** [list.findIndex(pred)]; [None] stands for [-1]. *)
Fixpoint findIndex {A} (pred : A -> bool) (l : list A) : option nat :=
  match l with
  | [] => None
  | x :: rest => if pred x then Some O else option_map S (findIndex pred rest)
  end.

(** [x === y] on numbers. *)
Definition num_eqb (x y : number) : bool :=
  match num_compare x y with Eq => true | _ => false end.

(** [x + d] for an integer [d]: the exact sum, rounded.  A sum of zero is
    [+0]. *)
Definition num_add_int (x : number) (d : Z) : number :=
  match x with
  | NInf neg => NInf neg
  | NZero _ => round_ratio (d <? 0)%Z (Z.abs d) 1
  | NFin neg m e =>
    let sm := (if neg then - Z.pos m else Z.pos m)%Z in
    if (0 <=? e)%Z
    then let s := (sm * 2 ^ e + d)%Z in round_ratio (s <? 0)%Z (Z.abs s) 1
    else let s := (sm + d * 2 ^ (- e))%Z in
         round_ratio (s <? 0)%Z (Z.abs s) (2 ^ (- e))
  end.

Inductive AiActionKey := tamsamsom | competitors | porter | onepager.

(** The fields of [AiActionConfig] that the handler reads once the
    response has arrived; [stepIndex] is [None] for [-1]. *)
Record AiActionConfig :=
  { stepIndex : option nat;
    successMessage : jsstring;
    parseResult : jsstring -> nat -> AppError + AnswerMap }.

Section Handlers.

Variable toLowerCase : jsstring -> jsstring.
Variable normalizeNFD : jsstring -> jsstring.
Variable formPages : list FormPage.

(** [page.title.toLowerCase().replace(/\s+/g, '') === name] *)
Definition title_is (name : jsstring) (page : FormPage) : bool :=
  str_eqb (strip_spaces (toLowerCase (title page))) name.

Definition tamSamSomStepIndex : option nat :=
  findIndex (title_is (js "tamsamsom")) formPages.
Definition competitorListStepIndex : option nat :=
  findIndex (title_is (js "listadecompetidores")) formPages.
Definition porterStepIndex : option nat :=
  findIndex (title_is (js "análisisporter")) formPages.
Definition onePagerStepIndex : option nat :=
  findIndex (title_is (js "onepager")) formPages.

(** [item.question.trim().toLowerCase() === 'estado'] *)
Definition is_estado (item : FormItem) : bool :=
  str_eqb (toLowerCase (trim (question item))) (js "estado").

Definition estadoQuestionId : option jsstring :=
  match findIndex (fun page => existsb is_estado (items page)) formPages with
  | None => None
  | Some pageIndex =>
    match nth_error formPages pageIndex with
    | Some page =>
      match List.find is_estado (items page) with
      | Some item =>
        Some (makeFieldId toLowerCase normalizeNFD pageIndex (question item))
      | None => None
      end
    | None => None
    end
  end.

Definition aiActionConfigs (actionKey : AiActionKey) : AiActionConfig :=
  match actionKey with
  | tamsamsom =>
    {| stepIndex := tamSamSomStepIndex;
       successMessage := js "Investigación de mercado completada con IA.";
       parseResult := applyTamSamSomResult toLowerCase normalizeNFD formPages |}
  | competitors =>
    {| stepIndex := competitorListStepIndex;
       successMessage := js "Lista de competidores generada con IA.";
       parseResult := applyCompetitorsResult toLowerCase normalizeNFD formPages |}
  | porter =>
    {| stepIndex := porterStepIndex;
       successMessage := js "Análisis Porter completado con IA.";
       parseResult := applyPorterResult toLowerCase normalizeNFD formPages |}
  | onepager =>
    {| stepIndex := onePagerStepIndex;
       successMessage := js "One-pager generado con IA.";
       parseResult := applyOnePagerResult toLowerCase normalizeNFD formPages |}
  end.

(** [setAnswers((prev) => ({ ...prev, [fieldId]: value }))]: a computed key
    defines an own property, whatever its name. *)
Definition handleInputChange (st : AppState) (fieldId value : jsstring) : AppState :=
  {| answers := <[fieldId := value]> (answers st);
     currentStep := currentStep st;
     statusMessage := statusMessage st |}.

Definition goToStep (st : AppState) (stepIndex : number) : AppState :=
  {| answers := answers st;
     currentStep := clamp_step formPages stepIndex;
     statusMessage := statusMessage st |}.

Definition export_success_text : jsstring :=
  js "Descargaste un archivo con toda la información.".

(** What [handleExport] does to the state; the download itself is the
    browser's, and is taken not to throw. *)
Definition handleExport (st : AppState) : AppState :=
  {| answers := answers st;
     currentStep := currentStep st;
     statusMessage := Some (StatusSuccess export_success_text) |}.

Definition isSummaryStep (st : AppState) : bool :=
  num_eqb (currentStep st) (summaryStepIndex formPages).

Definition handleNext (st : AppState) : AppState :=
  if isSummaryStep st then handleExport st
  else goToStep st (num_add_int (currentStep st) 1).

Definition handleBack (st : AppState) : AppState :=
  goToStep st (num_add_int (currentStep st) (-1)).

(** The [try] block of [handleAiAction] from the arrival of the response
    content up to the state update.  A missing or [null] content is the
    empty string, which [extractMessageContent] maps to itself, as the
    model does [JNull]. *)
Definition aiAction_outcome (action : AiActionConfig) (index : nat) (content : JSON)
  : AppError + AnswerMap :=
  let aiText := extractMessageContent content in
  if negb (nonempty (trim aiText)) then inl EmptyReply
  else parseResult action aiText index.

(** [handleAiAction] from the arrival of the response content on.  With
    [stepIndex === -1] the handler returns before it sends a request, so
    there is no response to handle: [None]. *)
Definition handleAiAction_response (actionKey : AiActionKey) (st : AppState)
    (content : JSON) : option AppState :=
  let action := aiActionConfigs actionKey in
  match stepIndex action with
  | None => None
  | Some index =>
    match aiAction_outcome action index content with
    | inl e =>
      Some {| answers := answers st; currentStep := currentStep st;
              statusMessage := Some (StatusError e) |}
    | inr updates =>
      Some {| answers := spread (answers st) updates; currentStep := currentStep st;
              statusMessage := Some (StatusSuccess (successMessage action)) |}
    end
  end.

(** *** The application as a machine

    What reaches the answers and the current step: typing into a field,
    the three ways of moving between steps, a file that was read, and the
    replies to the requests of the two kinds of AI action.  What only sets
    the status banner (a request that is refused before it is sent, a
    failed HTTP exchange, a file that cannot be read) is left out. *)
Inductive Event :=
| InputChange (fieldId value : jsstring)
| BreadcrumbClick (index : nat)
| NextClick
| BackClick
| FileRead (text : jsstring)
| AiActionReply (actionKey : AiActionKey) (content : JSON)
| PrefillReply (captured : AnswerMap) (content : JSON).

(** [useState(0)], [useState({})], [useState(null)] *)
Definition initialState : AppState :=
  {| answers := ∅; currentStep := NZero false; statusMessage := None |}.

(** One event; [None] when the event cannot occur in the state. *)
Definition handle (st : AppState) (ev : Event) : option AppState :=
  match ev with
  | InputChange fieldId value => Some (handleInputChange st fieldId value)
  | BreadcrumbClick index => Some (goToStep st (number_of_nat index))
  | NextClick => Some (handleNext st)
  | BackClick => Some (handleBack st)
  | FileRead text => Some (handleFiles_text formPages st text)
  | AiActionReply actionKey content => handleAiAction_response actionKey st content
  | PrefillReply captured content =>
    Some (handlePrefillWithAi_response toLowerCase normalizeNFD formPages
            captured st content)
  end.

Fixpoint run_events (st : AppState) (evs : list Event) : option AppState :=
  match evs with
  | [] => Some st
  | ev :: rest =>
    match handle st ev with
    | Some st' => run_events st' rest
    | None => None
    end
  end.

End Handlers.

(** The text each AI action compares the page titles with. *)
Definition action_title (actionKey : AiActionKey) : jsstring :=
  match actionKey with
  | tamsamsom => js "tamsamsom"
  | competitors => js "listadecompetidores"
  | porter => js "análisisporter"
  | onepager => js "onepager"
  end.

(** ** A small form, for running the engine on concrete inputs *)

Module Sample.

(** On ASCII text, [toLowerCase] folds the capital letters and
    [normalize('NFD')] changes nothing. *)
Definition lower (s : jsstring) : jsstring :=
  map (fun c => if (65 <=? c) && (c <=? 90) then c + 32 else c) s.
Definition nfd (s : jsstring) : jsstring := s.

Definition item (q : string) : FormItem :=
  {| area := js "Canvas"; question := js q; help := [] |}.

Definition pages : list FormPage :=
  [ {| title := js "Idea"; items := [item "Nombre del proyecto"; item "Estado"] |};
    {| title := js "TAM SAM SOM"; items := [item "TAM"; item "SAM"; item "SOM"] |};
    {| title := js "Lista de competidores"; items := [item "Competidores"] |};
    {| title := js "Analisis Porter";
       items := [item "Poder de clientes"; item "Poder de proveedores";
                 item "Amenaza de sustitutos"; item "Amenaza de nuevos entrantes";
                 item "Rivalidad competitiva"] |};
    {| title := js "One pager"; items := [item "One-pager"] |} ].

End Sample.

(** ** A brief-driven run on the sample form *)

(** The state field is filled in, the market-size fields are empty. *)
Definition sample_state : AppState :=
  {| answers := {[ js "step-0-estado" := js "Idea" ]};
     currentStep := NZero false;
     statusMessage := None |}.

(** The model proposes a value for a filled field and one for an empty
    field. *)
Definition sample_reply : JSON :=
  JStr (jq "{'step-0-estado':'Escala','step-1-tam':'100'}").

(** ** Nested string encodings of one candidate map *)

(** The JSON text of a string that holds the JSON text of an object. *)
Definition encoded_once : jsstring := jq "'{\'step-0-estado\':\'Idea\'}'".

(** The JSON text of a string that holds [encoded_once]. *)
Definition encoded_twice : jsstring :=
  jq "'\'{\\\'step-0-estado\\\':\\\'Idea\\\'}\''".

(** ** Measures for the termination argument

    Each state of the [JSON.parse] automaton has a weight that bounds the
    size of everything it has built so far; one step adds at most one. *)

Definition values_size (props : list (jsstring * JSON)) : nat :=
  list_sum (map (fun p => jsize (snd p)) props).

Definition frame_weight (f : frame) : nat :=
  match f with
  | FArr done => S (list_sum (map jsize done))
  | FObj props => S (values_size props)
  | FObjK props _ => S (values_size props)
  end.

Definition stack_weight (stack : list frame) : nat :=
  list_sum (map frame_weight stack).

Definition ctl_weight (k : ctl) : nat :=
  match k with
  | CStr _ acc | CEsc _ acc | CHex _ acc _ _ => S (length acc)
  | CLit _ v => jsize v
  | CNum _ _ => 1
  | _ => 0
  end.

Definition top_weight (top : option JSON) : nat :=
  match top with Some v => jsize v | None => 0 end.

Definition state_weight (s : pstate) : nat :=
  ctl_weight (p_ctl s) + stack_weight (p_stack s) + top_weight (p_top s).

(** ** Well-formed values: every object lists each of its keys once *)

Fixpoint json_wf (v : JSON) : Prop :=
  match v with
  | JArr l => fold_right and True (map json_wf l)
  | JObj props =>
    NoDup (map fst props)
    /\ fold_right and True (map (fun p => json_wf (snd p)) props)
  | _ => True
  end.

Definition all_wf (l : list JSON) : Prop := fold_right and True (map json_wf l).

Definition values_wf (props : list (jsstring * JSON)) : Prop :=
  fold_right and True (map (fun p => json_wf (snd p)) props).

Definition props_wf (props : list (jsstring * JSON)) : Prop :=
  NoDup (map fst props) /\ values_wf props.

Definition frame_wf (f : frame) : Prop :=
  match f with
  | FArr done => all_wf done
  | FObj props | FObjK props _ => props_wf props
  end.

Definition stack_wf (stack : list frame) : Prop :=
  fold_right and True (map frame_wf stack).

Definition state_wf (s : pstate) : Prop :=
  match p_ctl s with CLit _ v => json_wf v | _ => True end
  /\ stack_wf (p_stack s)
  /\ match p_top s with Some v => json_wf v | None => True end.

(** The number a string of decimal digits denotes. *)
Definition digits_number (s : jsstring) : N :=
  fold_left (fun acc c => 10 * acc + (c - 48)) s 0.

(** ** Import, as the specification words it *)

(** The string value an import keeps for the key [k]: that of the last
    string-valued entry with this key ([JSON.parse] gives an object each
    key once, so there is at most one). *)
Fixpoint last_string_entry (k : jsstring) (entries : list (jsstring * JSON))
  : option jsstring :=
  match entries with
  | [] => None
  | (k', v) :: rest =>
    match last_string_entry k rest with
    | Some s => Some s
    | None =>
      match v with
      | JStr s => if str_eqb k' k then Some s else None
      | _ => None
      end
    end
  end.

(** ** Replies used in the examples *)

Definition acme_text : jsstring := jq "[{'name':'Acme','url':'acme.com'}]".

Definition acme_table : jsstring :=
  competitor_header ++ LF :: competitor_separator
    ++ LF :: js "Acme | acme.com | Descripción no disponible | Sin estimación".

Definition triple_json_text : jsstring := jq "{'tam':'100','sam':'50','som':'10'}".

Definition triple_labelled_text : jsstring :=
  js "TAM: 100" ++ LF :: js "SAM: 50" ++ LF :: js "SOM: 10".

(** The third slot is present and empty. *)
Definition triple_empty_slot_text : jsstring := jq "{'tam':'100','sam':'50','som':''}".

(** A fenced JSON object followed by a remark that contains braces. *)
Definition triple_fenced_text : jsstring :=
  js "```json" ++ LF :: jq "{'tam':'1','sam':'2','som':'3'}" ++ LF :: js "```"
    ++ LF :: js "Fuente: {INE}".

(** The five forces, and a property the extractor does not ask for. *)
Definition porter_text : jsstring :=
  jq "{'clientPower':'alto','supplierPower':'medio','substitutesThreat':'bajo','newEntrantsThreat':'medio','competitiveRivalry':'alto','note':1}".

(** An exported file: one answer of the form, one key the form does not
    have, one value that is not a string, and a step beyond the summary. *)
Definition import_text : jsstring :=
  jq "{'version':1,'currentStep':9,'answers':{'step-0-estado':'Idea','extra':'kept','n':1}}".

(** ** Whole numbers

    The canonical form of a whole number from 1 to [2^53 - 1]. *)
Definition whole (k : Z) : number :=
  NFin false (Z.to_pos (k * 2 ^ (52 - Z.log2 k))) (Z.log2 k - 52).

(** ** Runs of the handlers on the sample form *)

(** The reply to the one-pager request, and the state it leaves. *)
Definition onepager_reply : JSON := JStr (js " Resumen ejecutivo ").

Definition after_onepager : AppState :=
  {| answers :=
       <[js "step-4-one-pager" := js "Resumen ejecutivo"]> (answers sample_state);
     currentStep := NZero false;
     statusMessage := Some (StatusSuccess (js "One-pager generado con IA.")) |}.

(** The candidates of [sample_reply]. *)
Definition sample_updates : AnswerMap :=
  <[js "step-1-tam" := js "100"]> {[ js "step-0-estado" := js "Escala" ]}.

(** The market size was typed in while the request was in flight. *)
Definition typed_meanwhile : AppState :=
  {| answers := <[js "step-1-tam" := js "42"]> (answers sample_state);
     currentStep := NZero false;
     statusMessage := None |}.

(** A reply that names the same field twice. *)
Definition twice_named_text : jsstring :=
  jq "[{'fieldId':'step-0-estado','value':'Idea'},{'fieldId':'step-0-estado','value':' Escala '}]".

(** A session without an import, and one with it. *)
Definition sample_session : list Event :=
  [ InputChange (js "step-0-estado") (js "Idea");
    NextClick;
    AiActionReply tamsamsom (JStr triple_json_text);
    BreadcrumbClick 4;
    AiActionReply onepager onepager_reply;
    BackClick;
    PrefillReply ∅ sample_reply ].

Definition sample_session_with_import : list Event :=
  sample_session ++ [FileRead import_text; NextClick].

Definition run_or_initial (evs : list Event) : AppState :=
  match run_events Sample.lower Sample.nfd Sample.pages initialState evs with
  | Some st => st
  | None => initialState
  end.

(** * Properties *)

(** ** Strings and numbers *)

Lemma nonempty_true (s : jsstring) : nonempty s = true <-> s <> [].
Proof. destruct s; simpl; split; congruence. Qed.

Lemma nonempty_false (s : jsstring) : nonempty s = false <-> s = [].
Proof. destruct s; simpl; split; congruence. Qed.

Lemma pos_digits_fuel_nonempty (fuel : nat) (n : N) (acc : jsstring) :
  acc <> [] -> pos_digits_fuel fuel n acc <> [].
Proof.
  revert n acc. induction fuel as [|fuel IH]; intros n acc Hacc; simpl.
  - exact Hacc.
  - destruct (n / 10 =? 0); [discriminate|]. apply IH. discriminate.
Qed.

Lemma N_to_string_nonempty (n : N) : N_to_string n <> [].
Proof.
  unfold N_to_string. cbn [pos_digits_fuel].
  destruct (n / 10 =? 0); [discriminate|].
  apply pos_digits_fuel_nonempty. discriminate.
Qed.

Lemma format_decimal_nonempty (ds : jsstring) (n : Z) :
  ds <> [] -> format_decimal ds n <> [].
Proof.
  intros Hds. unfold format_decimal.
  repeat match goal with |- context [if ?b then _ else _] => destruct b end;
    try (destruct ds as [|d [|d' ds']]; simpl; congruence).
  destruct (firstn (Z.to_nat n) ds); discriminate.
Qed.

(** [String(x)] is never the empty string. *)
Lemma Number_toString_nonempty (x : number) : Number_toString x <> [].
Proof.
  destruct x as [neg|neg|neg m e]; simpl.
  - discriminate.
  - destruct neg; discriminate.
  - destruct (shortest m e) as [s n].
    pose proof (format_decimal_nonempty (N_to_string (Z.to_N s)) n
                  (N_to_string_nonempty _)) as H.
    destruct neg; simpl; [discriminate|exact H].
Qed.

(** ** Field identifiers *)

Lemma makeFieldId_prefix (lower nfd : jsstring -> jsstring) (i : nat) (q : jsstring) :
  starts_with (js "step-") (makeFieldId lower nfd i q) = true.
Proof. reflexivity. Qed.

Lemma descriptors_from_prefix (lower nfd : jsstring -> jsstring)
    (pages : list FormPage) :
  forall i d, In d (descriptors_from lower nfd i pages) ->
              starts_with (js "step-") (fieldId d) = true.
Proof.
  induction pages as [|page rest IH]; intros i d; simpl; [intros []|].
  rewrite in_app_iff, in_map_iff. intros [(item & <- & _)|H].
  - reflexivity.
  - exact (IH _ _ H).
Qed.

(** Every identifier of the registry starts with [step-]; in particular
    ["__proto__"] and the names of the methods of [Object.prototype] are
    not field identifiers. *)
Lemma validFieldIdSet_prefix (lower nfd : jsstring -> jsstring)
    (pages : list FormPage) (k : jsstring) :
  k ∈ validFieldIdSet lower nfd pages -> starts_with (js "step-") k = true.
Proof.
  unfold validFieldIdSet, formFieldDescriptors.
  rewrite elem_of_list_to_set, list_elem_of_In, in_map_iff.
  intros (d & <- & Hd). exact (descriptors_from_prefix _ _ _ _ _ Hd).
Qed.

(** ** The content flattener *)

Lemma chunk_text_not_string (chunk : JSON) :
  (forall s, chunk <> JStr s) ->
  chunk_text chunk =
    match get chunk (js "text") with Some (JStr t) => t | _ => [] end.
Proof.
  intros Hns. destruct chunk as [|b|x|s|l|props]; simpl; try reflexivity.
  - destruct b; reflexivity.
  - unfold chunk_text; simpl. destruct (number_truthy x); reflexivity.
  - destruct (Hns s eq_refl).
Qed.

(** C4. The content flattener is a total function: a string is returned
    unchanged; an array yields the non-empty fragments of its chunks joined
    by one line feed, in order, where the fragment of a chunk is its string
    [text] property when present and nothing otherwise (an array element
    that is itself a bare string, which the declared chunk type excludes,
    is passed through as its own fragment); [[{text:"a"},{text:"b"}]]
    yields ["a\nb"]; every other shape, and the empty array, yields the
    empty string. *)
Theorem extractMessageContent_flattens :
  (forall s, extractMessageContent (JStr s) = s)
  /\ (forall chunks,
        extractMessageContent (JArr chunks)
        = join [LF] (filter (fun s => nonempty s) (map chunk_text chunks)))
  /\ (forall chunk, (forall s, chunk <> JStr s) ->
        chunk_text chunk
        = match get chunk (js "text") with Some (JStr t) => t | _ => [] end)
  /\ extractMessageContent
       (JArr [JObj [(js "text", JStr (js "a"))]; JObj [(js "text", JStr (js "b"))]])
     = js "a" ++ LF :: js "b"
  /\ extractMessageContent (JArr []) = []
  /\ (forall content, (forall s, content <> JStr s) ->
        (forall l, content <> JArr l) -> extractMessageContent content = []).
Proof.
  split; [reflexivity|].
  split; [reflexivity|].
  split; [exact chunk_text_not_string|].
  split; [reflexivity|].
  split; [reflexivity|].
  intros content Hs Hl.
  destruct content; simpl; try reflexivity.
  - destruct (Hs s eq_refl).
  - destruct (Hl elems eq_refl).
Qed.

(** ** The Context Builder *)

Section ContextBuilder.
Variables (toLowerCase normalizeNFD : jsstring -> jsstring).
Variable formPages : list FormPage.

Local Abbreviation makeId := (makeFieldId toLowerCase normalizeNFD).
Local Abbreviation lines := (spec_answered_lines toLowerCase normalizeNFD).
Local Abbreviation groups := (spec_groups toLowerCase normalizeNFD).

Lemma answered_lines_entries (answers : AnswerMap) (i : nat) (its : list FormItem) :
  somes (map (context_entry toLowerCase normalizeNFD answers i) its)
  = lines answers i its.
Proof.
  induction its as [|it rest IH]; simpl; [reflexivity|].
  unfold context_entry at 1.
  destruct (answers !! makeId i (question it)) as [a|]; simpl; [|exact IH].
  destruct (nonempty (trim a)); simpl; [f_equal|]; exact IH.
Qed.

Lemma groups_beyond (answers : AnswerMap) (bound : Z) (pages : list FormPage) :
  forall i, (bound <= Z.of_nat i)%Z -> groups answers bound i pages = [].
Proof.
  induction pages as [|page rest IH]; intros i Hi; simpl; [reflexivity|].
  destruct (Z.ltb_spec (Z.of_nat i) bound) as [Hlt|_]; [lia|].
  apply IH. lia.
Qed.

Lemma sections_groups (answers : AnswerMap) (pages : list FormPage) :
  forall i n,
    somes (map_indexed (context_section toLowerCase normalizeNFD answers) i
             (firstn n pages))
    = map spec_render_group (groups answers (Z.of_nat (i + n)) i pages).
Proof.
  induction pages as [|page rest IH]; intros i n.
  - destruct n; reflexivity.
  - destruct n as [|n].
    + rewrite groups_beyond by lia. reflexivity.
    + cbn [firstn map_indexed spec_groups].
      destruct (Z.ltb_spec (Z.of_nat i) (Z.of_nat (i + S n))) as [_|Hge]; [|lia].
      specialize (IH (S i) n).
      replace (S i + n)%nat with (i + S n)%nat in IH by lia.
      unfold context_section at 1. rewrite answered_lines_entries.
      destruct (lines answers i (items page)) as [|l ls]; simpl.
      * exact IH.
      * f_equal. exact IH.
Qed.

Lemma join_head_nonempty (sep p : jsstring) (rest : list jsstring) :
  p <> [] -> join sep (p :: rest) <> [].
Proof.
  intros Hp. destruct rest as [|q rest]; simpl; [exact Hp|].
  destruct p; [congruence|discriminate].
Qed.

Lemma render_group_nonempty (g : jsstring * list jsstring) : spec_render_group g <> [].
Proof.
  unfold spec_render_group. destruct (fst g); discriminate.
Qed.

(** C7. For every Answer Map and every exclusive upper bound, the Context
    Builder returns exactly the text the specification describes: the
    non-empty answers of the pages strictly before the bound, grouped by
    page title in form order with the items in page order, each rendered
    as [- <question>: <trimmed value>], pages without a non-empty answer
    left out; it returns the fixed sentinel when no page contributes
    (a bound of zero or less included) and never the empty string. *)
Theorem buildBusinessContext_spec (answers : AnswerMap) (targetStepIndex : Z) :
  buildBusinessContext toLowerCase normalizeNFD formPages answers targetStepIndex
  = spec_context toLowerCase normalizeNFD formPages answers targetStepIndex
  /\ (groups answers targetStepIndex 0 formPages = [] ->
      buildBusinessContext toLowerCase normalizeNFD formPages answers targetStepIndex
      = no_context)
  /\ ((targetStepIndex <= 0)%Z ->
      buildBusinessContext toLowerCase normalizeNFD formPages answers targetStepIndex
      = no_context)
  /\ buildBusinessContext toLowerCase normalizeNFD formPages answers targetStepIndex
     <> [].
Proof.
  assert (Heq : buildBusinessContext toLowerCase normalizeNFD formPages answers
                  targetStepIndex
                = spec_context toLowerCase normalizeNFD formPages answers
                    targetStepIndex).
  { unfold buildBusinessContext, spec_context.
    destruct (Z.leb_spec targetStepIndex 0) as [Hle|Hgt].
    - rewrite groups_beyond by (simpl; lia). reflexivity.
    - pose proof (sections_groups answers formPages 0 (Z.to_nat targetStepIndex))
        as H.
      simpl in H. rewrite Z2Nat.id in H by lia. rewrite H.
      destruct (groups answers targetStepIndex 0 formPages); reflexivity. }
  split; [exact Heq|].
  split; [|split].
  - intros Hnone. rewrite Heq. unfold spec_context. rewrite Hnone. reflexivity.
  - intros Hle. unfold buildBusinessContext.
    destruct (Z.leb_spec targetStepIndex 0); [reflexivity|lia].
  - rewrite Heq. unfold spec_context.
    destruct (groups answers targetStepIndex 0 formPages) as [|g gs].
    + discriminate.
    + cbn [map]. apply join_head_nonempty, render_group_nonempty.
Qed.

End ContextBuilder.

(** With no answers yet, the context for the third page is the sentinel. *)
Lemma buildBusinessContext_spec_witness :
  buildBusinessContext Sample.lower Sample.nfd Sample.pages ∅ 3 = no_context.
Proof.
  apply (proj1 (proj2 (buildBusinessContext_spec Sample.lower Sample.nfd
                         Sample.pages ∅ 3))).
  vm_compute. reflexivity.
Defined.

(** ** The fixed-object (Porter) extractor *)

Lemma as_string_Some (v : option JSON) (s : jsstring) :
  as_string v = Some s <-> v = Some (JStr s).
Proof.
  destruct v as [[| | |t| |]|]; simpl; split; intros H; try discriminate;
    congruence.
Qed.

(** The JSON tier succeeds exactly on an object whose five named
    properties are strings, and returns them. *)
Lemma parsePorterResult_tryParseJson_spec (raw : jsstring) (r : PorterResult) :
  parsePorterResult_tryParseJson raw = Some r
  <-> exists props,
        JSON_parse raw = Some (JObj props)
        /\ assoc (js "clientPower") props = Some (JStr (clientPower r))
        /\ assoc (js "supplierPower") props = Some (JStr (supplierPower r))
        /\ assoc (js "substitutesThreat") props = Some (JStr (substitutesThreat r))
        /\ assoc (js "newEntrantsThreat") props = Some (JStr (newEntrantsThreat r))
        /\ assoc (js "competitiveRivalry") props = Some (JStr (competitiveRivalry r)).
Proof.
  unfold parsePorterResult_tryParseJson. split.
  - destruct (JSON_parse raw) as [parsed|]; [|discriminate].
    destruct parsed as [|b|x|s|l|props]; simpl; try discriminate.
    destruct (as_string (assoc (js "clientPower") props)) as [c|] eqn:H1;
      [|discriminate].
    destruct (as_string (assoc (js "supplierPower") props)) as [s|] eqn:H2;
      [|discriminate].
    destruct (as_string (assoc (js "substitutesThreat") props)) as [t|] eqn:H3;
      [|discriminate].
    destruct (as_string (assoc (js "newEntrantsThreat") props)) as [n|] eqn:H4;
      [|discriminate].
    destruct (as_string (assoc (js "competitiveRivalry") props)) as [v|] eqn:H5;
      [|discriminate].
    intros [= <-]. exists props. simpl.
    apply as_string_Some in H1, H2, H3, H4, H5. auto 10.
  - intros (props & -> & H1 & H2 & H3 & H4 & H5). simpl.
    rewrite H1, H2, H3, H4, H5. simpl. destruct r; reflexivity.
Qed.

Section Porter.
Variables (toLowerCase normalizeNFD : jsstring -> jsstring).
Variable formPages : list FormPage.

Local Abbreviation makeId := (makeFieldId toLowerCase normalizeNFD).
Local Abbreviation applyPorter := (applyPorterResult toLowerCase normalizeNFD formPages).

(** C5, amended. The JSON tier of the Porter extractor succeeds exactly
    when the parsed value is an object whose five named properties are all
    strings; the object may carry further properties, of any type, which
    are not looked at; the tiers are the whole text
    and the first fenced block, with no label scan behind them, so the
    extraction fails once both fail; on success the five strings are
    assigned, in order, to the first five fields of the target page, and a
    page with fewer than five items is an error. *)
Theorem porter_extraction :
  (forall raw r,
      parsePorterResult_tryParseJson raw = Some r
      <-> exists props,
            JSON_parse raw = Some (JObj props)
            /\ assoc (js "clientPower") props = Some (JStr (clientPower r))
            /\ assoc (js "supplierPower") props = Some (JStr (supplierPower r))
            /\ assoc (js "substitutesThreat") props = Some (JStr (substitutesThreat r))
            /\ assoc (js "newEntrantsThreat") props = Some (JStr (newEntrantsThreat r))
            /\ assoc (js "competitiveRivalry") props
               = Some (JStr (competitiveRivalry r)))
  /\ (forall text r,
        parsePorterResult text = Some r
        <-> trim text <> []
            /\ (parsePorterResult_tryParseJson (trim text) = Some r
                \/ parsePorterResult_tryParseJson (trim text) = None
                   /\ exists block, fenced_block (trim text) = Some block
                        /\ parsePorterResult_tryParseJson block = Some r))
  /\ (forall text stepIndex,
        parsePorterResult text = None ->
        applyPorter text stepIndex = inl PorterUnparsed)
  /\ (forall text stepIndex r,
        parsePorterResult text = Some r ->
        match nth_error formPages stepIndex with
        | Some {| items := i0 :: i1 :: i2 :: i3 :: i4 :: _ |} =>
          applyPorter text stepIndex
          = inr (<[makeId stepIndex (question i4) := competitiveRivalry r]>
                  (<[makeId stepIndex (question i3) := newEntrantsThreat r]>
                    (<[makeId stepIndex (question i2) := substitutesThreat r]>
                      (<[makeId stepIndex (question i1) := supplierPower r]>
                        (<[makeId stepIndex (question i0) := clientPower r]> ∅)))))
        | _ => applyPorter text stepIndex = inl PorterFieldsMissing
        end).
Proof.
  split; [exact parsePorterResult_tryParseJson_spec|].
  split; [|split].
  - intros text r. unfold parsePorterResult.
    destruct (nonempty (trim text)) eqn:Hne; simpl.
    + apply nonempty_true in Hne.
      destruct (parsePorterResult_tryParseJson (trim text)) as [d|] eqn:Hd.
      * split.
        -- intros [= <-]. split; [exact Hne|]. left. reflexivity.
        -- intros [_ [H|[H _]]]; congruence.
      * split.
        -- intros H. split; [exact Hne|]. right. split; [reflexivity|].
           destruct (fenced_block (trim text)) as [block|]; [|discriminate].
           exists block. split; [reflexivity|exact H].
        -- intros [_ [H|[_ (block & Hb & H)]]]; [discriminate|].
           rewrite Hb. exact H.
    + apply nonempty_false in Hne. split; [discriminate|].
      intros [H _]. congruence.
  - intros text stepIndex H. unfold applyPorterResult. rewrite H. reflexivity.
  - intros text stepIndex r H. unfold applyPorterResult, page_item_ids. rewrite H.
    destruct (nth_error formPages stepIndex) as [[t its]|]; [|reflexivity].
    destruct its as [|i0 [|i1 [|i2 [|i3 [|i4 rest]]]]]; reflexivity.
Qed.

End Porter.

(** The five forces land on the five fields of the Porter page of the
    sample form. *)
Lemma porter_extraction_witness :
  parsePorterResult porter_text
  = Some {| clientPower := js "alto"; supplierPower := js "medio";
            substitutesThreat := js "bajo"; newEntrantsThreat := js "medio";
            competitiveRivalry := js "alto" |}
  /\ applyPorterResult Sample.lower Sample.nfd Sample.pages porter_text 3
     = inr (<[js "step-3-rivalidad-competitiva" := js "alto"]>
             (<[js "step-3-amenaza-de-nuevos-entrantes" := js "medio"]>
               (<[js "step-3-amenaza-de-sustitutos" := js "bajo"]>
                 (<[js "step-3-poder-de-proveedores" := js "medio"]>
                   (<[js "step-3-poder-de-clientes" := js "alto"]> ∅))))).
Proof.
  assert (H : parsePorterResult porter_text
              = Some {| clientPower := js "alto"; supplierPower := js "medio";
                        substitutesThreat := js "bajo";
                        newEntrantsThreat := js "medio";
                        competitiveRivalry := js "alto" |})
    by (vm_compute; reflexivity).
  split; [exact H|].
  exact (proj2 (proj2 (proj2 (porter_extraction Sample.lower Sample.nfd
                                Sample.pages)))
           porter_text 3%nat _ H).
Defined.

(** C5, as stated, fails on the code: an object with six keys, one of
    them not a string, passes the JSON tier; the five named strings are
    taken and the sixth property is ignored. *)
Lemma porter_accepts_a_sixth_property :
  JSON_parse porter_text
  = Some (JObj [(js "clientPower", JStr (js "alto"));
                (js "supplierPower", JStr (js "medio"));
                (js "substitutesThreat", JStr (js "bajo"));
                (js "newEntrantsThreat", JStr (js "medio"));
                (js "competitiveRivalry", JStr (js "alto"));
                (js "note", JNum (number_of_nat 1))])
  /\ parsePorterResult_tryParseJson porter_text
     = Some {| clientPower := js "alto"; supplierPower := js "medio";
               substitutesThreat := js "bajo"; newEntrantsThreat := js "medio";
               competitiveRivalry := js "alto" |}.
Proof. split; vm_compute; reflexivity. Qed.

(** ** The tabular-list (competitors) extractor *)

Lemma str_eqb_eq (a b : jsstring) : str_eqb a b = true <-> a = b.
Proof. unfold str_eqb. apply bool_decide_eq_true. Qed.

Lemma str_eqb_neq (a b : jsstring) : str_eqb a b = false <-> a <> b.
Proof. unfold str_eqb. apply bool_decide_eq_false. Qed.

(** The entity list is the parsed array itself or the array stored under
    the property [competitors]; no other property is consulted. *)
Lemma competitor_list_spec (parsed : JSON) (l : list JSON) :
  competitor_list parsed = Some l
  <-> parsed = JArr l
      \/ exists props, parsed = JObj props
           /\ assoc (js "competitors") props = Some (JArr l).
Proof.
  destruct parsed as [|b|x|s|elems|props]; simpl;
    try (split; [discriminate|intros [H|(props' & H & _)]; discriminate]).
  - split.
    + intros [= <-]. left. reflexivity.
    + intros [[= <-]|(props' & H & _)]; [reflexivity|discriminate].
  - split.
    + destruct (assoc (js "competitors") props) as [[| | | |l'|]|] eqn:Ha;
        try discriminate.
      intros [= <-]. right. exists props. split; [reflexivity|exact Ha].
    + intros [H|(props' & [= <-] & Ha)]; [discriminate|].
      rewrite Ha. reflexivity.
Qed.

Lemma acme_entries :
  parseCompetitorEntries acme_text
  = Some [ {| name := js "Acme"; website := js "acme.com";
              description := js "Descripción no disponible";
              successLikelihood := js "Sin estimación" |} ].
Proof. vm_compute. reflexivity. Qed.

Lemma acme_formatted :
  formatCompetitorTable
    [ {| name := js "Acme"; website := js "acme.com";
         description := js "Descripción no disponible";
         successLikelihood := js "Sin estimación" |} ]
  = acme_table.
Proof. vm_compute. reflexivity. Qed.

Lemma tryParse_no_elements (raw : jsstring) (parsed : JSON) (l : list JSON) :
  JSON_parse raw = Some parsed ->
  competitor_list parsed = Some l ->
  somes (map normalize_competitor l) = [] ->
  parseCompetitorEntries_tryParse raw = None.
Proof.
  intros Hp Hl Hn. unfold parseCompetitorEntries_tryParse. rewrite Hp, Hl.
  destruct l; [reflexivity|]. rewrite Hn. reflexivity.
Qed.

(** C6, as stated, fails on the code: an object that carries the entity
    list under a property other than [competitors] is rejected, so there
    are no two distinct accepted container properties. *)
Lemma competitors_single_container_property :
  parseCompetitorEntries (jq "{'companies':[{'name':'Acme','url':'acme.com'}]}") = None
  /\ parseCompetitorEntries (jq "{'competidores':[{'name':'Acme','url':'acme.com'}]}")
     = None
  /\ ~ (exists k1 k2 : jsstring,
          k1 <> k2
          /\ competitor_list (JObj [(k1, JArr [])]) = Some []
          /\ competitor_list (JObj [(k2, JArr [])]) = Some []).
Proof.
  split; [vm_compute; reflexivity|].
  split; [vm_compute; reflexivity|].
  intros (k1 & k2 & Hne & H1 & H2).
  assert (Hk : forall k, competitor_list (JObj [(k, JArr [])]) = Some [] ->
                         k = js "competitors").
  { intros k H. cbn [competitor_list get assoc] in H.
    destruct (str_eqb (js "competitors") k) eqn:E; [|discriminate].
    apply str_eqb_eq in E. congruence. }
  apply Hne. rewrite (Hk k1 H1), (Hk k2 H2). reflexivity.
Qed.

Section Competitors.
Variables (toLowerCase normalizeNFD : jsstring -> jsstring).
Variable formPages : list FormPage.

Local Abbreviation makeId := (makeFieldId toLowerCase normalizeNFD).
Local Abbreviation applyCompetitors :=
  (applyCompetitorsResult toLowerCase normalizeNFD formPages).

(** C6, amended. The JSON tier of the competitors extractor accepts a bare
    array, or an object carrying the list under the property
    [competitors]; the text [[{"name":"Acme","url":"acme.com"}]] yields one
    value, written to the first field of the target page: the header row,
    the separator row and one data row with Acme, acme.com and the fixed
    defaults for the two missing attributes; a list from which no element
    is extracted, the empty array included, is an extraction failure. *)
Theorem competitors_extraction :
  (forall parsed l,
      competitor_list parsed = Some l
      <-> parsed = JArr l
          \/ exists props, parsed = JObj props
               /\ assoc (js "competitors") props = Some (JArr l))
  /\ (forall stepIndex page first rest,
        nth_error formPages stepIndex = Some page ->
        items page = first :: rest ->
        question first <> [] ->
        applyCompetitors acme_text stepIndex
        = inr {[ makeId stepIndex (question first) := acme_table ]})
  /\ (forall raw parsed l,
        JSON_parse raw = Some parsed ->
        competitor_list parsed = Some l ->
        somes (map normalize_competitor l) = [] ->
        parseCompetitorEntries_tryParse raw = None)
  /\ (forall stepIndex, applyCompetitors (js "[]") stepIndex = inl CompetitorsUnparsed).
Proof.
  split; [exact competitor_list_spec|].
  split; [|split; [exact tryParse_no_elements|]].
  - intros stepIndex page first rest Hpage Hitems Hq.
    unfold applyCompetitorsResult, first_question.
    rewrite acme_entries, Hpage, Hitems.
    apply nonempty_true in Hq. rewrite Hq, acme_formatted. reflexivity.
  - intros stepIndex. reflexivity.
Qed.

End Competitors.

(** The sample form has a competitors page with a first question. *)
Lemma competitors_extraction_witness :
  nth_error Sample.pages 2
    = Some {| title := js "Lista de competidores";
              items := [Sample.item "Competidores"] |}
  /\ applyCompetitorsResult Sample.lower Sample.nfd Sample.pages acme_text 2
     = inr {[ js "step-2-competidores" := acme_table ]}.
Proof.
  split; [reflexivity|].
  refine (proj1 (proj2 (competitors_extraction Sample.lower Sample.nfd Sample.pages))
            2%nat _ (Sample.item "Competidores") [] eq_refl eq_refl _).
  discriminate.
Defined.

(** ** The quantitative-triple extractor *)

Lemma from_first_spec (ch : N) (text suf : jsstring) :
  from_first ch text = Some suf
  <-> exists pre rest, text = pre ++ ch :: rest /\ ~ In ch pre /\ suf = ch :: rest.
Proof.
  revert suf. induction text as [|c text IH]; intros suf; simpl.
  - split; [discriminate|]. intros (pre & rest & H & _). destruct pre; discriminate.
  - destruct (N.eqb_spec c ch) as [->|Hne].
    + split.
      * intros [= <-]. exists [], text. simpl. auto.
      * intros (pre & rest & H & Hpre & ->). destruct pre as [|p pre].
        -- simpl in H. congruence.
        -- simpl in H. injection H as <- _. destruct Hpre. left. reflexivity.
    + rewrite IH. split.
      * intros (pre & rest & -> & Hpre & ->). exists (c :: pre), rest.
        simpl. split; [reflexivity|]. split; [|reflexivity].
        intros [H|H]; [congruence|contradiction].
      * intros (pre & rest & H & Hpre & ->). destruct pre as [|p pre].
        -- simpl in H. congruence.
        -- simpl in H. injection H as <- ->. exists pre, rest.
           split; [reflexivity|]. split; [|reflexivity].
           intros Hin. apply Hpre. right. exact Hin.
Qed.

Lemma from_first_None (ch : N) (text : jsstring) :
  from_first ch text = None <-> ~ In ch text.
Proof.
  induction text as [|c text IH]; simpl; [tauto|].
  destruct (N.eqb_spec c ch) as [->|Hne].
  - split; [discriminate|]. intros H. destruct H. left. reflexivity.
  - rewrite IH. split.
    + intros H [Hc|Hin]; [congruence|contradiction].
    + intros H Hin. apply H. right. exact Hin.
Qed.

Lemma upto_last_split (ch : N) (mid post : jsstring) :
  ~ In ch post -> upto_last ch (mid ++ ch :: post) = mid ++ [ch].
Proof.
  intros Hpost. unfold upto_last.
  assert (H : from_first ch (rev (mid ++ ch :: post)) = Some (ch :: rev mid)).
  { apply from_first_spec. exists (rev post), (rev mid).
    rewrite rev_app_distr. simpl. rewrite <- app_assoc. simpl.
    split; [reflexivity|]. split; [|reflexivity].
    rewrite <- in_rev. exact Hpost. }
  rewrite H. simpl. rewrite rev_involutive. reflexivity.
Qed.

Lemma upto_last_absent (ch : N) (text : jsstring) :
  ~ In ch text -> upto_last ch text = [].
Proof.
  intros H. unfold upto_last.
  assert (Hn : from_first ch (rev text) = None).
  { apply from_first_None. rewrite <- in_rev. exact H. }
  rewrite Hn. reflexivity.
Qed.

Lemma last_occurrence (ch : N) (l : jsstring) :
  In ch l -> exists mid post, l = mid ++ ch :: post /\ ~ In ch post.
Proof.
  induction l as [|c l IH]; intros Hin; [destruct Hin|].
  destruct (in_dec N.eq_dec ch l) as [Hl|Hl].
  - destruct (IH Hl) as (mid & post & -> & Hpost).
    exists (c :: mid), post. split; [reflexivity|exact Hpost].
  - destruct Hin as [->|Hin]; [|contradiction].
    exists [], l. split; [reflexivity|exact Hl].
Qed.

(** What [/\{[\s\S]+\}/] matches: from the first opening brace through
    the last closing brace, with something in between. *)
Lemma brace_block_spec (text block : jsstring) :
  brace_block text = Some block
  <-> exists pre mid post,
        text = pre ++ 123 :: mid ++ 125 :: post
        /\ ~ In 123 pre /\ ~ In 125 post /\ mid <> []
        /\ block = 123 :: mid ++ [125].
Proof.
  unfold brace_block. split.
  - destruct (from_first 123 text) as [suf|] eqn:Hf; [|discriminate].
    apply from_first_spec in Hf. destruct Hf as (pre & body & -> & Hpre & ->).
    destruct (in_dec N.eq_dec 125 body) as [Hin|Hout].
    + destruct (last_occurrence _ _ Hin) as (mid & post & -> & Hpost).
      rewrite upto_last_split by exact Hpost.
      destruct mid as [|m mid]; simpl; [discriminate|].
      rewrite length_app. simpl.
      destruct (length mid + 1)%nat eqn:E; [lia|].
      intros [= <-]. exists pre, (m :: mid), post. simpl. auto 6.
    + rewrite upto_last_absent by exact Hout. discriminate.
  - intros (pre & mid & post & -> & Hpre & Hpost & Hmid & ->).
    assert (Hf : from_first 123 (pre ++ 123 :: mid ++ 125 :: post)
                 = Some (123 :: mid ++ 125 :: post)).
    { apply from_first_spec. exists pre, (mid ++ 125 :: post). auto. }
    rewrite Hf, upto_last_split by exact Hpost.
    destruct mid as [|m mid]; [congruence|].
    simpl. rewrite length_app. simpl.
    destruct (length mid + 1)%nat eqn:E; [lia|]. reflexivity.
Qed.

(** The extractor is its three tiers tried in order: the whole trimmed
    text as JSON, the brace block as JSON, the label scan. *)
Lemma parseAiResult_first_tier (text : jsstring) :
  parseAiResult text =
    match parseAiResult_tryParseJson (trim text) with
    | Some r => Some r
    | None =>
      match match brace_block (trim text) with
            | Some block => parseAiResult_tryParseJson block
            | None => None
            end with
      | Some r => Some r
      | None => parseAiResult_sections (trim text)
      end
    end.
Proof.
  unfold parseAiResult. destruct (trim text) as [|c t]; reflexivity.
Qed.

(** C2, as stated, fails on the code: on a reply whose JSON sits in a
    fenced code block and is followed by text with a closing brace, tier
    two of the specification parses the block and returns its three
    values, while the code takes the span from the first opening brace to
    the last closing brace, fails to parse it, and returns what the label
    scan finds. *)
Lemma parseAiResult_has_no_fence_tier :
  spec_tier2_candidate triple_fenced_text
    = Some (jq "{'tam':'1','sam':'2','som':'3'}" ++ [LF])
  /\ spec_parseAiResult triple_fenced_text
     = Some {| tam := js "1"; sam := js "2"; som := js "3" |}
  /\ brace_block (trim triple_fenced_text)
     = Some (jq "{'tam':'1','sam':'2','som':'3'}" ++ LF :: js "```"
               ++ LF :: js "Fuente: {INE}")
  /\ parseAiResult triple_fenced_text
     = Some {| tam := jq "'1','"; sam := jq "'2','";
               som := jq "'3'}" ++ LF :: js "```" ++ LF :: js "Fuente: {INE}" |}
  /\ parseAiResult triple_fenced_text <> spec_parseAiResult triple_fenced_text.
Proof.
  repeat split; try (vm_compute; reflexivity).
  vm_compute. discriminate.
Qed.

(** C2, amended. The quantitative-triple extractor tries three tiers in a
    fixed order: (1) the whole trimmed text parsed as JSON; (2) if that
    fails, the span from the first opening brace through the last closing
    brace, with at least one code unit between them, parsed as JSON (a
    fenced code block is not looked for); (3) if that fails too, the
    label scan.  The result is that of the first tier to succeed, and the
    extractor fails exactly when all three fail. *)
Theorem parseAiResult_tiers (text : jsstring) :
  let trimmed := trim text in
  let tier1 := parseAiResult_tryParseJson trimmed in
  let tier2 :=
    match brace_block trimmed with
    | Some block => parseAiResult_tryParseJson block
    | None => None
    end in
  let tier3 := parseAiResult_sections trimmed in
  (forall r, tier1 = Some r -> parseAiResult text = Some r)
  /\ (forall r, tier1 = None -> tier2 = Some r -> parseAiResult text = Some r)
  /\ (tier1 = None -> tier2 = None -> parseAiResult text = tier3)
  /\ (parseAiResult text = None <-> tier1 = None /\ tier2 = None /\ tier3 = None)
  /\ (forall block,
        brace_block trimmed = Some block
        <-> exists pre mid post,
              trimmed = pre ++ 123 :: mid ++ 125 :: post
              /\ ~ In 123 pre /\ ~ In 125 post /\ mid <> []
              /\ block = 123 :: mid ++ [125]).
Proof.
  intros trimmed tier1 tier2 tier3.
  pose proof (parseAiResult_first_tier text) as H.
  fold trimmed in H. fold tier1 in H. fold tier2 in H. fold tier3 in H.
  split; [|split; [|split; [|split]]].
  - intros r H1. rewrite H, H1. reflexivity.
  - intros r H1 H2. rewrite H, H1, H2. reflexivity.
  - intros H1 H2. rewrite H, H1, H2. reflexivity.
  - rewrite H. destruct tier1; [|destruct tier2].
    + split; [discriminate|]. intros (H1 & _). discriminate.
    + split; [discriminate|]. intros (_ & H2 & _). discriminate.
    + split; [auto|]. intros (_ & _ & H3). exact H3.
  - intros block. apply brace_block_spec.
Qed.

(** The JSON reply is settled by the first tier. *)
Lemma parseAiResult_tiers_witness :
  parseAiResult triple_json_text
  = Some {| tam := js "100"; sam := js "50"; som := js "10" |}.
Proof.
  apply (proj1 (parseAiResult_tiers triple_json_text)).
  vm_compute. reflexivity.
Defined.

(** The JSON tier fails whenever one of the three slots is missing or
    empty after coercion. *)
Lemma tryParseJson_slot_empty (raw : jsstring) (parsed : JSON) :
  JSON_parse raw = Some parsed ->
  asText (coalesce (get parsed (js "tam")) (get parsed (js "TAM"))) = []
  \/ asText (coalesce (get parsed (js "sam")) (get parsed (js "SAM"))) = []
  \/ asText (coalesce (get parsed (js "som")) (get parsed (js "SOM"))) = [] ->
  parseAiResult_tryParseJson raw = None.
Proof.
  intros Hp Hslot. unfold parseAiResult_tryParseJson. rewrite Hp.
  destruct parsed; try reflexivity;
    destruct Hslot as [H|[H|H]]; rewrite H; simpl;
    rewrite ?andb_false_r; reflexivity.
Qed.

(** C3, as stated, fails on the code: with the third slot empty, both JSON
    tiers fail and the label scan then reads the labels inside the JSON
    text itself, so the extraction succeeds with fragments of the text as
    the three values. *)
Lemma empty_slot_is_not_a_failure :
  JSON_parse triple_empty_slot_text
    = Some (JObj [(js "tam", JStr (js "100")); (js "sam", JStr (js "50"));
                  (js "som", JStr [])])
  /\ (let parsed := JObj [(js "tam", JStr (js "100")); (js "sam", JStr (js "50"));
                          (js "som", JStr [])] in
      asText (coalesce (get parsed (js "som")) (get parsed (js "SOM"))) = [])
  /\ parseAiResult triple_empty_slot_text
     = Some {| tam := jq "'100','"; sam := jq "'50','"; som := jq "''}" |}
  /\ applyTamSamSomResult Sample.lower Sample.nfd Sample.pages
       triple_empty_slot_text 1
     = inr (<[js "step-1-som" := jq "''}"]>
             (<[js "step-1-sam" := jq "'50','"]>
               (<[js "step-1-tam" := jq "'100','"]> ∅))).
Proof. repeat split; vm_compute; reflexivity. Qed.

Section TamSamSom.
Variables (toLowerCase normalizeNFD : jsstring -> jsstring).
Variable formPages : list FormPage.

Local Abbreviation makeId := (makeFieldId toLowerCase normalizeNFD).
Local Abbreviation applyTamSamSom :=
  (applyTamSamSomResult toLowerCase normalizeNFD formPages).

(** C3, amended. On [{"tam":"100","sam":"50","som":"10"}] the first three
    fields of the target page, in page order, are set to 100, 50 and 10;
    an input in which the JSON tiers find a slot missing or empty after
    coercion falls through to the label scan, and is an extraction failure
    exactly when that scan does not find non-empty text for all three
    labels either; the text [TAM: 100\nSAM: 50\nSOM: 10] yields the same
    three values through the label scan. *)
Theorem tamsamsom_extraction :
  (forall stepIndex page i0 i1 i2 rest,
      nth_error formPages stepIndex = Some page ->
      items page = i0 :: i1 :: i2 :: rest ->
      applyTamSamSom triple_json_text stepIndex
      = inr (<[makeId stepIndex (question i2) := js "10"]>
              (<[makeId stepIndex (question i1) := js "50"]>
                (<[makeId stepIndex (question i0) := js "100"]> ∅)))
      /\ applyTamSamSom triple_labelled_text stepIndex
         = applyTamSamSom triple_json_text stepIndex)
  /\ (forall raw parsed,
        JSON_parse raw = Some parsed ->
        asText (coalesce (get parsed (js "tam")) (get parsed (js "TAM"))) = []
        \/ asText (coalesce (get parsed (js "sam")) (get parsed (js "SAM"))) = []
        \/ asText (coalesce (get parsed (js "som")) (get parsed (js "SOM"))) = [] ->
        parseAiResult_tryParseJson raw = None)
  /\ (forall text stepIndex,
        parseAiResult_tryParseJson (trim text) = None ->
        match brace_block (trim text) with
        | Some block => parseAiResult_tryParseJson block
        | None => None
        end = None ->
        parseAiResult text = parseAiResult_sections (trim text)
        /\ (parseAiResult_sections (trim text) = None ->
            applyTamSamSom text stepIndex = inl TamSamSomUnparsed))
  /\ (parseAiResult_tryParseJson (trim triple_labelled_text) = None
      /\ brace_block (trim triple_labelled_text) = None
      /\ parseAiResult_sections (trim triple_labelled_text)
         = Some {| tam := js "100"; sam := js "50"; som := js "10" |}).
Proof.
  split; [|split; [exact tryParseJson_slot_empty|split]].
  - intros stepIndex page i0 i1 i2 rest Hpage Hitems.
    unfold applyTamSamSomResult, page_item_ids. rewrite Hpage, Hitems.
    replace (parseAiResult triple_json_text)
      with (Some {| tam := js "100"; sam := js "50"; som := js "10" |})
      by (vm_compute; reflexivity).
    replace (parseAiResult triple_labelled_text)
      with (Some {| tam := js "100"; sam := js "50"; som := js "10" |})
      by (vm_compute; reflexivity).
    split; reflexivity.
  - intros text stepIndex H1 H2.
    pose proof (parseAiResult_first_tier text) as H. rewrite H1, H2 in H.
    split; [exact H|].
    intros H3. unfold applyTamSamSomResult. rewrite H, H3. reflexivity.
  - repeat split; vm_compute; reflexivity.
Qed.

End TamSamSom.

(** The sample form has a page with the three market-size fields. *)
Lemma tamsamsom_extraction_witness :
  applyTamSamSomResult Sample.lower Sample.nfd Sample.pages triple_json_text 1
  = inr (<[js "step-1-som" := js "10"]>
          (<[js "step-1-sam" := js "50"]> (<[js "step-1-tam" := js "100"]> ∅)))
  /\ applyTamSamSomResult Sample.lower Sample.nfd Sample.pages triple_labelled_text 1
     = applyTamSamSomResult Sample.lower Sample.nfd Sample.pages triple_json_text 1.
Proof.
  exact (proj1 (tamsamsom_extraction Sample.lower Sample.nfd Sample.pages)
           1%nat _ (Sample.item "TAM") (Sample.item "SAM") (Sample.item "SOM") []
           eq_refl eq_refl).
Defined.

(** ** The fill-empty-only merge of the brief-driven action *)

Lemma fills_empty_field_spec (answers : AnswerMap) (k v : jsstring) :
  fills_empty_field answers (k, v) = true
  <-> trim v <> [] /\ (forall old, answers !! k = Some old -> trim old = []).
Proof.
  unfold fills_empty_field. simpl. rewrite andb_true_iff, nonempty_true.
  destruct (answers !! k) as [existing|].
  - rewrite negb_true_iff, nonempty_false. split.
    + intros [Hv He]. split; [exact Hv|]. intros old [= <-]. exact He.
    + intros [Hv He]. split; [exact Hv|]. apply He. reflexivity.
  - split.
    + intros [Hv _]. split; [exact Hv|]. discriminate.
    + intros [Hv _]. split; [exact Hv|reflexivity].
Qed.

Lemma sanitizedUpdates_lookup (answers updates : AnswerMap) (k v : jsstring) :
  sanitizedUpdates answers updates !! k = Some v
  <-> updates !! k = Some v
      /\ trim v <> []
      /\ (forall old, answers !! k = Some old -> trim old = []).
Proof.
  unfold sanitizedUpdates. rewrite map_lookup_filter_Some.
  rewrite fills_empty_field_spec. reflexivity.
Qed.

Lemma obj_assign_lookup (key value k v : jsstring) (acc : AnswerMap) :
  obj_assign key value acc !! k = Some v ->
  acc !! k = Some v \/ (key = k /\ value = v).
Proof.
  unfold obj_assign. destruct (str_eqb key (js "__proto__")); [auto|].
  destruct (decide (key = k)) as [->|Hne].
  - rewrite lookup_insert_eq. intros [= <-]. auto.
  - rewrite lookup_insert_ne by exact Hne. auto.
Qed.

Lemma fold_assign_lookup (entries : list PrefillAnswerEntry) :
  forall (acc : AnswerMap) (k v : jsstring),
    fold_left
      (fun acc entry => obj_assign (pe_fieldId entry) (trim (pe_value entry)) acc)
      entries acc !! k = Some v ->
    acc !! k = Some v
    \/ exists e, In e entries /\ pe_fieldId e = k /\ trim (pe_value e) = v.
Proof.
  induction entries as [|e entries IH]; intros acc k v H; simpl in H; [auto|].
  apply IH in H. destruct H as [H|(e' & Hin & Hk & Hv)].
  - apply obj_assign_lookup in H. destruct H as [H|[Hk Hv]]; [auto|].
    right. exists e. simpl. auto.
  - right. exists e'. simpl. auto.
Qed.

Section Prefill.
Variables (toLowerCase normalizeNFD : jsstring -> jsstring).
Variable formPages : list FormPage.

Local Abbreviation validIds := (validFieldIdSet toLowerCase normalizeNFD formPages).
Local Abbreviation applyPrefill :=
  (applyPrefillResult toLowerCase normalizeNFD formPages).
Local Abbreviation outcome := (prefill_outcome toLowerCase normalizeNFD formPages).
Local Abbreviation respond :=
  (handlePrefillWithAi_response toLowerCase normalizeNFD formPages).

(** Every candidate [applyPrefillResult] returns names a field of the form
    and carries a non-empty value. *)
Lemma applyPrefillResult_validated (text : jsstring) (updates : AnswerMap) :
  applyPrefill text = inr updates ->
  trim text <> []
  /\ forall k v, updates !! k = Some v -> k ∈ validIds /\ v <> [].
Proof.
  unfold applyPrefillResult.
  destruct (nonempty (trim text)) eqn:Hne; simpl; [|discriminate].
  apply nonempty_true in Hne.
  match goal with
  | |- match ?e with _ => _ end = _ -> _ => destruct e as [entries|]
  end; [|discriminate].
  destruct (filter (fun e => recognized toLowerCase normalizeNFD formPages e) entries)
    as [|e0 recog] eqn:Hf; [discriminate|].
  intros [= <-]. split; [exact Hne|].
  intros k v Hlook.
  assert (Hin : exists e, In e (e0 :: recog) /\ pe_fieldId e = k
                          /\ trim (pe_value e) = v).
  { apply fold_assign_lookup in Hlook.
    destruct Hlook as [Hlook|(e & Hin & Hk & Hv)].
    - apply obj_assign_lookup in Hlook. destruct Hlook as [Hlook|[Hk Hv]].
      + rewrite lookup_empty in Hlook. discriminate.
      + exists e0. simpl. auto.
    - exists e. simpl. auto. }
  destruct Hin as (e & Hin & <- & <-).
  assert (He : e ∈ filter (fun e => recognized toLowerCase normalizeNFD formPages e)
                     entries).
  { rewrite Hf. apply list_elem_of_In. exact Hin. }
  apply list_elem_of_filter in He. destruct He as [He _].
  unfold recognized in He. apply Is_true_eq_true in He.
  apply andb_true_iff in He. destruct He as [Hid Hv].
  apply bool_decide_eq_true in Hid. apply nonempty_true in Hv.
  split; [exact Hid|exact Hv].
Qed.

(** The fill-empty-only policy when no answer changes while the request
    is in flight, so that the Answer Map the filter reads is the one the
    update is applied to: an entry is written only if it is a candidate,
    its trimmed value is non-empty and the Answer Map holds no value for
    that key that is non-empty after trimming; what the action writes from
    a reply are validated entries only; when the filter leaves nothing to
    write, the action fails with the no-empty-fields error and the Answer
    Map stays as it was; fields that already hold a non-empty value keep
    it.  With [X] holding "existing" and the candidates
    [{X: "new", Y: "new"}], only [Y] is written. *)
Theorem prefill_fills_empty_only (st : AppState) (content : JSON) :
  (forall updates k v,
      sanitizedUpdates (answers st) updates !! k = Some v
      <-> updates !! k = Some v
          /\ trim v <> []
          /\ (forall old, answers st !! k = Some old -> trim old = []))
  /\ (forall written,
        outcome (answers st) content = inr written ->
        written <> ∅
        /\ (forall k v, written !! k = Some v ->
              k ∈ validIds /\ trim v <> []
              /\ (forall old, answers st !! k = Some old -> trim old = []))
        /\ (forall k,
              answers (respond (answers st) st content) !! k
              = match written !! k with
                | Some v => Some v
                | None => answers st !! k
                end))
  /\ (forall updates,
        applyPrefill (extractMessageContent content) = inr updates ->
        sanitizedUpdates (answers st) updates = ∅ ->
        outcome (answers st) content = inl PrefillNoEmptyFields)
  /\ (forall e,
        outcome (answers st) content = inl e ->
        answers (respond (answers st) st content) = answers st
        /\ statusMessage (respond (answers st) st content) = Some (StatusError e))
  /\ (forall X Y : jsstring,
        X <> Y ->
        sanitizedUpdates {[ X := js "existing" ]}
          (<[ X := js "new" ]> {[ Y := js "new" ]})
        = {[ Y := js "new" ]}).
Proof.
  split; [intros updates k v; apply sanitizedUpdates_lookup|].
  split; [|split; [|split]].
  - intros written Hout. unfold prefill_outcome in Hout.
    destruct (nonempty (trim (extractMessageContent content))); simpl in Hout;
      [|discriminate].
    destruct (applyPrefill (extractMessageContent content)) as [err|updates] eqn:Hap;
      [discriminate|].
    destruct (bool_decide (sanitizedUpdates (answers st) updates = ∅)) eqn:Hempty;
      [discriminate|].
    injection Hout as <-. apply bool_decide_eq_false in Hempty.
    split; [exact Hempty|]. split.
    + intros k v Hk. apply sanitizedUpdates_lookup in Hk.
      destruct Hk as (Hu & Hv & Hold).
      destruct (applyPrefillResult_validated _ _ Hap) as [_ Hvalid].
      destruct (Hvalid k v Hu) as [Hid _]. auto.
    + intros k. unfold handlePrefillWithAi_response, prefill_outcome.
      destruct (nonempty (trim (extractMessageContent content))) eqn:Hne.
      * simpl. rewrite Hap.
        rewrite (proj2 (bool_decide_eq_false _) Hempty). simpl.
        unfold spread. rewrite lookup_union.
        destruct (sanitizedUpdates (answers st) updates !! k);
          destruct (answers st !! k); reflexivity.
      * destruct (applyPrefillResult_validated _ _ Hap) as [Hne' _].
        apply nonempty_false in Hne. congruence.
  - intros updates Hap Hempty. unfold prefill_outcome.
    destruct (applyPrefillResult_validated _ _ Hap) as [Hne _].
    apply nonempty_true in Hne. rewrite Hne. simpl. rewrite Hap.
    rewrite (proj2 (bool_decide_eq_true _) Hempty). reflexivity.
  - intros e Hout. unfold handlePrefillWithAi_response. rewrite Hout.
    split; reflexivity.
  - intros X Y Hne. apply map_eq. intros k.
    destruct (sanitizedUpdates {[X := js "existing"]}
                (<[X := js "new"]> {[Y := js "new"]}) !! k) as [v|] eqn:Hk.
    + apply sanitizedUpdates_lookup in Hk. destruct Hk as (Hu & _ & Hold).
      destruct (decide (k = X)) as [->|HkX].
      * specialize (Hold (js "existing")). rewrite lookup_singleton_eq in Hold.
        specialize (Hold eq_refl). vm_compute in Hold. discriminate.
      * rewrite lookup_insert_ne in Hu by congruence. symmetry. exact Hu.
    + destruct (decide (k = Y)) as [->|HkY].
      * assert (Hs : sanitizedUpdates {[X := js "existing"]}
                       (<[X := js "new"]> {[Y := js "new"]}) !! Y
                     = Some (js "new")).
        { apply sanitizedUpdates_lookup. split; [|split].
          - rewrite lookup_insert_ne by exact Hne. apply lookup_singleton_eq.
          - vm_compute. discriminate.
          - intros old Hold. rewrite lookup_singleton_ne in Hold by exact Hne.
            discriminate. }
        congruence.
      * rewrite lookup_singleton_ne by congruence. reflexivity.
Qed.

End Prefill.

(** On the sample form, with the state field already answered, only the
    empty market-size field is written. *)
Lemma prefill_fills_empty_only_witness :
  prefill_outcome Sample.lower Sample.nfd Sample.pages (answers sample_state)
    sample_reply
  = inr {[ js "step-1-tam" := js "100" ]}
  /\ ({[ js "step-1-tam" := js "100" ]} <> (∅ : AnswerMap)
      /\ (forall k v,
            ({[ js "step-1-tam" := js "100" ]} : AnswerMap) !! k = Some v ->
            k ∈ validFieldIdSet Sample.lower Sample.nfd Sample.pages
            /\ trim v <> []
            /\ (forall old, answers sample_state !! k = Some old -> trim old = []))
      /\ (forall k,
            answers (handlePrefillWithAi_response Sample.lower Sample.nfd
                       Sample.pages (answers sample_state) sample_state
                       sample_reply) !! k
            = match ({[ js "step-1-tam" := js "100" ]} : AnswerMap) !! k with
              | Some v => Some v
              | None => answers sample_state !! k
              end)).
Proof.
  assert (H : prefill_outcome Sample.lower Sample.nfd Sample.pages
                (answers sample_state) sample_reply
              = inr {[ js "step-1-tam" := js "100" ]})
    by (vm_compute; reflexivity).
  split; [exact H|].
  exact (proj1 (proj2 (prefill_fills_empty_only Sample.lower Sample.nfd Sample.pages
                         sample_state sample_reply)) _ H).
Defined.

(** C1 at its failing input: the request is issued while the market-size
    field is empty, "42" is typed into it while the request is in flight,
    and the reply proposes "100" for it.  The filter reads the answers the
    callback closed over, where the field is empty; the update is applied
    to the live answers, where it is not: the field that holds "42" is
    overwritten, and the action reports success. *)
Lemma prefill_overwrites_answer_typed_in_flight :
  answers sample_state !! js "step-1-tam" = None
  /\ answers typed_meanwhile !! js "step-1-tam" = Some (js "42")
  /\ trim (js "42") <> []
  /\ answers (handlePrefillWithAi_response Sample.lower Sample.nfd Sample.pages
                (answers sample_state) typed_meanwhile sample_reply)
       !! js "step-1-tam" = Some (js "100")
  /\ statusMessage (handlePrefillWithAi_response Sample.lower Sample.nfd
                      Sample.pages (answers sample_state) typed_meanwhile
                      sample_reply)
     = Some (StatusSuccess prefill_success_text).
Proof.
  repeat split; try (vm_compute; reflexivity). vm_compute. discriminate.
Qed.

(** ** Termination of the open-field-map normalization *)

Lemma list_sum_rev (l : list nat) : list_sum (rev l) = list_sum l.
Proof.
  induction l as [|x l IH]; simpl; [reflexivity|].
  rewrite list_sum_app. simpl. lia.
Qed.

Lemma values_size_app (a b : list (jsstring * JSON)) :
  values_size (a ++ b) = (values_size a + values_size b)%nat.
Proof. unfold values_size. rewrite map_app, list_sum_app. reflexivity. Qed.

Lemma obj_replace_size (k : jsstring) (v : JSON) (props : list (jsstring * JSON)) :
  (values_size (obj_replace k v props) <= values_size props + jsize v)%nat.
Proof.
  unfold values_size. induction props as [|[k' v'] rest IH]; simpl; [lia|].
  destruct (str_eqb k k'); simpl; lia.
Qed.

Lemma obj_insert_index_size (i : N) (k : jsstring) (v : JSON)
    (props : list (jsstring * JSON)) :
  values_size (obj_insert_index i k v props) = (values_size props + jsize v)%nat.
Proof.
  unfold values_size. induction props as [|[k' v'] rest IH]; simpl.
  - lia.
  - destruct (array_index k') as [j|].
    + destruct (j <? i); simpl; lia.
    + simpl. lia.
Qed.

Lemma obj_define_size (props : list (jsstring * JSON)) (k : jsstring) (v : JSON) :
  (values_size (obj_define props k v) <= values_size props + jsize v)%nat.
Proof.
  unfold obj_define. destruct (assoc k props).
  - apply obj_replace_size.
  - destruct (array_index k).
    + rewrite obj_insert_index_size. lia.
    + rewrite values_size_app. unfold values_size at 2. simpl. lia.
Qed.

Lemma push_value_weight (v : JSON) (stack : list frame) (top : option JSON)
    (s' : pstate) :
  push_value v stack top = Some s' ->
  (state_weight s' <= stack_weight stack + top_weight top + jsize v)%nat.
Proof.
  unfold push_value, state_weight, stack_weight.
  destruct stack as [|[done|props|props key] st]; try discriminate;
    intros [= <-]; simpl.
  - lia.
  - lia.
  - pose proof (obj_define_size props key v). lia.
Qed.

Lemma jsize_array_rev (done : list JSON) :
  jsize (JArr (rev done)) = S (list_sum (map jsize done)).
Proof. simpl. rewrite map_rev, list_sum_rev. reflexivity. Qed.

Lemma jsize_object (props : list (jsstring * JSON)) :
  jsize (JObj props) = S (values_size props).
Proof. reflexivity. Qed.

Lemma jsize_array_nil : jsize (JArr []) = 1%nat.
Proof. reflexivity. Qed.

Lemma stack_weight_cons (f : frame) (stack : list frame) :
  stack_weight (f :: stack) = (frame_weight f + stack_weight stack)%nat.
Proof. reflexivity. Qed.

Ltac weigh_step :=
  repeat first
    [ discriminate
    | match goal with
      | |- Some _ = Some _ -> _ =>
        intros [= <-]; unfold state_weight;
        cbn [p_ctl p_stack p_top];
        rewrite ?stack_weight_cons;
        cbn [frame_weight ctl_weight top_weight length jsize];
        change (list_sum (map jsize [])) with 0%nat;
        change (values_size []) with 0%nat; lia
      | |- push_value _ _ _ = Some _ -> _ =>
        let H := fresh "H" in
        intros H; apply push_value_weight in H;
        rewrite ?jsize_array_rev, ?jsize_object, ?jsize_array_nil in H;
        rewrite ?stack_weight_cons in *;
        cbn [frame_weight ctl_weight top_weight] in *; lia
      | |- (if ?b then _ else _) = Some _ -> _ => destruct b
      | |- match ?x with _ => _ end = Some _ -> _ => destruct x
      end ].

Lemma step_token_weight (k : ctl) (stack : list frame) (top : option JSON)
    (c : N) (s' : pstate) :
  step_token k stack top c = Some s' ->
  (state_weight s' <= S (ctl_weight k + stack_weight stack + top_weight top))%nat.
Proof.
  unfold step_token. cbv zeta.
  destruct (json_ws c).
  - intros [= <-]. unfold state_weight. simpl. lia.
  - destruct k; weigh_step.
Qed.

Lemma finish_string_weight (key : bool) (acc : list N) (stack : list frame)
    (top : option JSON) (s' : pstate) :
  finish_string key acc stack top = Some s' ->
  (state_weight s' <= S (length acc) + stack_weight stack + top_weight top)%nat.
Proof.
  unfold finish_string. destruct key.
  - destruct stack as [|[done|props|props k] st]; try discriminate.
    intros [= <-]. unfold state_weight. cbn [p_ctl p_stack p_top].
    rewrite !stack_weight_cons. cbn [frame_weight ctl_weight]. lia.
  - intros H. apply push_value_weight in H.
    cbn [jsize] in H. rewrite length_rev in H. lia.
Qed.

Lemma step_weight (s s' : pstate) (c : N) :
  step s c = Some s' -> (state_weight s' <= S (state_weight s))%nat.
Proof.
  destruct s as [k stack top]. unfold step. cbn [p_ctl p_stack p_top].
  change (state_weight (PState k stack top))
    with (ctl_weight k + stack_weight stack + top_weight top)%nat.
  destruct k;
    try (intros H; apply step_token_weight in H; exact H).
  - destruct (c =? 34).
    + intros H. apply finish_string_weight in H. cbn [ctl_weight]. lia.
    + weigh_step.
  - weigh_step.
  - weigh_step.
  - destruct rest as [|r [|r' rest]]; [discriminate| |].
    + destruct (c =? r); [|discriminate].
      intros H. apply push_value_weight in H. cbn [ctl_weight]. lia.
    + weigh_step.
  - destruct (step_number st a c) as [[st' a']|].
    + weigh_step.
    + destruct (num_accepting st); [|discriminate].
      destruct (push_value (finish_number a) stack top) as [s1|] eqn:Hp;
        [|discriminate].
      apply push_value_weight in Hp. intros H.
      apply step_token_weight in H. unfold state_weight in Hp.
      unfold finish_number in Hp. cbn [jsize ctl_weight] in *. lia.
Qed.

Lemma run_weight (text : jsstring) :
  forall s s', run s text = Some s' ->
               (state_weight s' <= state_weight s + length text)%nat.
Proof.
  induction text as [|c text IH]; intros s s'; simpl.
  - intros [= <-]. lia.
  - destruct (step s c) as [s1|] eqn:Hs; [|discriminate].
    intros H. apply IH in H. apply step_weight in Hs. lia.
Qed.

(** A parsed value is no larger than the text it was read from. *)
Lemma JSON_parse_size (text : jsstring) (v : JSON) :
  JSON_parse text = Some v -> (jsize v <= length text)%nat.
Proof.
  unfold JSON_parse. destruct (run (PState CValue [] None) text) as [s|] eqn:Hr;
    [|discriminate].
  apply run_weight in Hr. unfold state_weight in Hr. simpl in Hr.
  destruct s as [k stack top]. unfold finish. simpl in *.
  destruct k; try discriminate; destruct stack; try discriminate.
  - intros ->. simpl in Hr. lia.
  - destruct (num_accepting st); [|discriminate].
    intros [= <-]. simpl in *. lia.
Qed.

Lemma jsize_pos (v : JSON) : (1 <= jsize v)%nat.
Proof. destruct v; simpl; lia. Qed.

Lemma assoc_size (key : jsstring) (props : list (jsstring * JSON)) (v : JSON) :
  assoc key props = Some v -> (jsize v <= values_size props)%nat.
Proof.
  unfold values_size. induction props as [|[k' v'] rest IH]; simpl; [discriminate|].
  destruct (str_eqb key k').
  - intros [= <-]. lia.
  - intros H. apply IH in H. lia.
Qed.

Section Normalize.
Variables (toLowerCase normalizeNFD : jsstring -> jsstring).
Variable formPages : list FormPage.

Local Abbreviation normalize := (normalize_fuel toLowerCase normalizeNFD formPages).
Local Abbreviation normalizeEntries :=
  (normalizePrefillEntries toLowerCase normalizeNFD formPages).
Local Abbreviation reentries := (reentries_fuel toLowerCase normalizeNFD formPages).
Local Abbreviation stringReentries :=
  (string_reentries toLowerCase normalizeNFD formPages).

Lemma first_nested_total self (props : list (jsstring * JSON)) direct keys :
  (forall key v, assoc key props = Some v -> exists r, self v = Some r) ->
  exists r, first_nested self props direct keys = Some r.
Proof.
  intros Hself. induction keys as [|key rest IH]; simpl; [eauto|].
  destruct (assoc key props) as [v|] eqn:Ha; [|exact IH].
  destruct (Hself key v Ha) as [r Hr]. rewrite Hr.
  destruct r as [[|e nested]|]; eauto.
Qed.

Lemma first_nested_ext self1 self2 (props : list (jsstring * JSON)) direct keys :
  (forall key v, assoc key props = Some v -> self1 v = self2 v) ->
  first_nested self1 props direct keys = first_nested self2 props direct keys.
Proof.
  intros Hself. induction keys as [|key rest IH]; simpl; [reflexivity|].
  destruct (assoc key props) as [v|] eqn:Ha; [|exact IH].
  rewrite (Hself key v Ha), IH. reflexivity.
Qed.

(** With fuel for its measure the routine always returns. *)
Lemma normalize_fuel_enough (fuel : nat) :
  forall input, (jsize input <= fuel)%nat -> exists r, normalize fuel input = Some r.
Proof.
  induction fuel as [|fuel IH]; intros input Hsize.
  - pose proof (jsize_pos input). lia.
  - cbn [normalize_fuel]. destruct (negb (truthy (Some input))); [eauto|].
    destruct input as [|b|x|s|l|props]; eauto.
    + destruct (JSON_parse s) as [parsed|] eqn:Hp; [|eauto].
      apply IH. apply JSON_parse_size in Hp. simpl in Hsize. lia.
    + apply first_nested_total. intros key v Ha. apply IH.
      apply assoc_size in Ha. rewrite jsize_object in Hsize. lia.
Qed.

(** Beyond the measure, more fuel changes nothing. *)
Lemma normalize_fuel_stable (fuel1 : nat) :
  forall fuel2 input,
    (jsize input <= fuel1)%nat -> (jsize input <= fuel2)%nat ->
    normalize fuel1 input = normalize fuel2 input.
Proof.
  induction fuel1 as [|fuel1 IH]; intros fuel2 input H1 H2.
  - pose proof (jsize_pos input). lia.
  - destruct fuel2 as [|fuel2]; [pose proof (jsize_pos input); lia|].
    cbn [normalize_fuel]. destruct (negb (truthy (Some input))); [reflexivity|].
    destruct input as [|b|x|s|l|props]; try reflexivity.
    + destruct (JSON_parse s) as [parsed|] eqn:Hp; [|reflexivity].
      apply JSON_parse_size in Hp. simpl in H1, H2. apply IH; lia.
    + apply first_nested_ext. intros key v Ha.
      apply assoc_size in Ha. rewrite jsize_object in H1, H2. apply IH; lia.
Qed.

Lemma normalize_fuel_result (fuel : nat) (input : JSON) :
  (jsize input <= fuel)%nat -> normalize fuel input = Some (normalizeEntries input).
Proof.
  intros H. unfold normalizePrefillEntries.
  rewrite (normalize_fuel_stable fuel (jsize input) input H (Nat.le_refl _)).
  destruct (normalize_fuel_enough (jsize input) input (Nat.le_refl _)) as [r Hr].
  rewrite Hr. reflexivity.
Qed.

Lemma nested_reentries_ext self1 self2 count1 count2
    (props : list (jsstring * JSON)) keys :
  (forall key v, assoc key props = Some v ->
                 self1 v = self2 v /\ count1 v = count2 v) ->
  nested_reentries self1 count1 props keys = nested_reentries self2 count2 props keys.
Proof.
  intros Hself. induction keys as [|key rest IH]; simpl; [reflexivity|].
  destruct (assoc key props) as [v|] eqn:Ha; [|exact IH].
  destruct (Hself key v Ha) as [-> ->]. rewrite IH. reflexivity.
Qed.

Lemma reentries_fuel_stable (fuel1 : nat) :
  forall fuel2 input,
    (jsize input <= fuel1)%nat -> (jsize input <= fuel2)%nat ->
    reentries fuel1 input = reentries fuel2 input.
Proof.
  induction fuel1 as [|fuel1 IH]; intros fuel2 input H1 H2.
  - pose proof (jsize_pos input). lia.
  - destruct fuel2 as [|fuel2]; [pose proof (jsize_pos input); lia|].
    cbn [reentries_fuel]. destruct (negb (truthy (Some input))); [reflexivity|].
    destruct input as [|b|x|s|l|props]; try reflexivity.
    + destruct (JSON_parse s) as [parsed|] eqn:Hp; [|reflexivity].
      apply JSON_parse_size in Hp. simpl in H1, H2. f_equal. apply IH; lia.
    + apply nested_reentries_ext. intros key v Ha.
      apply assoc_size in Ha. rewrite jsize_object in H1, H2.
      split; [apply normalize_fuel_stable; lia|apply IH; lia].
Qed.

(** C8, amended. In the open-field-map normalization a string input is
    parsed as JSON and the parsed value is resubmitted to the same routine.
    There is no cap on these re-entries: a parsed value that is again a
    string is parsed and resubmitted in turn, each level of string
    encoding adding one re-entry.  The routine still terminates on every
    input, because each value it calls itself on (a nested value, or the
    parse of a string) is strictly smaller than its input. *)
Theorem normalizePrefillEntries_terminates :
  (forall input, exists r, normalize (jsize input) input = Some r)
  /\ (forall fuel input,
        (jsize input <= fuel)%nat ->
        normalize fuel input = Some (normalizeEntries input))
  /\ (forall s parsed,
        JSON_parse s = Some parsed -> (jsize parsed < jsize (JStr s))%nat)
  /\ (forall key props v,
        assoc key props = Some v -> (jsize v < jsize (JObj props))%nat)
  /\ (forall s,
        normalizeEntries (JStr s)
        = match JSON_parse s with
          | Some parsed => normalizeEntries parsed
          | None => None
          end)
  /\ (forall s parsed,
        JSON_parse s = Some parsed ->
        stringReentries (JStr s) = S (stringReentries parsed)).
Proof.
  split; [|split; [|split; [|split; [|split]]]].
  - intros input. apply normalize_fuel_enough. lia.
  - apply normalize_fuel_result.
  - intros s parsed Hp. apply JSON_parse_size in Hp. simpl. lia.
  - intros key props v Ha. apply assoc_size in Ha. rewrite jsize_object. lia.
  - intros s. unfold normalizePrefillEntries at 1.
    cbn [jsize normalize_fuel truthy].
    destruct s as [|c s]; [reflexivity|]. cbn [nonempty negb].
    destruct (JSON_parse (c :: s)) as [parsed|] eqn:Hp; [|reflexivity].
    apply JSON_parse_size in Hp. rewrite normalize_fuel_result by exact Hp.
    reflexivity.
  - intros s parsed Hp. unfold string_reentries at 1.
    cbn [jsize reentries_fuel truthy].
    destruct s as [|c s]; [discriminate|]. cbn [nonempty negb]. rewrite Hp.
    apply JSON_parse_size in Hp. f_equal.
    apply reentries_fuel_stable; [exact Hp|lia].
Qed.

End Normalize.

(** One more level of string encoding, one more re-entry. *)
Lemma normalizePrefillEntries_terminates_witness :
  string_reentries Sample.lower Sample.nfd Sample.pages (JStr encoded_twice)
  = S (string_reentries Sample.lower Sample.nfd Sample.pages (JStr encoded_once)).
Proof.
  apply (proj2 (proj2 (proj2 (proj2 (proj2
           (normalizePrefillEntries_terminates Sample.lower Sample.nfd
              Sample.pages)))))).
  vm_compute. reflexivity.
Defined.

(** C8, as stated, fails on the code: a candidate map encoded as a JSON
    string inside a JSON string goes through two re-entries, and through
    three when encoded once more, and each time the routine returns the
    entries of the innermost object instead of giving up after the
    first. *)
Lemma normalize_reenters_more_than_once :
  JSON_parse encoded_once = Some (JStr (jq "{'step-0-estado':'Idea'}"))
  /\ string_reentries Sample.lower Sample.nfd Sample.pages (JStr encoded_once) = 2%nat
  /\ normalizePrefillEntries Sample.lower Sample.nfd Sample.pages (JStr encoded_once)
     = Some [ {| pe_fieldId := js "step-0-estado"; pe_value := js "Idea" |} ]
  /\ JSON_parse encoded_twice = Some (JStr encoded_once)
  /\ string_reentries Sample.lower Sample.nfd Sample.pages (JStr encoded_twice) = 3%nat
  /\ normalizePrefillEntries Sample.lower Sample.nfd Sample.pages (JStr encoded_twice)
     = Some [ {| pe_fieldId := js "step-0-estado"; pe_value := js "Idea" |} ]
  /\ ~ (forall input,
          (string_reentries Sample.lower Sample.nfd Sample.pages input <= 1)%nat).
Proof.
  assert (H2 : string_reentries Sample.lower Sample.nfd Sample.pages
                 (JStr encoded_once) = 2%nat) by (vm_compute; reflexivity).
  split; [vm_compute; reflexivity|]. split; [exact H2|].
  split; [vm_compute; reflexivity|]. split; [vm_compute; reflexivity|].
  split; [vm_compute; reflexivity|]. split; [vm_compute; reflexivity|].
  intros H. specialize (H (JStr encoded_once)). rewrite H2 in H. lia.
Qed.

(** ** [JSON.parse] gives every object each key once *)

Lemma all_wf_app (a b : list JSON) : all_wf (a ++ b) <-> all_wf a /\ all_wf b.
Proof.
  unfold all_wf. induction a as [|x a IH]; simpl; [tauto|]. rewrite IH. tauto.
Qed.

Lemma all_wf_rev (l : list JSON) : all_wf l -> all_wf (rev l).
Proof.
  induction l as [|x l IH]; simpl; [auto|].
  intros [Hx Hl]. apply all_wf_app. split; [apply IH, Hl|].
  unfold all_wf. simpl. auto.
Qed.

Lemma assoc_None_keys (k : jsstring) (props : list (jsstring * JSON)) :
  assoc k props = None -> k ∉ map fst props.
Proof.
  induction props as [|[k' v'] rest IH]; simpl.
  - intros _ H. inversion H.
  - destruct (str_eqb k k') eqn:E; [discriminate|].
    apply str_eqb_neq in E. intros H Hin.
    apply elem_of_cons in Hin. destruct Hin as [Hin|Hin]; [congruence|].
    exact (IH H Hin).
Qed.

Lemma obj_replace_wf (k : jsstring) (v : JSON) (props : list (jsstring * JSON)) :
  json_wf v -> props_wf props -> props_wf (obj_replace k v props).
Proof.
  intros Hv. unfold props_wf, values_wf.
  induction props as [|[k' v'] rest IH]; simpl; [auto|].
  intros [Hnd [Hv' Hrest]]. apply NoDup_cons in Hnd. destruct Hnd as [Hk' Hnd].
  destruct (str_eqb k k'); simpl.
  - split; [apply NoDup_cons; auto|auto].
  - destruct (IH (conj Hnd Hrest)) as [Hnd' Hrest'].
    split; [|auto]. apply NoDup_cons. split; [|exact Hnd'].
    assert (Hkeys : map fst (obj_replace k v rest) = map fst rest).
    { clear. induction rest as [|[k2 v2] rest IH]; simpl; [reflexivity|].
      destruct (str_eqb k k2); simpl; [reflexivity|]. rewrite IH. reflexivity. }
    rewrite Hkeys. exact Hk'.
Qed.

Lemma obj_insert_index_keys (i : N) (k : jsstring) (v : JSON)
    (props : list (jsstring * JSON)) (x : jsstring) :
  x ∈ map fst (obj_insert_index i k v props) <-> x = k \/ x ∈ map fst props.
Proof.
  induction props as [|[k' v'] rest IH]; simpl.
  - rewrite elem_of_cons. tauto.
  - destruct (array_index k') as [j|]; [destruct (j <? i)|]; simpl;
      rewrite ?elem_of_cons, ?IH; simpl; rewrite ?elem_of_cons; tauto.
Qed.

Lemma obj_insert_index_wf (i : N) (k : jsstring) (v : JSON)
    (props : list (jsstring * JSON)) :
  json_wf v -> k ∉ map fst props -> props_wf props ->
  props_wf (obj_insert_index i k v props).
Proof.
  intros Hv. unfold props_wf, values_wf.
  induction props as [|[k' v'] rest IH]; simpl.
  - intros _ _. split; [apply NoDup_singleton|auto].
  - intros Hk [Hnd [Hv' Hrest]].
    pose proof Hnd as Hnd0. apply NoDup_cons in Hnd. destruct Hnd as [Hk' Hnd].
    assert (Hfresh : props_wf ((k, v) :: (k', v') :: rest)).
    { split; [simpl; apply NoDup_cons; auto|unfold values_wf; simpl; auto]. }
    destruct (array_index k') as [j|]; [destruct (j <? i)|]; try exact Hfresh.
    simpl. assert (Hk2 : k ∉ map fst rest).
    { intros Hin. apply Hk. apply elem_of_cons. auto. }
    destruct (IH Hk2 (conj Hnd Hrest)) as [Hnd' Hrest'].
    split; [|auto]. apply NoDup_cons. split; [|exact Hnd'].
    rewrite obj_insert_index_keys. intros [->|Hin]; [|contradiction].
    apply Hk. apply elem_of_cons. auto.
Qed.

Lemma obj_define_wf (props : list (jsstring * JSON)) (k : jsstring) (v : JSON) :
  json_wf v -> props_wf props -> props_wf (obj_define props k v).
Proof.
  intros Hv Hp. unfold obj_define.
  destruct (assoc k props) eqn:Ha; [apply obj_replace_wf; assumption|].
  apply assoc_None_keys in Ha.
  destruct (array_index k); [apply obj_insert_index_wf; assumption|].
  destruct Hp as [Hnd Hvals]. unfold props_wf, values_wf.
  rewrite !map_app, NoDup_app. simpl. split; [split; [exact Hnd|split]|].
  - intros x Hx Hin. apply elem_of_cons in Hin.
    destruct Hin as [->|Hin]; [contradiction|inversion Hin].
  - apply NoDup_singleton.
  - clear -Hv Hvals. unfold values_wf in Hvals.
    induction props as [|p rest IH]; simpl in *; [auto|].
    destruct Hvals as [Hp Hrest]. auto.
Qed.

Lemma push_value_wf (v : JSON) (stack : list frame) (top : option JSON)
    (s' : pstate) :
  json_wf v -> stack_wf stack ->
  match top with Some t => json_wf t | None => True end ->
  push_value v stack top = Some s' -> state_wf s'.
Proof.
  intros Hv Hs Ht. unfold push_value.
  destruct stack as [|[done|props|props key] st]; try discriminate;
    intros [= <-]; unfold state_wf, stack_wf in *; cbn in Hs |- *.
  - auto.
  - destruct Hs as [Hd Hst]. repeat split; auto.
  - destruct Hs as [Hp Hst]. repeat split; auto; apply obj_define_wf; auto.
Qed.

Ltac wf_finish :=
  unfold state_wf, stack_wf in *;
  cbn [p_ctl p_stack p_top map fold_right foldr frame_wf] in *;
  unfold props_wf, values_wf, all_wf in *;
  cbn [map fold_right foldr fst snd json_wf] in *;
  repeat match goal with H : _ /\ _ |- _ => destruct H end;
  repeat split; auto using NoDup_nil_2;
  try (apply all_wf_rev; assumption).

Ltac wf_step :=
  repeat first
    [ discriminate
    | match goal with
      | |- Some _ = Some _ -> _ => intros [= <-]; wf_finish
      | |- push_value _ _ _ = Some _ -> _ => apply push_value_wf; wf_finish
      | |- (if ?b then _ else _) = Some _ -> _ => destruct b
      | |- match ?x with _ => _ end = Some _ -> _ => destruct x
      end ].

Lemma step_token_wf (k : ctl) (stack : list frame) (top : option JSON)
    (c : N) (s' : pstate) :
  match k with CLit _ v => json_wf v | _ => True end ->
  stack_wf stack ->
  match top with Some t => json_wf t | None => True end ->
  step_token k stack top c = Some s' -> state_wf s'.
Proof.
  intros Hk Hs Ht. unfold step_token. cbv zeta.
  destruct (json_ws c).
  - intros [= <-]. unfold state_wf. cbn. auto.
  - destruct k; wf_step.
Qed.

Lemma finish_string_wf (key : bool) (acc : list N) (stack : list frame)
    (top : option JSON) (s' : pstate) :
  stack_wf stack ->
  match top with Some t => json_wf t | None => True end ->
  finish_string key acc stack top = Some s' -> state_wf s'.
Proof.
  intros Hs Ht. unfold finish_string. destruct key; wf_step.
Qed.

Lemma step_wf (s s' : pstate) (c : N) :
  state_wf s -> step s c = Some s' -> state_wf s'.
Proof.
  destruct s as [k stack top]. intros (Hk & Hs & Ht).
  cbn [p_ctl p_stack p_top] in *. unfold step. cbn [p_ctl p_stack p_top].
  destruct k;
    try (apply step_token_wf; assumption).
  - destruct (c =? 34); [apply finish_string_wf; assumption|]. wf_step.
  - wf_step.
  - wf_step.
  - destruct rest as [|r [|r' rest]]; [discriminate| |]; wf_step.
  - destruct (step_number st a c) as [[st' a']|]; [wf_step|].
    destruct (num_accepting st); [|discriminate].
    destruct (push_value (finish_number a) stack top) as [s1|] eqn:Hp;
      [|discriminate].
    apply push_value_wf in Hp; [|exact I|assumption|assumption].
    destruct s1 as [k1 stack1 top1]. destruct Hp as (Hk1 & Hs1 & Ht1).
    cbn [p_ctl p_stack p_top] in *. apply step_token_wf; assumption.
Qed.

Lemma run_wf (text : jsstring) :
  forall s s', state_wf s -> run s text = Some s' -> state_wf s'.
Proof.
  induction text as [|c text IH]; intros s s' Hwf; simpl.
  - intros [= <-]. exact Hwf.
  - destruct (step s c) as [s1|] eqn:Hs; [|discriminate].
    apply IH. eapply step_wf; eassumption.
Qed.

(** Every object in a parsed value lists each of its keys once. *)
Lemma JSON_parse_wf (text : jsstring) (v : JSON) :
  JSON_parse text = Some v -> json_wf v.
Proof.
  unfold JSON_parse. destruct (run (PState CValue [] None) text) as [s|] eqn:Hr;
    [|discriminate].
  apply run_wf in Hr; [|repeat split].
  destruct s as [k stack top]. destruct Hr as (Hk & Hs & Ht).
  unfold finish. cbn [p_ctl p_stack p_top] in *.
  destruct k; try discriminate; destruct stack; try discriminate.
  - intros ->. exact Ht.
  - destruct (num_accepting st); [|discriminate]. intros [= <-]. exact I.
Qed.

Lemma json_wf_assoc (k : jsstring) (props : list (jsstring * JSON)) (v : JSON) :
  json_wf (JObj props) -> assoc k props = Some v -> json_wf v.
Proof.
  intros [_ Hvals]. induction props as [|[k' v'] rest IH]; simpl; [discriminate|].
  cbn in Hvals. destruct Hvals as [Hv' Hrest].
  destruct (str_eqb k k'); [intros [= <-]; exact Hv'|apply IH, Hrest].
Qed.

(** *** The index keys of arrays and strings are distinct *)

Lemma pos_digits_fuel_value (fuel : nat) :
  forall n acc,
    n < 2 ^ N.of_nat fuel ->
    fold_left (fun a c => 10 * a + (c - 48)) (pos_digits_fuel fuel n acc) 0
    = fold_left (fun a c => 10 * a + (c - 48)) acc n.
Proof.
  induction fuel as [|fuel IH]; intros n acc Hn.
  - simpl in *. assert (n = 0) as -> by lia. reflexivity.
  - cbn [pos_digits_fuel].
    assert (Hpow : 2 ^ N.of_nat (S fuel) = 2 * 2 ^ N.of_nat fuel).
    { rewrite Nat2N.inj_succ, N.pow_succ_r'. reflexivity. }
    rewrite Hpow in Hn.
    pose proof (N.div_mod n 10 ltac:(lia)) as Hdm.
    pose proof (N.mod_lt n 10 ltac:(lia)) as Hmod.
    destruct (N.eqb_spec (n / 10) 0) as [Hz|Hnz].
    + cbn [fold_left]. unfold digit_char. f_equal.
      rewrite Hz in Hdm. rewrite (N.add_comm 48), N.add_sub. simpl in *.
      symmetry. exact Hdm.
    + rewrite IH.
      * cbn [fold_left]. unfold digit_char. f_equal.
        rewrite (N.add_comm 48), N.add_sub. symmetry. exact Hdm.
      * apply N.Div0.div_lt_upper_bound.
        generalize dependent (2 ^ N.of_nat fuel). intros p _ Hn. lia.
Qed.

Lemma N_to_string_value (n : N) : digits_number (N_to_string n) = n.
Proof.
  unfold digits_number, N_to_string. rewrite pos_digits_fuel_value; [reflexivity|].
  rewrite Nat2N.inj_succ, N2Nat.id.
  destruct (N.eq_dec n 0) as [->|Hn]; [reflexivity|].
  apply N.log2_spec. lia.
Qed.

Lemma nat_to_string_inj (a b : nat) : nat_to_string a = nat_to_string b -> a = b.
Proof.
  unfold nat_to_string. intros H.
  apply (f_equal digits_number) in H. rewrite !N_to_string_value in H. lia.
Qed.

Lemma indexed_keys {A} (l : list A) :
  forall i k, k ∈ map fst (indexed i l) ->
              exists j, (i <= j)%nat /\ k = nat_to_string j.
Proof.
  induction l as [|x l IH]; intros i k; simpl.
  - intros H. inversion H.
  - rewrite elem_of_cons. intros [->|H].
    + exists i. auto.
    + destruct (IH _ _ H) as (j & Hj & ->). exists j. split; [lia|reflexivity].
Qed.

Lemma indexed_NoDup {A} (l : list A) : forall i, NoDup (map fst (indexed i l)).
Proof.
  induction l as [|x l IH]; intros i; simpl; [apply NoDup_nil_2|].
  apply NoDup_cons. split; [|apply IH].
  intros H. apply indexed_keys in H. destruct H as (j & Hj & Heq).
  apply nat_to_string_inj in Heq. lia.
Qed.

(** [Object.entries] of a parsed value never repeats a key. *)
Lemma Object_entries_NoDup (a : JSON) :
  json_wf a -> NoDup (map fst (Object_entries a)).
Proof.
  destruct a as [|b|x|s|l|props]; simpl; try (intros _; apply NoDup_nil_2).
  - intros _. apply indexed_NoDup.
  - intros _. apply indexed_NoDup.
  - intros [H _]. exact H.
Qed.

(** ** Import *)

Lemma num_compare_refl (x : number) : num_compare x x = Eq.
Proof.
  destruct x as [neg|neg|neg m e]; simpl.
  - reflexivity.
  - destruct neg; reflexivity.
  - destruct neg; unfold mag_compare; apply Z.compare_refl.
Qed.

(** [round_ratio false] never yields a negative number or [-0]. *)
Lemma round_ratio_nonneg (P Q : Z) :
  match round_ratio false P Q with
  | NZero neg | NInf neg | NFin neg _ _ => neg = false
  end.
Proof.
  unfold round_ratio.
  repeat match goal with
         | |- context [if ?b then _ else _] => destruct b
         | |- context [let '(_, _) := ?p in _] => destruct p
         end; reflexivity.
Qed.

Lemma Math_min_cases (x y : number) : Math_min x y = x \/ Math_min x y = y.
Proof.
  unfold Math_min. destruct (num_compare x y); auto.
  destruct x as [[|]| |]; auto.
Qed.

Lemma Math_max_cases (x y : number) : Math_max x y = x \/ Math_max x y = y.
Proof.
  unfold Math_max. destruct (num_compare x y); auto.
  destruct x as [[|]| |]; auto.
Qed.

Lemma Math_min_le_r (x y : number) : num_le (Math_min x y) y.
Proof.
  unfold num_le, Math_min. destruct (num_compare x y) eqn:E.
  - destruct x as [[|]| |]; rewrite ?E, ?num_compare_refl; discriminate.
  - rewrite E. discriminate.
  - rewrite num_compare_refl. discriminate.
Qed.

Lemma Math_max_ge_l (x y : number) : num_le x (Math_max x y).
Proof.
  unfold num_le, Math_max. destruct (num_compare x y) eqn:E.
  - destruct x as [[|]| |]; rewrite ?E, ?num_compare_refl; discriminate.
  - rewrite E. discriminate.
  - rewrite num_compare_refl. discriminate.
Qed.

Section ImportFile.
Variable formPages : list FormPage.

Local Abbreviation hi := (summaryStepIndex formPages).
Local Abbreviation clamp := (clamp_step formPages).

Lemma summaryStepIndex_nonneg : num_le (NZero false) hi.
Proof.
  unfold num_le, summaryStepIndex, number_of_nat.
  pose proof (round_ratio_nonneg (Z.of_nat (length formPages)) 1) as H.
  destruct (round_ratio false (Z.of_nat (length formPages)) 1); subst; discriminate.
Qed.

(** The clamped step lies between the first step and the summary step. *)
Lemma clamp_step_range (x : number) :
  num_le (NZero false) (clamp x) /\ num_le (clamp x) hi.
Proof.
  unfold clamp_step. split; [apply Math_max_ge_l|].
  destruct (Math_max_cases (NZero false) (Math_min x hi)) as [H|H]; rewrite H.
  - apply summaryStepIndex_nonneg.
  - apply Math_min_le_r.
Qed.

Lemma clamp_step_zero : clamp (NZero false) = NZero false.
Proof.
  unfold clamp_step, Math_min, summaryStepIndex, number_of_nat.
  pose proof (round_ratio_nonneg (Z.of_nat (length formPages)) 1) as H.
  destruct (round_ratio false (Z.of_nat (length formPages)) 1); subst; reflexivity.
Qed.

Lemma clamp_step_hi : clamp hi = hi.
Proof.
  unfold clamp_step, Math_min. rewrite num_compare_refl.
  pose proof summaryStepIndex_nonneg as Hle. unfold num_le in Hle.
  pose proof (round_ratio_nonneg (Z.of_nat (length formPages)) 1) as H.
  unfold summaryStepIndex, number_of_nat in *.
  destruct (round_ratio false (Z.of_nat (length formPages)) 1) as [neg|neg|neg m e];
    subst; reflexivity.
Qed.

(** [goToStep] clamps the already clamped step again, to no effect. *)
Lemma clamp_step_idempotent (x : number) : clamp (clamp x) = clamp x.
Proof.
  assert (H : clamp x = NZero false \/ clamp x = hi \/ clamp x = x).
  { unfold clamp_step.
    destruct (Math_max_cases (NZero false) (Math_min x hi)) as [H|H]; rewrite H;
      [auto|].
    destruct (Math_min_cases x hi) as [H'|H']; rewrite H'; auto. }
  destruct H as [H|[H|H]]; rewrite H.
  - apply clamp_step_zero.
  - apply clamp_step_hi.
  - exact H.
Qed.

Lemma fold_keep_string (entries : list (jsstring * JSON)) :
  forall (acc : AnswerMap) (k : jsstring),
    k <> js "__proto__" ->
    fold_left keep_string entries acc !! k
    = match last_string_entry k entries with
      | Some s => Some s
      | None => acc !! k
      end.
Proof.
  induction entries as [|[k' v] rest IH]; intros acc k Hk; simpl; [reflexivity|].
  rewrite IH by exact Hk.
  destruct (last_string_entry k rest); [reflexivity|].
  unfold keep_string. simpl.
  destruct v; try reflexivity.
  unfold obj_assign.
  destruct (str_eqb k' (js "__proto__")) eqn:Hp.
  - apply str_eqb_eq in Hp. subst k'.
    destruct (str_eqb (js "__proto__") k) eqn:E; [|reflexivity].
    apply str_eqb_eq in E. congruence.
  - destruct (str_eqb k' k) eqn:E.
    + apply str_eqb_eq in E. subst k'. apply lookup_insert_eq.
    + apply str_eqb_neq in E. apply lookup_insert_ne. exact E.
Qed.

(** Nothing an import reads can create the key ["__proto__"]. *)
Lemma fold_keep_string_proto (entries : list (jsstring * JSON)) :
  forall acc : AnswerMap,
    fold_left keep_string entries acc !! js "__proto__" = acc !! js "__proto__".
Proof.
  induction entries as [|[k' v] rest IH]; intros acc; simpl; [reflexivity|].
  rewrite IH. unfold keep_string. simpl. destruct v; try reflexivity.
  unfold obj_assign. destruct (str_eqb k' (js "__proto__")) eqn:Hp; [reflexivity|].
  apply str_eqb_neq in Hp. apply lookup_insert_ne. exact Hp.
Qed.

Lemma last_string_entry_In (k s : jsstring) (entries : list (jsstring * JSON)) :
  last_string_entry k entries = Some s -> In (k, JStr s) entries.
Proof.
  induction entries as [|[k' v] rest IH]; simpl; [discriminate|].
  destruct (last_string_entry k rest) as [s'|].
  - intros [= <-]. right. apply IH. reflexivity.
  - destruct v; try discriminate.
    destruct (str_eqb k' k) eqn:E; [|discriminate].
    apply str_eqb_eq in E. subst k'. intros [= <-]. left. reflexivity.
Qed.

Lemma last_string_entry_unique (k s : jsstring) (entries : list (jsstring * JSON)) :
  NoDup (map fst entries) ->
  In (k, JStr s) entries ->
  last_string_entry k entries = Some s.
Proof.
  induction entries as [|[k' v] rest IH]; simpl; intros Hnd Hin; [destruct Hin|].
  inversion Hnd as [|? ? Hnotin Hnd']; subst.
  destruct Hin as [[= -> ->]|Hin].
  - destruct (last_string_entry k rest) as [s'|] eqn:E.
    + apply last_string_entry_In in E. destruct Hnotin.
      apply list_elem_of_In, in_map_iff. exists (k, JStr s'). auto.
    + rewrite (proj2 (str_eqb_eq k k) eq_refl). reflexivity.
  - rewrite (IH Hnd' Hin). reflexivity.
Qed.

(** Import succeeds exactly on an object whose [answers] is truthy. *)
Lemma parseImport_accepts (text : jsstring) :
  (exists r, parseImport formPages text = inr r)
  <-> exists props a,
        JSON_parse text = Some (JObj props)
        /\ assoc (js "answers") props = Some a
        /\ truthy (Some a) = true.
Proof.
  unfold parseImport. destruct (JSON_parse text) as [parsed|].
  - assert (Hrej : forall A (x : AppError) (P : Prop),
               (P -> False) -> (exists r : A, inl x = inr r) <-> P).
    { intros A x P HP. split; [intros [r H]; discriminate|tauto]. }
    destruct parsed as [|b|x|s|l|props].
    + apply Hrej. intros (props' & a & H & _). discriminate.
    + destruct b; apply Hrej; intros (props' & a & H & _); discriminate.
    + cbn [truthy negb orb typeof_object].
      destruct (number_truthy x); apply Hrej;
        intros (props' & a & H & _); discriminate.
    + cbn [truthy negb orb typeof_object].
      destruct (nonempty s); apply Hrej;
        intros (props' & a & H & _); discriminate.
    + apply Hrej. intros (props' & a & H & _). discriminate.
    + cbn [truthy negb orb typeof_object get].
      destruct (assoc (js "answers") props) as [a|] eqn:Ha.
      * destruct (truthy (Some a)) eqn:Ht; cbn [negb].
        -- split; [|eauto]. intros _. exists props, a. auto.
        -- apply Hrej. intros (props' & a' & [= <-] & Ha' & Ht').
           rewrite Ha in Ha'. injection Ha' as <-.
           change (truthy (Some a) = true) in Ht'. congruence.
      * apply Hrej. intros (props' & a' & [= <-] & Ha' & _). congruence.
  - split; [intros [r H]; discriminate|].
    intros (props' & a & H & _). discriminate.
Qed.

(** C9, amended. Import accepts exactly the payloads that parse to an
    object whose [answers] property is truthy (present and not null,
    false, zero or the empty string) and fails otherwise; of the entries
    of [answers] it drops every one whose value is not a string and keeps
    every string-valued one whose key is not ["__proto__"]; the current
    step becomes the imported [currentStep] clamped between the first step
    and the summary step when it is a number, and the first step
    otherwise. *)
Theorem parseImport_spec (text : jsstring) :
  ((exists r, parseImport formPages text = inr r)
   <-> exists props a,
         JSON_parse text = Some (JObj props)
         /\ assoc (js "answers") props = Some a
         /\ truthy (Some a) = true)
  /\ (forall sanitized step,
        parseImport formPages text = inr (sanitized, step) ->
        exists props a,
          JSON_parse text = Some (JObj props)
          /\ assoc (js "answers") props = Some a
          /\ (forall k s, sanitized !! k = Some s -> In (k, JStr s) (Object_entries a))
          /\ (forall k, k <> js "__proto__" ->
                sanitized !! k = last_string_entry k (Object_entries a))
          /\ (forall k s, k <> js "__proto__" ->
                In (k, JStr s) (Object_entries a) ->
                sanitized !! k = Some s)
          /\ step = match assoc (js "currentStep") props with
                    | Some (JNum n) => clamp n
                    | _ => NZero false
                    end
          /\ num_le (NZero false) step /\ num_le step hi)
  /\ (forall st,
        match parseImport formPages text with
        | inr (sanitized, step) =>
          answers (handleFiles_text formPages st text) = sanitized
          /\ currentStep (handleFiles_text formPages st text) = step
        | inl e =>
          answers (handleFiles_text formPages st text) = answers st
          /\ currentStep (handleFiles_text formPages st text) = currentStep st
        end).
Proof.
  split; [apply parseImport_accepts|]. split.
  - intros sanitized step Himp.
    destruct (proj1 (parseImport_accepts text) (ex_intro _ _ Himp))
      as (props & a & Hp & Ha & Ht).
    exists props, a. split; [exact Hp|]. split; [exact Ha|].
    unfold parseImport in Himp. rewrite Hp in Himp.
    cbn [truthy negb orb typeof_object get] in Himp.
    rewrite Ha in Himp. change (truthy (Some a)) with (truthy (Some a)) in Himp.
    rewrite Ht in Himp. cbn [negb] in Himp.
    injection Himp as <- <-.
    assert (Hexact : forall k, k <> js "__proto__" ->
              fold_left keep_string (Object_entries a) ∅ !! k
              = last_string_entry k (Object_entries a)).
    { intros k Hk. rewrite fold_keep_string by exact Hk.
      destruct (last_string_entry k (Object_entries a)); [reflexivity|].
      apply lookup_empty. }
    split; [|split; [exact Hexact|split; [|split; [reflexivity|]]]].
    + intros k s Hk.
      destruct (decide (k = js "__proto__")) as [->|Hne].
      * rewrite fold_keep_string_proto, lookup_empty in Hk. discriminate.
      * rewrite Hexact in Hk by exact Hne. apply last_string_entry_In. exact Hk.
    + intros k s Hk Hin. rewrite Hexact by exact Hk.
      apply last_string_entry_unique; [|exact Hin].
      apply Object_entries_NoDup.
      apply (json_wf_assoc (js "answers") props); [|exact Ha].
      apply (JSON_parse_wf text). exact Hp.
    + destruct (assoc (js "currentStep") props) as [[| |n| | |]|];
        try (split; [discriminate|apply summaryStepIndex_nonneg]).
      apply clamp_step_range.
  - intros st. unfold handleFiles_text.
    destruct (parseImport formPages text) as [e|[sanitized step]] eqn:Himp;
      [split; reflexivity|].
    split; [reflexivity|]. simpl.
    unfold parseImport in Himp.
    destruct (JSON_parse text) as [parsed|]; [|discriminate].
    destruct (negb (truthy (Some parsed)) || negb (typeof_object parsed)
              || negb (truthy (get parsed (js "answers")))); [discriminate|].
    injection Himp as _ <-.
    destruct (get parsed (js "currentStep")) as [[| |n| | |]|];
      try apply clamp_step_zero.
    apply clamp_step_idempotent.
Qed.

End ImportFile.

(** The export of the sample form is accepted. *)
Lemma parseImport_spec_witness :
  exists r, parseImport Sample.pages import_text = inr r.
Proof.
  apply (proj2 (proj1 (parseImport_spec Sample.pages import_text))).
  exists [(js "version", JNum (number_of_nat 1));
          (js "currentStep", JNum (number_of_nat 9));
          (js "answers",
           JObj [(js "step-0-estado", JStr (js "Idea"));
                 (js "extra", JStr (js "kept")); (js "n", JNum (number_of_nat 1))])],
         (JObj [(js "step-0-estado", JStr (js "Idea"));
                (js "extra", JStr (js "kept")); (js "n", JNum (number_of_nat 1))]).
  repeat split; vm_compute; reflexivity.
Defined.

(** What the import of that file keeps, and where it lands. *)
Lemma import_text_result :
  parseImport Sample.pages import_text
  = inr (<[js "extra" := js "kept"]> {[ js "step-0-estado" := js "Idea" ]},
         number_of_nat 5).
Proof. vm_compute. reflexivity. Qed.

(** C9, as stated, fails on the code: an object that carries an
    [answers] property is rejected when the value is null, false, zero or
    the empty string. *)
Lemma import_rejects_falsy_answers :
  (JSON_parse (jq "{'answers':null,'currentStep':1}")
     = Some (JObj [(js "answers", JNull);
                   (js "currentStep", JNum (number_of_nat 1))])
   /\ parseImport Sample.pages (jq "{'answers':null,'currentStep':1}")
      = inl ImportNoAnswers)
  /\ (JSON_parse (jq "{'answers':''}") = Some (JObj [(js "answers", JStr [])])
      /\ parseImport Sample.pages (jq "{'answers':''}") = inl ImportNoAnswers)
  /\ parseImport Sample.pages (jq "{'answers':0}") = inl ImportNoAnswers
  /\ parseImport Sample.pages (jq "{'answers':false}") = inl ImportNoAnswers.
Proof. repeat split; vm_compute; reflexivity. Qed.

(** C10 at its failing input: the string-valued entry under the key
    ["__proto__"] is parsed as an own property of [answers] and is not in
    the imported Answer Map, while its neighbour outside the schema is. *)
Lemma import_drops_proto_entry :
  JSON_parse (jq "{'answers':{'__proto__':'x','note':'y'}}")
    = Some (JObj [(js "answers",
                   JObj [(js "__proto__", JStr (js "x")); (js "note", JStr (js "y"))])])
  /\ parseImport Sample.pages (jq "{'answers':{'__proto__':'x','note':'y'}}")
     = inr ({[ js "note" := js "y" ]}, NZero false)
  /\ js "note" ∉ validFieldIdSet Sample.lower Sample.nfd Sample.pages.
Proof.
  split; [vm_compute; reflexivity|]. split; [vm_compute; reflexivity|].
  apply (proj1 (bool_decide_eq_false _)). vm_compute. reflexivity.
Qed.

(** * Further properties of the engine and of the handlers *)

(** ** Trimming *)

Lemma trimStart_split (s : jsstring) :
  exists ws, s = ws ++ trimStart s /\ Forall (fun c => is_space c = true) ws.
Proof.
  induction s as [|c s (ws & Hs & Hws)]; simpl.
  - exists []. split; [reflexivity|constructor].
  - destruct (is_space c) eqn:Hc.
    + exists (c :: ws). split; [simpl; congruence|constructor; assumption].
    + exists []. split; [reflexivity|constructor].
Qed.

Lemma trimStart_head (s : jsstring) (c : N) (rest : jsstring) :
  trimStart s = c :: rest -> is_space c = false.
Proof.
  induction s as [|d s IH]; simpl; [discriminate|].
  destruct (is_space d) eqn:Hd; [exact IH|]. intros [= <- _]. exact Hd.
Qed.

Lemma trimStart_fixed (s : jsstring) :
  (forall c rest, s = c :: rest -> is_space c = false) -> trimStart s = s.
Proof.
  destruct s as [|c s]; simpl; [reflexivity|]. intros H.
  rewrite (H c s eq_refl). reflexivity.
Qed.

Lemma trimStart_idempotent (s : jsstring) : trimStart (trimStart s) = trimStart s.
Proof.
  apply trimStart_fixed. intros c rest H. exact (trimStart_head _ _ _ H).
Qed.

Lemma trimEnd_split (s : jsstring) :
  exists ws, s = trimEnd s ++ ws /\ Forall (fun c => is_space c = true) ws.
Proof.
  unfold trimEnd. destruct (trimStart_split (rev s)) as (ws & Hs & Hws).
  exists (rev ws). split.
  - rewrite <- rev_app_distr, <- Hs, rev_involutive. reflexivity.
  - apply Forall_forall. intros c Hc. apply list_elem_of_In, in_rev in Hc.
    rewrite Forall_forall in Hws. apply Hws, list_elem_of_In. exact Hc.
Qed.

Lemma trim_split (s : jsstring) :
  exists a b, s = a ++ trim s ++ b
              /\ Forall (fun c => is_space c = true) a
              /\ Forall (fun c => is_space c = true) b.
Proof.
  destruct (trimStart_split s) as (a & Ha & Hwa).
  destruct (trimEnd_split (trimStart s)) as (b & Hb & Hwb).
  exists a, b. unfold trim. rewrite <- Hb. auto.
Qed.

(** A trimmed string starts and ends with a code unit that is not
    whitespace. *)
Lemma trim_edges (s : jsstring) :
  (forall c rest, trim s = c :: rest -> is_space c = false)
  /\ (forall front c, trim s = front ++ [c] -> is_space c = false).
Proof.
  split.
  - intros c rest H.
    destruct (trimEnd_split (trimStart s)) as (ws & Hs & _).
    fold (trim s) in Hs. rewrite H in Hs. simpl in Hs.
    exact (trimStart_head _ _ _ Hs).
  - intros front c H. unfold trim, trimEnd in H.
    apply (f_equal (@rev N)) in H. rewrite rev_involutive, rev_app_distr in H.
    simpl in H. exact (trimStart_head _ _ _ H).
Qed.

Lemma trim_idempotent (s : jsstring) : trim (trim s) = trim s.
Proof.
  destruct (trim_edges s) as [Hhead Hlast].
  unfold trim at 1. rewrite (trimStart_fixed (trim s) Hhead).
  unfold trimEnd. rewrite trimStart_fixed; [apply rev_involutive|].
  intros c rest H. apply (Hlast (rev rest)).
  apply (f_equal (@rev N)) in H. rewrite rev_involutive in H. exact H.
Qed.

(** ** Slugs and field identifiers *)

Lemma collapse_runs_chars (s : jsstring) :
  forall in_run,
    Forall (fun c => is_slug_char c = true \/ c = 45) (collapse_runs s in_run).
Proof.
  induction s as [|c s IH]; intros in_run; simpl; [constructor|].
  destruct (is_slug_char c) eqn:Hc.
  - constructor; auto.
  - destruct in_run; [apply IH|]. constructor; auto.
Qed.

(** No two dashes in a row, and no dash first when the scan is inside a
    run of replaced code units. *)
Lemma collapse_runs_single_dashes (s : jsstring) :
  forall in_run,
    (in_run = true -> forall rest, collapse_runs s in_run <> 45 :: rest)
    /\ (forall a b, collapse_runs s in_run <> a ++ 45 :: 45 :: b).
Proof.
  induction s as [|c s IH]; intros in_run; simpl.
  - split; [discriminate|]. intros [|x a] b; discriminate.
  - destruct (is_slug_char c) eqn:Hc.
    + split.
      * intros _ rest [= -> _]. discriminate.
      * intros [|x a] b; simpl.
        -- intros [= -> _]. discriminate.
        -- intros [= _ H]. exact (proj2 (IH false) a b H).
    + destruct in_run.
      * apply IH.
      * split; [discriminate|].
        intros [|x a] b; simpl.
        -- intros [= H]. exact (proj1 (IH true) eq_refl _ H).
        -- intros [= _ H]. exact (proj2 (IH true) a b H).
Qed.

(** What [strip_edge_dashes] removes: a dash in front when there is one,
    and then a dash at the end when there is one. *)
Lemma strip_edge_dashes_split (s : jsstring) :
  exists x y,
    s = x ++ strip_edge_dashes s ++ y
    /\ (x = [45] \/ (x = [] /\ forall rest, s <> 45 :: rest))
    /\ (y = [45] \/ (y = [] /\ forall front, strip_edge_dashes s <> front ++ [45])).
Proof.
  unfold strip_edge_dashes.
  set (s1 := match s with 45 :: rest => rest | _ => s end).
  assert (Hx : exists x, s = x ++ s1
                 /\ (x = [45] \/ (x = [] /\ forall rest, s <> 45 :: rest))).
  { subst s1. destruct s as [|c s].
    - exists []. split; [reflexivity|]. right. split; [reflexivity|discriminate].
    - destruct (N.eq_dec c 45) as [->|Hc].
      + exists [45]. split; [reflexivity|]. left. reflexivity.
      + exists []. split.
        * destruct c as [|p]; [reflexivity|]. 
          do 6 (destruct p as [p|p|]; try reflexivity). congruence.
        * right. split; [reflexivity|]. intros rest [= H _]. congruence. }
  destruct Hx as (x & Hs & Hx). exists x.
  destruct (rev s1) as [|c r] eqn:Hr.
  - exists []. rewrite app_nil_r. split; [exact Hs|]. split; [exact Hx|].
    right. split; [reflexivity|]. intros front H.
    apply (f_equal (@rev N)) in Hr. rewrite rev_involutive in Hr. simpl in Hr.
    rewrite Hr in H. destruct front; discriminate.
  - assert (Hs1 : s1 = rev r ++ [c]).
    { apply (f_equal (@rev N)) in Hr. rewrite rev_involutive in Hr. exact Hr. }
    destruct (N.eq_dec c 45) as [->|Hc].
    + exists [45]. split; [rewrite Hs, Hs1; reflexivity|]. split; [exact Hx|].
      left. reflexivity.
    + exists []. 
      assert (E' : (match c :: r with
                    | 45 :: rest => rev rest
                    | _ => s1
                    end) = s1).
      { destruct c as [|p]; [reflexivity|].
        do 6 (destruct p as [p|p|]; try reflexivity). congruence. }
      rewrite E', app_nil_r. split; [exact Hs|]. split; [exact Hx|].
      right. split; [reflexivity|]. intros front H.
      rewrite Hs1 in H. apply app_inj_tail in H. destruct H as [_ H].
      congruence.
Qed.

Section Slugs.
Variables (toLowerCase normalizeNFD : jsstring -> jsstring).

Local Abbreviation slug := (slugify toLowerCase normalizeNFD).
Local Abbreviation fieldIdOf := (makeFieldId toLowerCase normalizeNFD).

(** X1. Whatever the question and whatever the Unicode tables behind
    [toLowerCase] and [normalize], a slug is made of the letters a to z,
    the digits and the dash only; it neither starts nor ends with a dash,
    and it never has two dashes in a row. *)
Theorem slugify_shape (value : jsstring) :
  Forall (fun c => is_slug_char c = true \/ c = 45) (slug value)
  /\ (forall rest, slug value <> 45 :: rest)
  /\ (forall front, slug value <> front ++ [45])
  /\ (forall a b, slug value <> a ++ 45 :: 45 :: b).
Proof.
  unfold slugify.
  set (s := collapse_runs (strip_combining (normalizeNFD (toLowerCase value))) false).
  pose proof (collapse_runs_chars
                (strip_combining (normalizeNFD (toLowerCase value))) false) as Hchars.
  destruct (collapse_runs_single_dashes
              (strip_combining (normalizeNFD (toLowerCase value))) false)
    as [_ Hsingle].
  fold s in Hchars, Hsingle.
  destruct (strip_edge_dashes_split s) as (x & y & Hs & Hx & Hy).
  repeat split.
  - rewrite Hs in Hchars. apply Forall_app in Hchars. destruct Hchars as [_ H].
    apply Forall_app in H. exact (proj1 H).
  - intros rest H. rewrite H in Hs. destruct Hx as [->|[-> Hx]].
    + exact (Hsingle [] (rest ++ y) Hs).
    + exact (Hx (rest ++ y) Hs).
  - intros front H. destruct Hy as [->|[_ Hy]].
    + rewrite H in Hs. apply (Hsingle (x ++ front) []).
      rewrite Hs, <- !app_assoc. reflexivity.
    + exact (Hy front H).
  - intros a b H. rewrite H in Hs. apply (Hsingle (x ++ a) (b ++ y)).
    rewrite Hs, <- !app_assoc. reflexivity.
Qed.

End Slugs.

Lemma pos_digits_fuel_digits (fuel : nat) :
  forall n acc,
    Forall (fun c => is_digit c = true) acc ->
    Forall (fun c => is_digit c = true) (pos_digits_fuel fuel n acc).
Proof.
  induction fuel as [|fuel IH]; intros n acc Hacc; simpl; [exact Hacc|].
  assert (Hd : is_digit (digit_char (n mod 10)) = true).
  { unfold is_digit, digit_char.
    pose proof (N.mod_upper_bound n 10 ltac:(discriminate)) as Hlt.
    set (d := n mod 10) in *. clearbody d.
    apply andb_true_iff. split; apply N.leb_le; lia. }
  destruct (n / 10 =? 0); [constructor; assumption|].
  apply IH. constructor; assumption.
Qed.

Lemma nat_to_string_digits (n : nat) :
  Forall (fun c => is_digit c = true) (nat_to_string n).
Proof. apply pos_digits_fuel_digits. constructor. Qed.

(** Two texts cut at the first occurrence of a code unit agree on both
    sides of the cut. *)
Lemma first_occurrence_unique (ch : N) (a b r r' : jsstring) :
  ~ In ch a -> ~ In ch b -> a ++ ch :: r = b ++ ch :: r' -> a = b /\ r = r'.
Proof.
  revert b. induction a as [|x a IH]; intros [|y b] Ha Hb; simpl.
  - intros [= ->]. auto.
  - intros [= <- _]. destruct Hb. left. reflexivity.
  - intros [= -> _]. destruct Ha. left. reflexivity.
  - intros [= -> H]. destruct (IH b) as [-> ->]; auto.
    + intros Hin. apply Ha. right. exact Hin.
    + intros Hin. apply Hb. right. exact Hin.
Qed.

Lemma makeFieldId_inj (lower nfd : jsstring -> jsstring) (i j : nat) (q q' : jsstring) :
  makeFieldId lower nfd i q = makeFieldId lower nfd j q' ->
  i = j /\ slugify lower nfd q = slugify lower nfd q'.
Proof.
  unfold makeFieldId. intros H. apply app_inv_head in H.
  assert (Hnd : forall n, ~ In 45 (nat_to_string n)).
  { intros n Hin. pose proof (nat_to_string_digits n) as Hd.
    rewrite Forall_forall in Hd. apply list_elem_of_In, Hd in Hin. discriminate. }
  destruct (first_occurrence_unique 45 _ _ _ _ (Hnd i) (Hnd j) H) as [Hn Hs].
  split; [exact (nat_to_string_inj _ _ Hn)|exact Hs].
Qed.

(** X2. The identifiers of fields on different pages differ, whatever the
    two questions are. *)
Theorem makeFieldId_separates_pages (lower nfd : jsstring -> jsstring)
    (i j : nat) (q q' : jsstring) :
  i <> j -> makeFieldId lower nfd i q <> makeFieldId lower nfd j q'.
Proof.
  intros Hij H. apply makeFieldId_inj in H. tauto.
Qed.

Lemma makeFieldId_separates_pages_witness :
  makeFieldId Sample.lower Sample.nfd 1 (js "TAM")
  <> makeFieldId Sample.lower Sample.nfd 11 (js "TAM").
Proof.
  apply (makeFieldId_separates_pages Sample.lower Sample.nfd 1 11). lia.
Defined.

(** ** The registry and the page-targeted actions *)

Section Registry.
Variables (toLowerCase normalizeNFD : jsstring -> jsstring).
Variable formPages : list FormPage.

Local Abbreviation validIds := (validFieldIdSet toLowerCase normalizeNFD formPages).
Local Abbreviation fieldIdOf := (makeFieldId toLowerCase normalizeNFD).
Local Abbreviation configs := (aiActionConfigs toLowerCase normalizeNFD formPages).

Lemma descriptors_from_item (pages : list FormPage) :
  forall base i page item,
    nth_error pages i = Some page -> In item (items page) ->
    In (fieldIdOf (base + i) (question item))
       (map fieldId (descriptors_from toLowerCase normalizeNFD base pages)).
Proof.
  induction pages as [|p rest IH]; intros base i page item Hnth Hin.
  - destruct i; discriminate.
  - simpl. rewrite map_app, in_app_iff. destruct i as [|i]; simpl in Hnth.
    + injection Hnth as ->. left. rewrite Nat.add_0_r, map_map. simpl.
      apply in_map_iff. exists item. auto.
    + right. replace (base + S i)%nat with (S base + i)%nat by lia.
      exact (IH (S base) i page item Hnth Hin).
Qed.

(** Every field of every page is in the registry. *)
Lemma page_field_valid (i : nat) (page : FormPage) (item : FormItem) :
  nth_error formPages i = Some page -> In item (items page) ->
  fieldIdOf i (question item) ∈ validIds.
Proof.
  intros Hnth Hin. unfold validFieldIdSet, formFieldDescriptors.
  apply elem_of_list_to_set, list_elem_of_In.
  exact (descriptors_from_item formPages 0 i page item Hnth Hin).
Qed.

Lemma page_item_ids_valid (i : nat) (k : jsstring) :
  In k (page_item_ids toLowerCase normalizeNFD formPages i) -> k ∈ validIds.
Proof.
  unfold page_item_ids. destruct (nth_error formPages i) as [page|] eqn:Hnth;
    [|intros []].
  rewrite in_map_iff. intros (item & <- & Hin).
  exact (page_field_valid i page item Hnth Hin).
Qed.

Lemma first_question_valid (i : nat) (q : jsstring) :
  first_question formPages i = Some q -> fieldIdOf i q ∈ validIds.
Proof.
  unfold first_question. destruct (nth_error formPages i) as [page|] eqn:Hnth;
    [|discriminate].
  destruct (items page) as [|item rest] eqn:Hitems; [discriminate|].
  destruct (nonempty (question item)); [|discriminate]. intros [= <-].
  apply (page_field_valid i page item Hnth). rewrite Hitems. left. reflexivity.
Qed.

(** The three slots an accepted reply carries are non-empty. *)
Lemma parseAiResult_slots (text : jsstring) (r : TamSamSom) :
  parseAiResult text = Some r -> tam r <> [] /\ sam r <> [] /\ som r <> [].
Proof.
  assert (Hjson : forall raw r', parseAiResult_tryParseJson raw = Some r' ->
                    tam r' <> [] /\ sam r' <> [] /\ som r' <> []).
  { intros raw r'. unfold parseAiResult_tryParseJson.
    destruct (JSON_parse raw) as [parsed|]; [|discriminate].
    set (a := asText (coalesce (get parsed (js "tam")) (get parsed (js "TAM")))).
    set (b := asText (coalesce (get parsed (js "sam")) (get parsed (js "SAM")))).
    set (c := asText (coalesce (get parsed (js "som")) (get parsed (js "SOM")))).
    destruct (nonempty a && nonempty b && nonempty c) eqn:Hn.
    - apply andb_true_iff in Hn. destruct Hn as [Hn Hc].
      apply andb_true_iff in Hn. destruct Hn as [Ha Hb].
      apply nonempty_true in Ha, Hb, Hc.
      destruct parsed; try discriminate; intros [= <-]; simpl; auto.
    - destruct parsed; discriminate. }
  unfold parseAiResult. destruct (negb (nonempty (trim text))); [discriminate|].
  destruct (parseAiResult_tryParseJson (trim text)) as [r1|] eqn:H1.
  - intros [= <-]. exact (Hjson _ _ H1).
  - destruct (brace_block (trim text)) as [block|].
    + destruct (parseAiResult_tryParseJson block) as [r2|] eqn:H2.
      * intros [= <-]. exact (Hjson _ _ H2).
      * unfold parseAiResult_sections.
        match goal with
        | |- (if ?c then _ else _) = _ -> _ => destruct c eqn:Hn
        end; [|discriminate].
        intros [= <-].
        apply andb_true_iff in Hn. destruct Hn as [Hn Hc].
        apply andb_true_iff in Hn. destruct Hn as [Ha Hb].
        apply nonempty_true in Ha, Hb, Hc. auto.
    + unfold parseAiResult_sections.
      match goal with
      | |- (if ?c then _ else _) = _ -> _ => destruct c eqn:Hn
      end; [|discriminate].
      intros [= <-].
      apply andb_true_iff in Hn. destruct Hn as [Hn Hc].
      apply andb_true_iff in Hn. destruct Hn as [Ha Hb].
      apply nonempty_true in Ha, Hb, Hc. auto.
Qed.

Lemma formatCompetitorTable_nonempty (entries : list CompetitorEntry) :
  formatCompetitorTable entries <> [].
Proof.
  unfold formatCompetitorTable. apply join_head_nonempty. discriminate.
Qed.

(** Every key of the update a page-targeted action returns is a field of
    the registry. *)
Lemma action_keys_valid (actionKey : AiActionKey) (text : jsstring)
    (index : nat) (updates : AnswerMap) :
  parseResult (configs actionKey) text index = inr updates ->
  forall k, is_Some (updates !! k) -> k ∈ validIds.
Proof.
  destruct actionKey; simpl.
  - unfold applyTamSamSomResult.
    destruct (parseAiResult text) as [r|]; [|discriminate].
    destruct (page_item_ids toLowerCase normalizeNFD formPages index)
      as [|id0 [|id1 [|id2 rest]]] eqn:Hids; try discriminate.
    intros [= <-] k [v Hk].
    assert (Hin : In k (page_item_ids toLowerCase normalizeNFD formPages index)).
    { rewrite Hids. simpl.
      destruct (decide (id2 = k)) as [->|H2]; [auto|].
      rewrite lookup_insert_ne in Hk by exact H2.
      destruct (decide (id1 = k)) as [->|H1]; [auto|].
      rewrite lookup_insert_ne in Hk by exact H1.
      destruct (decide (id0 = k)) as [->|H0]; [auto|].
      rewrite lookup_insert_ne, lookup_empty in Hk by exact H0. discriminate. }
    exact (page_item_ids_valid index k Hin).
  - unfold applyCompetitorsResult.
    destruct (parseCompetitorEntries text) as [entries|]; [|discriminate].
    destruct (first_question formPages index) as [q|] eqn:Hq; [|discriminate].
    intros [= <-] k [v Hk]. apply lookup_singleton_Some in Hk. destruct Hk as [<- _].
    exact (first_question_valid index q Hq).
  - unfold applyPorterResult.
    destruct (parsePorterResult text) as [r|]; [|discriminate].
    destruct (page_item_ids toLowerCase normalizeNFD formPages index)
      as [|id0 [|id1 [|id2 [|id3 [|id4 rest]]]]] eqn:Hids; try discriminate.
    intros [= <-] k [v Hk].
    assert (Hin : In k (page_item_ids toLowerCase normalizeNFD formPages index)).
    { rewrite Hids. simpl.
      destruct (decide (id4 = k)) as [->|H4]; [auto 6|].
      rewrite lookup_insert_ne in Hk by exact H4.
      destruct (decide (id3 = k)) as [->|H3]; [auto 6|].
      rewrite lookup_insert_ne in Hk by exact H3.
      destruct (decide (id2 = k)) as [->|H2]; [auto|].
      rewrite lookup_insert_ne in Hk by exact H2.
      destruct (decide (id1 = k)) as [->|H1]; [auto|].
      rewrite lookup_insert_ne in Hk by exact H1.
      destruct (decide (id0 = k)) as [->|H0]; [auto|].
      rewrite lookup_insert_ne, lookup_empty in Hk by exact H0. discriminate. }
    exact (page_item_ids_valid index k Hin).
  - unfold applyOnePagerResult.
    destruct (negb (nonempty (trim text))); [discriminate|].
    destruct (first_question formPages index) as [q|] eqn:Hq; [|discriminate].
    intros [= <-] k [v Hk]. apply lookup_singleton_Some in Hk. destruct Hk as [<- _].
    exact (first_question_valid index q Hq).
Qed.

(** X3. Whatever the reply and whatever the page, the update a
    page-targeted action returns is not empty and names registry fields
    only. *)
Theorem action_updates_in_registry (actionKey : AiActionKey) (text : jsstring)
    (index : nat) (updates : AnswerMap) :
  parseResult (configs actionKey) text index = inr updates ->
  updates <> ∅ /\ forall k, is_Some (updates !! k) -> k ∈ validIds.
Proof.
  intros Hp. split; [|exact (action_keys_valid actionKey text index updates Hp)].
  revert Hp. destruct actionKey; simpl.
  - unfold applyTamSamSomResult.
    destruct (parseAiResult text) as [r|]; [|discriminate].
    destruct (page_item_ids toLowerCase normalizeNFD formPages index)
      as [|id0 [|id1 [|id2 rest]]]; try discriminate.
    intros [= <-]. apply insert_non_empty.
  - unfold applyCompetitorsResult.
    destruct (parseCompetitorEntries text) as [entries|]; [|discriminate].
    destruct (first_question formPages index) as [q|]; [|discriminate].
    intros [= <-]. apply insert_non_empty.
  - unfold applyPorterResult.
    destruct (parsePorterResult text) as [r|]; [|discriminate].
    destruct (page_item_ids toLowerCase normalizeNFD formPages index)
      as [|id0 [|id1 [|id2 [|id3 [|id4 rest]]]]]; try discriminate.
    intros [= <-]. apply insert_non_empty.
  - unfold applyOnePagerResult.
    destruct (negb (nonempty (trim text))); [discriminate|].
    destruct (first_question formPages index) as [q|]; [|discriminate].
    intros [= <-]. apply insert_non_empty.
Qed.

(** X4. The market-size, competitors and one-pager actions never write an
    empty value, and the one-pager is written trimmed. *)
Theorem action_values_nonempty (actionKey : AiActionKey) (text : jsstring)
    (index : nat) (updates : AnswerMap) :
  actionKey <> porter ->
  parseResult (configs actionKey) text index = inr updates ->
  forall k v, updates !! k = Some v ->
    v <> [] /\ (actionKey = onepager -> v = trim text).
Proof.
  intros Hkey. destruct actionKey; simpl; [| |congruence|].
  - unfold applyTamSamSomResult.
    destruct (parseAiResult text) as [r|] eqn:Hr; [|discriminate].
    destruct (parseAiResult_slots text r Hr) as (Ht & Hs & Ho).
    destruct (page_item_ids toLowerCase normalizeNFD formPages index)
      as [|id0 [|id1 [|id2 rest]]]; try discriminate.
    intros [= <-] k v Hk. split; [|discriminate].
    destruct (decide (id2 = k)) as [->|H2].
    { rewrite lookup_insert_eq in Hk. congruence. }
    rewrite lookup_insert_ne in Hk by exact H2.
    destruct (decide (id1 = k)) as [->|H1].
    { rewrite lookup_insert_eq in Hk. congruence. }
    rewrite lookup_insert_ne in Hk by exact H1.
    destruct (decide (id0 = k)) as [->|H0].
    { rewrite lookup_insert_eq in Hk. congruence. }
    rewrite lookup_insert_ne, lookup_empty in Hk by exact H0. discriminate.
  - unfold applyCompetitorsResult.
    destruct (parseCompetitorEntries text) as [entries|]; [|discriminate].
    destruct (first_question formPages index) as [q|]; [|discriminate].
    intros [= <-] k v Hk. apply lookup_singleton_Some in Hk. destruct Hk as [_ <-].
    split; [apply formatCompetitorTable_nonempty|discriminate].
  - unfold applyOnePagerResult.
    destruct (nonempty (trim text)) eqn:Hne; simpl; [|discriminate].
    destruct (first_question formPages index) as [q|]; [|discriminate].
    intros [= <-] k v Hk. apply lookup_singleton_Some in Hk. destruct Hk as [_ <-].
    split; [apply nonempty_true; exact Hne|reflexivity].
Qed.

End Registry.

Lemma action_updates_in_registry_witness :
  ({[ js "step-4-one-pager" := js "Resumen" ]} : AnswerMap) <> ∅
  /\ forall k, is_Some (({[ js "step-4-one-pager" := js "Resumen" ]} : AnswerMap) !! k) ->
       k ∈ validFieldIdSet Sample.lower Sample.nfd Sample.pages.
Proof.
  apply (action_updates_in_registry Sample.lower Sample.nfd Sample.pages
           onepager (js " Resumen ") 4).
  vm_compute. reflexivity.
Defined.

Lemma action_values_nonempty_witness :
  js "50" <> [] /\ (tamsamsom = onepager -> js "50" = trim triple_json_text).
Proof.
  apply (action_values_nonempty Sample.lower Sample.nfd Sample.pages
           tamsamsom triple_json_text 1
           (<[js "step-1-som" := js "10"]>
              (<[js "step-1-sam" := js "50"]> {[ js "step-1-tam" := js "100" ]}))
           ltac:(discriminate) ltac:(vm_compute; reflexivity)
           (js "step-1-sam") (js "50")).
  vm_compute. reflexivity.
Defined.

(** ** The competitors table *)

Lemma or_default_nonempty (s fallback : jsstring) :
  fallback <> [] -> or_default s fallback <> [].
Proof.
  unfold or_default. intros Hf. destruct (nonempty s) eqn:Hs; [|exact Hf].
  apply nonempty_true. exact Hs.
Qed.

Lemma normalize_competitor_filled (entry : JSON) (c : CompetitorEntry) :
  normalize_competitor entry = Some c ->
  name c <> [] /\ website c <> [] /\ description c <> []
  /\ successLikelihood c <> [].
Proof.
  unfold normalize_competitor.
  destruct (negb (truthy (Some entry)) || negb (typeof_object entry));
    [discriminate|].
  intros [= <-]. simpl. repeat split; apply or_default_nonempty; discriminate.
Qed.

Lemma somes_In {A} (l : list (option A)) (x : A) :
  In x (somes l) <-> In (Some x) l.
Proof.
  unfold somes. rewrite in_flat_map. split.
  - intros ([y|] & Hin & Hx); simpl in Hx; [|destruct Hx].
    destruct Hx as [->|[]]. exact Hin.
  - intros Hin. exists (Some x). split; [exact Hin|left; reflexivity].
Qed.

(** X5. An accepted competitors reply gives at least one entry, and every
    entry has a non-empty name, website, description and likelihood:
    what the reply leaves out is filled with the fixed defaults. *)
Theorem parseCompetitorEntries_filled (text : jsstring) (entries : list CompetitorEntry) :
  parseCompetitorEntries text = Some entries ->
  entries <> []
  /\ Forall (fun c => name c <> [] /\ website c <> [] /\ description c <> []
                      /\ successLikelihood c <> []) entries.
Proof.
  assert (Htry : forall raw, parseCompetitorEntries_tryParse raw = Some entries ->
            entries <> []
            /\ Forall (fun c => name c <> [] /\ website c <> [] /\ description c <> []
                                /\ successLikelihood c <> []) entries).
  { intros raw. unfold parseCompetitorEntries_tryParse.
    destruct (JSON_parse raw) as [parsed|]; [|discriminate].
    destruct (competitor_list parsed) as [[|e l]|]; try discriminate.
    destruct (somes (map normalize_competitor (e :: l))) as [|c cs] eqn:Hs;
      [discriminate|].
    intros [= <-]. split; [discriminate|].
    apply Forall_forall. intros c' Hc'. apply list_elem_of_In in Hc'.
    rewrite <- Hs in Hc'. apply somes_In, in_map_iff in Hc'.
    destruct Hc' as (entry & Hentry & _).
    exact (normalize_competitor_filled entry c' Hentry). }
  unfold parseCompetitorEntries.
  destruct (negb (nonempty (trim text))); [discriminate|].
  destruct (parseCompetitorEntries_tryParse (trim text)) as [direct|] eqn:Hd.
  - intros [= <-]. exact (Htry _ Hd).
  - destruct (fenced_block (trim text)) as [block|]; [|discriminate].
    apply Htry.
Qed.

Lemma parseCompetitorEntries_filled_witness :
  [ {| name := js "Acme"; website := js "acme.com";
       description := js "Descripción no disponible";
       successLikelihood := js "Sin estimación" |} ] <> []
  /\ Forall (fun c => name c <> [] /\ website c <> [] /\ description c <> []
                      /\ successLikelihood c <> [])
       [ {| name := js "Acme"; website := js "acme.com";
            description := js "Descripción no disponible";
            successLikelihood := js "Sin estimación" |} ].
Proof.
  apply (parseCompetitorEntries_filled acme_text). vm_compute. reflexivity.
Defined.

Lemma escape_pipes_escaped (value : jsstring) :
  forall pre post,
    flat_map (fun c => if c =? 124 then [92; 124] else [c]) value = pre ++ 124 :: post ->
    exists pre', pre = pre' ++ [92].
Proof.
  induction value as [|c value IH]; intros pre post; simpl.
  - destruct pre; discriminate.
  - destruct (N.eqb_spec c 124) as [->|Hc]; simpl.
    + destruct pre as [|x [|y pre]]; simpl.
      * discriminate.
      * intros [= <- _]. exists []. reflexivity.
      * intros [= <- <- H]. destruct (IH _ _ H) as [pre' ->].
        { exists (92 :: 124 :: pre'). reflexivity. }
    + destruct pre as [|x pre]; simpl.
      * intros [= E _]. congruence.
      * intros [= <- H]. destruct (IH _ _ H) as [pre' ->].
        exists (c :: pre'). reflexivity.
Qed.

(** X6. In a sanitized table cell every vertical bar comes right after a
    backslash, and the cell has no whitespace at either end. *)
Theorem sanitizeTableCell_escapes (value : jsstring) :
  (forall pre post, sanitizeTableCell value = pre ++ 124 :: post ->
                    exists pre', pre = pre' ++ [92])
  /\ trim (sanitizeTableCell value) = sanitizeTableCell value.
Proof.
  unfold sanitizeTableCell. split; [|apply trim_idempotent].
  set (e := flat_map (fun c => if c =? 124 then [92; 124] else [c]) value).
  intros pre post H.
  destruct (trim_split e) as (a & b & He & Ha & _).
  rewrite H in He.
  assert (He' : e = (a ++ pre) ++ 124 :: (post ++ b)).
  { rewrite He, <- !app_assoc. reflexivity. }
  destruct (escape_pipes_escaped value _ _ He') as [pre' Hpre].
  destruct (exists_last (l := pre)) as (front & c & ->).
  - intros ->. rewrite app_nil_r in Hpre. rewrite Hpre in Ha.
    apply Forall_app in Ha. destruct Ha as [_ Ha].
    inversion Ha as [|? ? Hs _]. discriminate.
  - rewrite app_assoc in Hpre. apply app_inj_tail in Hpre.
    destruct Hpre as [_ ->]. exists front. reflexivity.
Qed.

(** ** [asText] and the content flattener *)


(** X7. [asText] is empty exactly on an absent value, on [null] and on a
    string that is blank: every number, zero included, every boolean,
    [false] included, and every array and object give text. *)
Theorem asText_empty_iff (value : option JSON) :
  asText value = []
  <-> value = None \/ value = Some JNull
      \/ exists s, value = Some (JStr s) /\ trim s = [].
Proof.
  destruct value as [[|b|x|s|l|props]|]; simpl.
  - split; auto.
  - split.
    + destruct b; discriminate.
    + intros [H|[H|(s & H & _)]]; discriminate.
  - split.
    + intros H. destruct (Number_toString_nonempty x H).
    + intros [H|[H|(s & H & _)]]; discriminate.
  - split.
    + intros H. right. right. exists s. auto.
    + intros [H|[H|(s' & [= <-] & H)]]; try discriminate. exact H.
  - split; [discriminate|]. intros [H|[H|(s & H & _)]]; discriminate.
  - split; [discriminate|]. intros [H|[H|(s & H & _)]]; discriminate.
  - split; auto.
Qed.


(** ** The context of a request and the answers it reads *)

Section ContextReads.
Variables (toLowerCase normalizeNFD : jsstring -> jsstring).
Variable formPages : list FormPage.

Local Abbreviation fieldIdOf := (makeFieldId toLowerCase normalizeNFD).
Local Abbreviation context := (buildBusinessContext toLowerCase normalizeNFD formPages).

Lemma context_section_insert (answers : AnswerMap) (i j : nat) (q v : jsstring)
    (page : FormPage) :
  j <> i ->
  context_section toLowerCase normalizeNFD (<[fieldIdOf i q := v]> answers) j page
  = context_section toLowerCase normalizeNFD answers j page.
Proof.
  intros Hji. unfold context_section.
  assert (E : map (context_entry toLowerCase normalizeNFD
                     (<[fieldIdOf i q := v]> answers) j) (items page)
              = map (context_entry toLowerCase normalizeNFD answers j) (items page)).
  { apply map_ext. intros item. unfold context_entry.
    rewrite lookup_insert_ne; [reflexivity|].
    intros H. apply makeFieldId_inj in H. destruct H as [H _]. congruence. }
  rewrite E. reflexivity.
Qed.

Lemma map_indexed_sections_insert (answers : AnswerMap) (i : nat) (q v : jsstring)
    (pages : list FormPage) :
  forall base, (base + length pages <= i)%nat ->
    map_indexed (context_section toLowerCase normalizeNFD
                   (<[fieldIdOf i q := v]> answers)) base pages
    = map_indexed (context_section toLowerCase normalizeNFD answers) base pages.
Proof.
  induction pages as [|page rest IH]; intros base Hlen; simpl; [reflexivity|].
  simpl in Hlen. rewrite context_section_insert by lia.
  rewrite IH by lia. reflexivity.
Qed.

(** X9. The context built for a page reads the answers of earlier pages
    only: typing into a field of that page or of a later one leaves the
    context as it was. *)
Theorem context_ignores_later_pages (st : AppState) (targetStepIndex : Z)
    (i : nat) (q v : jsstring) :
  (targetStepIndex <= Z.of_nat i)%Z ->
  context (answers (handleInputChange st (fieldIdOf i q) v)) targetStepIndex
  = context (answers st) targetStepIndex.
Proof.
  intros Hle. unfold buildBusinessContext, handleInputChange. simpl.
  destruct (targetStepIndex <=? 0)%Z; [reflexivity|].
  rewrite map_indexed_sections_insert; [reflexivity|].
  rewrite length_firstn. lia.
Qed.

End ContextReads.

Lemma context_ignores_later_pages_witness :
  buildBusinessContext Sample.lower Sample.nfd Sample.pages
    (answers (handleInputChange sample_state
                (makeFieldId Sample.lower Sample.nfd 1 (js "TAM")) (js "100"))) 1
  = buildBusinessContext Sample.lower Sample.nfd Sample.pages (answers sample_state) 1.
Proof.
  apply (context_ignores_later_pages Sample.lower Sample.nfd Sample.pages
           sample_state 1 1 (js "TAM") (js "100")).
  lia.
Defined.

(** ** The two merge policies *)

Section Merges.
Variables (toLowerCase normalizeNFD : jsstring -> jsstring).
Variable formPages : list FormPage.

Local Abbreviation validIds := (validFieldIdSet toLowerCase normalizeNFD formPages).
Local Abbreviation configs := (aiActionConfigs toLowerCase normalizeNFD formPages).
Local Abbreviation applyPrefill :=
  (applyPrefillResult toLowerCase normalizeNFD formPages).
Local Abbreviation outcome := (prefill_outcome toLowerCase normalizeNFD formPages).
Local Abbreviation respond :=
  (handlePrefillWithAi_response toLowerCase normalizeNFD formPages).
Local Abbreviation actionResponse :=
  (handleAiAction_response toLowerCase normalizeNFD formPages).

Lemma spread_lookup (prev updates : AnswerMap) (k : jsstring) :
  spread prev updates !! k
  = match updates !! k with Some v => Some v | None => prev !! k end.
Proof.
  unfold spread. rewrite lookup_union.
  destruct (updates !! k), (prev !! k); reflexivity.
Qed.

Lemma spread_twice (prev updates : AnswerMap) :
  spread (spread prev updates) updates = spread prev updates.
Proof.
  apply map_eq. intros k. rewrite !spread_lookup.
  destruct (updates !! k); reflexivity.
Qed.

(** X10. A page-targeted action merges with the always-overwrite policy:
    when the reply is accepted, every field of the update takes the value
    of the update, whatever it held, and every other field keeps its
    answer; when the reply is rejected the answers are untouched.  The
    current step never moves. *)
Theorem handleAiAction_overwrites (actionKey : AiActionKey) (st st' : AppState)
    (content : JSON) :
  actionResponse actionKey st content = Some st' ->
  currentStep st' = currentStep st
  /\ ((exists e, statusMessage st' = Some (StatusError e)
                 /\ answers st' = answers st)
      \/ exists index updates,
           stepIndex (configs actionKey) = Some index
           /\ parseResult (configs actionKey) (extractMessageContent content) index
              = inr updates
           /\ statusMessage st'
              = Some (StatusSuccess (successMessage (configs actionKey)))
           /\ forall k,
                answers st' !! k
                = match updates !! k with
                  | Some v => Some v
                  | None => answers st !! k
                  end).
Proof.
  unfold handleAiAction_response, aiAction_outcome.
  destruct (stepIndex (configs actionKey)) as [index|]; [|discriminate].
  destruct (negb (nonempty (trim (extractMessageContent content)))).
  - intros [= <-]. simpl. split; [reflexivity|]. left. eauto.
  - destruct (parseResult (configs actionKey) (extractMessageContent content) index)
      as [e|updates] eqn:Hp; intros [= <-]; simpl; (split; [reflexivity|]).
    + left. eauto.
    + right. exists index, updates. split; [reflexivity|]. split; [exact Hp|].
      split; [reflexivity|]. intros k. apply spread_lookup.
Qed.

(** X11. Handling the same reply of a page-targeted action twice leaves
    the answers that handling it once leaves. *)
Theorem handleAiAction_idempotent (actionKey : AiActionKey) (st st1 : AppState)
    (content : JSON) :
  actionResponse actionKey st content = Some st1 ->
  exists st2, actionResponse actionKey st1 content = Some st2
              /\ answers st2 = answers st1.
Proof.
  unfold handleAiAction_response.
  destruct (stepIndex (configs actionKey)) as [index|]; [|discriminate].
  destruct (aiAction_outcome (configs actionKey) index content) as [e|updates];
    intros [= <-]; simpl; eexists; (split; [reflexivity|]); simpl.
  - reflexivity.
  - apply spread_twice.
Qed.

Lemma valid_not_proto (k : jsstring) : k ∈ validIds -> k <> js "__proto__".
Proof.
  intros Hk ->. apply validFieldIdSet_prefix in Hk. vm_compute in Hk. discriminate.
Qed.

Lemma recognized_entries_assigned (entries : list PrefillAnswerEntry) :
  Forall (fun e => pe_fieldId e ∈ validIds) entries ->
  entries <> [] ->
  fold_left (fun acc entry => obj_assign (pe_fieldId entry) (trim (pe_value entry)) acc)
    entries (∅ : AnswerMap) <> ∅.
Proof.
  intros Hvalid Hne. destruct (exists_last Hne) as (front & e & ->).
  rewrite fold_left_app. simpl. apply Forall_app in Hvalid.
  destruct Hvalid as [_ He]. inversion He as [|? ? Hk _]; subst.
  unfold obj_assign. rewrite (proj2 (str_eqb_neq _ _) (valid_not_proto _ Hk)).
  apply insert_non_empty.
Qed.

(** The values [applyPrefillResult] returns are trimmed already. *)
Lemma applyPrefillResult_trimmed (text : jsstring) (updates : AnswerMap) :
  applyPrefill text = inr updates ->
  forall k v, updates !! k = Some v -> trim v = v.
Proof.
  unfold applyPrefillResult.
  destruct (negb (nonempty (trim text))); [discriminate|].
  match goal with
  | |- match ?e with _ => _ end = _ -> _ => destruct e as [entries|]
  end; [|discriminate].
  destruct (filter (fun e => recognized toLowerCase normalizeNFD formPages e)
              entries) as [|e0 recog]; [discriminate|].
  intros [= <-] k v Hk. apply (fold_assign_lookup (e0 :: recog)) in Hk.
  destruct Hk as [Hk|(e & _ & _ & <-)].
  - rewrite lookup_empty in Hk. discriminate.
  - apply trim_idempotent.
Qed.

(** X12. What [applyPrefillResult] returns is never the empty map; each
    of its fields is in the registry and each of its values is non-empty
    and already trimmed, so the trimmed-value test of the merge that
    follows rejects none of them: an entry is written exactly when the
    field holds no non-blank answer. *)
Theorem applyPrefillResult_contract (text : jsstring) (updates : AnswerMap) :
  applyPrefill text = inr updates ->
  updates <> ∅
  /\ forall k v, updates !! k = Some v ->
       k ∈ validIds /\ v <> [] /\ trim v = v
       /\ forall answers : AnswerMap,
            fills_empty_field answers (k, v) = true
            <-> forall old, answers !! k = Some old -> trim old = [].
Proof.
  intros Happly.
  destruct (applyPrefillResult_validated _ _ _ _ _ Happly) as [_ Hvalid].
  pose proof (applyPrefillResult_trimmed _ _ Happly) as Htrim.
  revert Happly. unfold applyPrefillResult.
  destruct (negb (nonempty (trim text))); [discriminate|].
  match goal with
  | |- match ?e with _ => _ end = _ -> _ => destruct e as [entries|]
  end; [|discriminate].
  destruct (filter (fun e => recognized toLowerCase normalizeNFD formPages e) entries)
    as [|e0 recog] eqn:Hf; [discriminate|].
  intros [= Hupd].
  assert (Hrec : forall e, In e (e0 :: recog) -> pe_fieldId e ∈ validIds).
  { intros e Hin.
    assert (He : e ∈ filter (fun e => recognized toLowerCase normalizeNFD formPages e)
                       entries).
    { rewrite Hf. apply list_elem_of_In. exact Hin. }
    apply list_elem_of_filter in He. destruct He as [He _].
    unfold recognized in He. apply Is_true_eq_true, andb_true_iff in He.
    exact (proj1 (bool_decide_eq_true _) (proj1 He)). }
  split.
  - rewrite <- Hupd.
    apply (recognized_entries_assigned (e0 :: recog)); [|discriminate].
    apply Forall_forall. intros e He. apply Hrec, list_elem_of_In. exact He.
  - intros k v Hk. destruct (Hvalid k v Hk) as [Hkv Hv].
    pose proof (Htrim k v Hk) as Ht.
    repeat split; try assumption.
    + intros Hfill. apply fills_empty_field_spec in Hfill. exact (proj2 Hfill).
    + intros Hold. apply fills_empty_field_spec. rewrite Ht. auto.
Qed.

(** X13. The brief-driven action judges emptiness on the answers it
    captured when the request was issued: a candidate for a field that was
    blank then is written over whatever the field holds when the reply
    arrives. *)
Theorem prefill_judges_captured_answers (captured : AnswerMap) (st : AppState)
    (content : JSON) (updates : AnswerMap) (k v : jsstring) :
  trim (extractMessageContent content) <> [] ->
  applyPrefill (extractMessageContent content) = inr updates ->
  updates !! k = Some v ->
  (forall old, captured !! k = Some old -> trim old = []) ->
  answers (respond captured st content) !! k = Some v.
Proof.
  intros Htext Happly Hk Hblank.
  destruct (applyPrefillResult_validated _ _ _ _ _ Happly) as [_ Hvalid].
  assert (Hv : trim v <> []).
  { rewrite (applyPrefillResult_trimmed _ _ Happly k v Hk).
    exact (proj2 (Hvalid k v Hk)). }
  assert (Hs : sanitizedUpdates captured updates !! k = Some v).
  { apply sanitizedUpdates_lookup. auto. }
  unfold handlePrefillWithAi_response, prefill_outcome.
  apply nonempty_true in Htext. rewrite Htext. simpl. rewrite Happly.
  destruct (bool_decide (sanitizedUpdates captured updates = ∅)) eqn:He.
  - apply bool_decide_eq_true in He. rewrite He, lookup_empty in Hs. discriminate.
  - simpl. rewrite spread_lookup, Hs. reflexivity.
Qed.

(** X14. Once the brief-driven action has filled fields from a reply,
    and provided that no field that held a non-blank answer when the
    request was issued has been emptied since (as when nothing was edited
    while the request was in flight), handling the same reply again with
    the resulting answers captured fills nothing: it is rejected for want
    of empty fields, and the answers and the step of the state it runs on
    stay as they are. *)
Theorem prefill_rerun_fills_nothing (captured : AnswerMap) (st st2 : AppState)
    (content : JSON) :
  (forall k old, captured !! k = Some old -> trim old <> [] ->
                 exists now, answers st !! k = Some now /\ trim now <> []) ->
  statusMessage (respond captured st content)
    = Some (StatusSuccess prefill_success_text) ->
  respond (answers (respond captured st content)) st2 content
  = {| answers := answers st2;
       currentStep := currentStep st2;
       statusMessage := Some (StatusError PrefillNoEmptyFields) |}.
Proof.
  intros Hkept Hst.
  assert (Hfirst : exists sanitized, outcome captured content = inr sanitized).
  { revert Hst. unfold handlePrefillWithAi_response.
    destruct (outcome captured content) as [e|sanitized];
      [discriminate|eauto]. }
  destruct Hfirst as [sanitized Hout].
  assert (E1 : answers (respond captured st content) = spread (answers st) sanitized).
  { unfold handlePrefillWithAi_response. rewrite Hout. reflexivity. }
  rewrite E1.
  assert (Hre : outcome (spread (answers st) sanitized) content
                = inl PrefillNoEmptyFields).
  { revert Hout. unfold prefill_outcome.
    destruct (negb (nonempty (trim (extractMessageContent content))));
      [discriminate|].
    destruct (applyPrefill (extractMessageContent content)) as [e|updates];
      [discriminate|].
    destruct (bool_decide (sanitizedUpdates captured updates = ∅));
      [discriminate|].
    intros [= <-].
    assert (Hempty : sanitizedUpdates
                       (spread (answers st) (sanitizedUpdates captured updates))
                       updates = ∅).
    { apply map_empty. intros k.
      destruct (sanitizedUpdates
                  (spread (answers st) (sanitizedUpdates captured updates))
                  updates !! k) as [v|] eqn:Hk; [|reflexivity].
      apply sanitizedUpdates_lookup in Hk. destruct Hk as (Hu & Hv & Hold).
      destruct (sanitizedUpdates captured updates !! k) as [w|] eqn:Hw.
      - pose proof Hw as Hw'. apply sanitizedUpdates_lookup in Hw'.
        destruct Hw' as (_ & Hw' & _).
        destruct Hw'. apply Hold. rewrite spread_lookup, Hw. reflexivity.
      - assert (Hlive : forall now, answers st !! k = Some now -> trim now = []).
        { intros now Hnow. apply Hold. rewrite spread_lookup, Hw. exact Hnow. }
        assert (Hs : sanitizedUpdates captured updates !! k = Some v).
        { apply sanitizedUpdates_lookup. repeat split; try assumption.
          intros old Hc. destruct (trim old) as [|c t] eqn:Ht; [reflexivity|].
          destruct (Hkept k old Hc) as (now & Hnow & Hnb).
          - rewrite Ht. discriminate.
          - destruct Hnb. exact (Hlive now Hnow). }
        congruence. }
    rewrite Hempty. rewrite bool_decide_eq_true_2 by reflexivity. reflexivity. }
  unfold handlePrefillWithAi_response. rewrite Hre. reflexivity.
Qed.

End Merges.

(** ** What the open-field-map normalization returns *)

Section NormalizeContract.
Variables (toLowerCase normalizeNFD : jsstring -> jsstring).
Variable formPages : list FormPage.

Local Abbreviation validIds := (validFieldIdSet toLowerCase normalizeNFD formPages).
Local Abbreviation normalize := (normalize_fuel toLowerCase normalizeNFD formPages).
Local Abbreviation normalizeEntries :=
  (normalizePrefillEntries toLowerCase normalizeNFD formPages).
Local Abbreviation directEntry := (direct_entry toLowerCase normalizeNFD formPages).

Lemma prefill_entry_filled (entry : JSON) (e : PrefillAnswerEntry) :
  prefill_entry entry = Some e -> pe_fieldId e <> [] /\ pe_value e <> [].
Proof.
  unfold prefill_entry.
  destruct (negb (truthy (Some entry)) || negb (typeof_object entry));
    [discriminate|].
  set (f := asText (first_of entry [js "fieldId"; js "id"; js "field"; js "key"])).
  set (v := asText (first_of entry [js "value"; js "answer"; js "text"; js "content"])).
  destruct (nonempty f) eqn:Hf; [|discriminate].
  destruct (nonempty v) eqn:Hv; [|discriminate].
  intros [= <-]. simpl. split; apply nonempty_true; assumption.
Qed.

Lemma direct_entry_filled (p : jsstring * JSON) (e : PrefillAnswerEntry) :
  directEntry p = Some e -> pe_fieldId e <> [] /\ pe_value e <> [].
Proof.
  unfold direct_entry.
  destruct (bool_decide (p.1 ∈ validIds)) eqn:Hk; [|discriminate].
  destruct (nonempty (asText (Some p.2))) eqn:Hv; [|discriminate].
  intros [= <-]. simpl. split; [|apply nonempty_true; exact Hv].
  apply bool_decide_eq_true in Hk. apply validFieldIdSet_prefix in Hk.
  intros E. rewrite E in Hk. discriminate.
Qed.

Lemma non_empty_or_null_somes {A B} (f : A -> option B) (P : B -> Prop)
    (l : list A) (r : list B) :
  (forall a b, f a = Some b -> P b) ->
  non_empty_or_null (somes (map f l)) = Some r -> r <> [] /\ Forall P r.
Proof.
  intros Hf. destruct (somes (map f l)) as [|b bs] eqn:Hs; [discriminate|].
  intros [= <-]. split; [discriminate|].
  apply Forall_forall. intros b' Hb'. apply list_elem_of_In in Hb'.
  rewrite <- Hs in Hb'. apply somes_In, in_map_iff in Hb'.
  destruct Hb' as (a & Ha & _). exact (Hf a b' Ha).
Qed.

Lemma first_nested_result
    (self : JSON -> option (option (list PrefillAnswerEntry)))
    (P : list PrefillAnswerEntry -> Prop)
    (props : list (jsstring * JSON)) (direct : option (list PrefillAnswerEntry)) :
  (forall v l, self v = Some (Some l) -> P l) ->
  (forall l, direct = Some l -> P l) ->
  forall keys l, first_nested self props direct keys = Some (Some l) -> P l.
Proof.
  intros Hself Hdirect keys. induction keys as [|key rest IH]; intros l; simpl.
  - intros [= H]. exact (Hdirect l H).
  - destruct (assoc key props) as [v|]; [|apply IH].
    destruct (self v) as [[[|e nested]|]|] eqn:Hv; try apply IH; [|discriminate].
    intros [= <-]. exact (Hself v _ Hv).
Qed.

Lemma normalize_fuel_filled (fuel : nat) :
  forall input l,
    normalize fuel input = Some (Some l) ->
    l <> [] /\ Forall (fun e => pe_fieldId e <> [] /\ pe_value e <> []) l.
Proof.
  induction fuel as [|fuel IH]; intros input l; [discriminate|].
  cbn [normalize_fuel].
  destruct (negb (truthy (Some input))); [discriminate|].
  destruct input as [|b|x|s|elems|props]; try discriminate.
  - destruct (JSON_parse s) as [parsed|]; [apply IH|discriminate].
  - intros [= H]. revert H. apply non_empty_or_null_somes.
    exact prefill_entry_filled.
  - apply (first_nested_result (normalize fuel)
             (fun l => l <> []
                       /\ Forall (fun e => pe_fieldId e <> [] /\ pe_value e <> []) l)
             props _ IH).
    intros l'. apply non_empty_or_null_somes. exact direct_entry_filled.
Qed.

(** X15. The normalization returns [null] or a list that is not empty,
    and no entry of the list has an empty identifier or an empty value. *)
Theorem normalizePrefillEntries_filled (input : JSON) (entries : list PrefillAnswerEntry) :
  normalizeEntries input = Some entries ->
  entries <> []
  /\ Forall (fun e => pe_fieldId e <> [] /\ pe_value e <> []) entries.
Proof.
  unfold normalizePrefillEntries.
  destruct (normalize (jsize input) input) as [r|] eqn:Hr; [|discriminate].
  intros ->. exact (normalize_fuel_filled _ _ _ Hr).
Qed.

End NormalizeContract.

(** ** Blank replies *)

Section Blank.
Variables (toLowerCase normalizeNFD : jsstring -> jsstring).
Variable formPages : list FormPage.

Local Abbreviation configs := (aiActionConfigs toLowerCase normalizeNFD formPages).

(** X16. A text made of whitespace only is rejected by each of the five
    extractors, on every page, each with its own error. *)
Theorem blank_text_rejected (text : jsstring) (index : nat) :
  trim text = [] ->
  parseResult (configs tamsamsom) text index = inl TamSamSomUnparsed
  /\ parseResult (configs competitors) text index = inl CompetitorsUnparsed
  /\ parseResult (configs porter) text index = inl PorterUnparsed
  /\ parseResult (configs onepager) text index = inl OnePagerEmpty
  /\ applyPrefillResult toLowerCase normalizeNFD formPages text = inl PrefillNoJson.
Proof.
  intros Hblank. simpl.
  unfold applyTamSamSomResult, parseAiResult, applyCompetitorsResult,
    parseCompetitorEntries, applyPorterResult, parsePorterResult,
    applyOnePagerResult, applyPrefillResult.
  rewrite Hblank. simpl. auto.
Qed.

End Blank.

Lemma blank_text_rejected_witness :
  parseResult (aiActionConfigs Sample.lower Sample.nfd Sample.pages tamsamsom)
    [32; 10; 160] 1 = inl TamSamSomUnparsed
  /\ parseResult (aiActionConfigs Sample.lower Sample.nfd Sample.pages competitors)
       [32; 10; 160] 1 = inl CompetitorsUnparsed
  /\ parseResult (aiActionConfigs Sample.lower Sample.nfd Sample.pages porter)
       [32; 10; 160] 1 = inl PorterUnparsed
  /\ parseResult (aiActionConfigs Sample.lower Sample.nfd Sample.pages onepager)
       [32; 10; 160] 1 = inl OnePagerEmpty
  /\ applyPrefillResult Sample.lower Sample.nfd Sample.pages [32; 10; 160]
     = inl PrefillNoJson.
Proof.
  apply (blank_text_rejected Sample.lower Sample.nfd Sample.pages [32; 10; 160] 1).
  reflexivity.
Defined.

(** ** Invariants of the application *)

Section Machine.
Variables (toLowerCase normalizeNFD : jsstring -> jsstring).
Variable formPages : list FormPage.

Local Abbreviation validIds := (validFieldIdSet toLowerCase normalizeNFD formPages).
Local Abbreviation configs := (aiActionConfigs toLowerCase normalizeNFD formPages).
Local Abbreviation handleEvent := (handle toLowerCase normalizeNFD formPages).
Local Abbreviation run := (run_events toLowerCase normalizeNFD formPages).
Local Abbreviation hi := (summaryStepIndex formPages).

Lemma handle_step_in_range (st st' : AppState) (ev : Event) :
  num_le (NZero false) (currentStep st) /\ num_le (currentStep st) hi ->
  handleEvent st ev = Some st' ->
  num_le (NZero false) (currentStep st') /\ num_le (currentStep st') hi.
Proof.
  intros Hst. destruct ev as [f v|index| | |text|actionKey content|captured content];
    simpl.
  - intros [= <-]. exact Hst.
  - intros [= <-]. apply clamp_step_range.
  - intros [= <-]. unfold handleNext. destruct (isSummaryStep formPages st).
    + exact Hst.
    + apply clamp_step_range.
  - intros [= <-]. apply clamp_step_range.
  - intros [= <-]. unfold handleFiles_text.
    destruct (parseImport formPages text) as [e|[sanitized step]].
    + exact Hst.
    + apply clamp_step_range.
  - unfold handleAiAction_response.
    destruct (stepIndex (configs actionKey)) as [index|]; [|discriminate].
    destruct (aiAction_outcome (configs actionKey) index content);
      intros [= <-]; exact Hst.
  - intros [= <-]. unfold handlePrefillWithAi_response.
    destruct (prefill_outcome toLowerCase normalizeNFD formPages captured content);
      exact Hst.
Qed.

(** X17. From the initial state, whatever is typed, clicked, imported or
    answered by the model, the current step stays between the first step
    and the summary step. *)
Theorem currentStep_in_range (evs : list Event) (st : AppState) :
  run initialState evs = Some st ->
  num_le (NZero false) (currentStep st) /\ num_le (currentStep st) hi.
Proof.
  assert (Hgen : forall st0,
            num_le (NZero false) (currentStep st0) /\ num_le (currentStep st0) hi ->
            run st0 evs = Some st ->
            num_le (NZero false) (currentStep st) /\ num_le (currentStep st) hi).
  { induction evs as [|ev rest IH]; intros st0 H0; simpl.
    - intros [= <-]. exact H0.
    - destruct (handleEvent st0 ev) as [st1|] eqn:H1; [|discriminate].
      apply IH. exact (handle_step_in_range st0 st1 ev H0 H1). }
  apply Hgen. simpl. split; [discriminate|apply summaryStepIndex_nonneg].
Qed.

Lemma handle_answers_in_registry (st st' : AppState) (ev : Event) :
  (forall f v, ev = InputChange f v -> f ∈ validIds) ->
  (forall text, ev <> FileRead text) ->
  (forall k, is_Some (answers st !! k) -> k ∈ validIds) ->
  handleEvent st ev = Some st' ->
  forall k, is_Some (answers st' !! k) -> k ∈ validIds.
Proof.
  intros Hinput Hfile Hst.
  destruct ev as [f v|index| | |text|actionKey content|captured content]; simpl.
  - intros [= <-] k. simpl. destruct (decide (f = k)) as [<-|Hne].
    + intros _. exact (Hinput f v eq_refl).
    + rewrite lookup_insert_ne by exact Hne. apply Hst.
  - intros [= <-]. exact Hst.
  - intros [= <-]. unfold handleNext.
    destruct (isSummaryStep formPages st); exact Hst.
  - intros [= <-]. exact Hst.
  - destruct (Hfile text eq_refl).
  - unfold handleAiAction_response.
    destruct (stepIndex (configs actionKey)) as [index|]; [|discriminate].
    unfold aiAction_outcome.
    destruct (negb (nonempty (trim (extractMessageContent content)))).
    + intros [= <-]. exact Hst.
    + destruct (parseResult (configs actionKey) (extractMessageContent content) index)
        as [e|updates] eqn:Hp; intros [= <-]; [exact Hst|].
      intros k. simpl. rewrite spread_lookup.
      destruct (updates !! k) as [v|] eqn:Hk; [|apply Hst]. intros _.
      apply (action_keys_valid toLowerCase normalizeNFD formPages _ _ _ _ Hp).
      rewrite Hk. eauto.
  - intros [= <-]. unfold handlePrefillWithAi_response, prefill_outcome.
    destruct (negb (nonempty (trim (extractMessageContent content))));
      [exact Hst|].
    destruct (applyPrefillResult toLowerCase normalizeNFD formPages
                (extractMessageContent content)) as [e|updates] eqn:Hp;
      [exact Hst|].
    destruct (bool_decide (sanitizedUpdates captured updates = ∅)); [exact Hst|].
    intros k. simpl. rewrite spread_lookup.
    destruct (sanitizedUpdates captured updates !! k) as [v|] eqn:Hk; [|apply Hst].
    intros _. apply sanitizedUpdates_lookup in Hk. destruct Hk as [Hk _].
    destruct (applyPrefillResult_validated _ _ _ _ _ Hp) as [_ Hvalid].
    exact (proj1 (Hvalid k v Hk)).
Qed.

(** X18. As long as no file is imported and typing goes into fields of
    the form, every key of the Answer Map is a field of the registry:
    neither kind of AI action ever adds a key of its own. *)
Theorem answers_stay_in_registry (evs : list Event) (st : AppState) :
  (forall f v, In (InputChange f v) evs -> f ∈ validIds) ->
  (forall text, ~ In (FileRead text) evs) ->
  run initialState evs = Some st ->
  forall k, is_Some (answers st !! k) -> k ∈ validIds.
Proof.
  assert (Hgen : forall st0,
            (forall f v, In (InputChange f v) evs -> f ∈ validIds) ->
            (forall text, ~ In (FileRead text) evs) ->
            (forall k, is_Some (answers st0 !! k) -> k ∈ validIds) ->
            run st0 evs = Some st ->
            forall k, is_Some (answers st !! k) -> k ∈ validIds).
  { induction evs as [|ev rest IH]; intros st0 Hinput Hfile H0; simpl.
    - intros [= <-]. exact H0.
    - destruct (handleEvent st0 ev) as [st1|] eqn:H1; [|discriminate].
      apply IH.
      + intros f v Hin. apply (Hinput f v). right. exact Hin.
      + intros text Hin. apply (Hfile text). right. exact Hin.
      + apply (handle_answers_in_registry st0 st1 ev); try assumption.
        * intros f v ->. apply (Hinput f v). left. reflexivity.
        * intros text ->. apply (Hfile text). left. reflexivity. }
  intros Hinput Hfile. apply Hgen; try assumption.
  intros k [v Hk]. simpl in Hk. rewrite lookup_empty in Hk. discriminate.
Qed.

End Machine.

(** ** The constants derived from the form *)

Lemma findIndex_Some {A} (pred : A -> bool) (l : list A) :
  forall i,
    findIndex pred l = Some i
    <-> exists x, nth_error l i = Some x /\ pred x = true
                  /\ forall j y, (j < i)%nat -> nth_error l j = Some y -> pred y = false.
Proof.
  induction l as [|a l IH]; intros i; simpl.
  - split; [discriminate|]. intros (x & H & _). destruct i; discriminate.
  - destruct (pred a) eqn:Ha.
    + split.
      * intros [= <-]. exists a. repeat split; [exact Ha|]. intros j y Hj. lia.
      * intros (x & Hx & Hp & Hfirst). destruct i as [|i]; [reflexivity|].
        specialize (Hfirst O a ltac:(lia) eq_refl). congruence.
    + destruct (findIndex pred l) as [k|] eqn:Hk; simpl.
      * split.
        -- intros [= <-]. destruct (proj1 (IH k) eq_refl) as (x & Hx & Hp & Hfirst).
           exists x. repeat split; [exact Hx|exact Hp|].
           intros [|j] y Hj; simpl; [intros [= <-]; exact Ha|].
           apply Hfirst. lia.
        -- intros (x & Hx & Hp & Hfirst). destruct i as [|i]; simpl in Hx.
           ++ congruence.
           ++ f_equal. symmetry. assert (Hi : Some k = Some i); [|congruence].
              apply IH. exists x. repeat split; [exact Hx|exact Hp|].
              intros j y Hj Hy. apply (Hfirst (S j) y); [lia|exact Hy].
      * split; [discriminate|].
        intros (x & Hx & Hp & Hfirst). destruct i as [|i]; simpl in Hx.
        -- congruence.
        -- assert (Hi : None = Some i); [|discriminate].
           apply IH. exists x. repeat split; [exact Hx|exact Hp|].
           intros j y Hj Hy. apply (Hfirst (S j) y); [lia|exact Hy].
Qed.

Lemma findIndex_None {A} (pred : A -> bool) (l : list A) :
  findIndex pred l = None <-> forall x, In x l -> pred x = false.
Proof.
  induction l as [|a l IH]; simpl.
  - split; [intros _ x []|reflexivity].
  - destruct (pred a) eqn:Ha.
    + split; [discriminate|]. intros H. specialize (H a (or_introl eq_refl)).
      congruence.
    + destruct (findIndex pred l) as [k|]; simpl.
      * split; [discriminate|]. intros H.
        assert (Hn : Some k = None); [|discriminate].
        apply IH. intros x Hx. apply H. right. exact Hx.
      * split; [|reflexivity]. intros _ x [<-|Hx]; [exact Ha|].
        apply (proj1 IH eq_refl). exact Hx.
Qed.

(** What [find] returns is the first element that passes the test. *)
Lemma find_first_split {A} (pred : A -> bool) (l : list A) (x : A) :
  List.find pred l = Some x ->
  exists before after,
    l = before ++ x :: after /\ forall y, In y before -> pred y = false.
Proof.
  induction l as [|a l IH]; simpl; [discriminate|].
  destruct (pred a) eqn:Ha.
  - intros [= <-]. exists [], l. split; [reflexivity|]. intros y [].
  - intros H. destruct (IH H) as (before & after & -> & Hbefore).
    exists (a :: before), after. split; [reflexivity|].
    intros y [<-|Hy]; [exact Ha|exact (Hbefore y Hy)].
Qed.

Section FormConstants.
Variables (toLowerCase normalizeNFD : jsstring -> jsstring).
Variable formPages : list FormPage.

Local Abbreviation validIds := (validFieldIdSet toLowerCase normalizeNFD formPages).
Local Abbreviation fieldIdOf := (makeFieldId toLowerCase normalizeNFD).
Local Abbreviation estadoId := (estadoQuestionId toLowerCase normalizeNFD formPages).
Local Abbreviation isEstado := (is_estado toLowerCase).

(** X19. The identifier of the project-state question is [null] exactly
    when no question of the form reads "estado" once trimmed and
    lower-cased; otherwise it is a field of the registry: the identifier
    of the first such question of the first page that has one. *)
Theorem estadoQuestionId_spec :
  (estadoId = None
   <-> forall page item, In page formPages -> In item (items page) ->
                         isEstado item = false)
  /\ forall id, estadoId = Some id ->
       id ∈ validIds
       /\ exists i page before item after,
            nth_error formPages i = Some page
            /\ items page = before ++ item :: after
            /\ (forall other, In other before -> isEstado other = false)
            /\ isEstado item = true
            /\ id = fieldIdOf i (question item)
            /\ forall j earlier other, (j < i)%nat ->
                 nth_error formPages j = Some earlier ->
                 In other (items earlier) -> isEstado other = false.
Proof.
  unfold estadoQuestionId.
  destruct (findIndex (fun page => existsb isEstado (items page)) formPages)
    as [i|] eqn:Hi.
  - apply findIndex_Some in Hi. destruct Hi as (page & Hpage & Hex & Hfirst).
    rewrite Hpage.
    destruct (List.find isEstado (items page)) as [item|] eqn:Hfind.
    + destruct (find_some _ _ Hfind) as [Hin Hest]. split.
      * split; [discriminate|]. intros Hnone.
        rewrite (Hnone page item (nth_error_In _ _ Hpage) Hin) in Hest.
        discriminate.
      * intros id [= <-]. split.
        -- exact (page_field_valid toLowerCase normalizeNFD formPages
                    i page item Hpage Hin).
        -- destruct (find_first_split _ _ _ Hfind) as (before & after & Hsplit & Hbefore).
           exists i, page, before, item, after.
           split; [exact Hpage|]. split; [exact Hsplit|].
           split; [exact Hbefore|]. split; [exact Hest|]. split; [reflexivity|].
           intros j earlier other Hj Hearlier Hother.
           specialize (Hfirst j earlier Hj Hearlier).
           destruct (isEstado other) eqn:Ho; [|reflexivity].
           assert (Hex' : existsb isEstado (items earlier) = true).
           { apply existsb_exists. exists other. auto. }
           congruence.
    + apply existsb_exists in Hex. destruct Hex as (item & Hin & Hest).
      rewrite (find_none _ _ Hfind item Hin) in Hest. discriminate.
  - split; [|discriminate]. split; [|reflexivity]. intros _ page item Hpage Hitem.
    pose proof (proj1 (findIndex_None _ _) Hi page Hpage) as Hno.
    destruct (isEstado item) eqn:Ho; [|reflexivity].
    assert (Hex : existsb isEstado (items page) = true).
    { apply existsb_exists. exists item. auto. }
    simpl in Hno. congruence.
Qed.

(** X25. An AI action has a step exactly when some page title, lower-cased
    and with its whitespace removed, is the text of the action; its step
    is then the first such page of the form. *)
Theorem action_step_first_matching_page (actionKey : AiActionKey) :
  match stepIndex (aiActionConfigs toLowerCase normalizeNFD formPages actionKey) with
  | Some index =>
    exists page,
      nth_error formPages index = Some page
      /\ title_is toLowerCase (action_title actionKey) page = true
      /\ forall j earlier, (j < index)%nat -> nth_error formPages j = Some earlier ->
            title_is toLowerCase (action_title actionKey) earlier = false
  | None =>
    forall page, In page formPages ->
                 title_is toLowerCase (action_title actionKey) page = false
  end.
Proof.
  assert (H : forall name,
            match findIndex (title_is toLowerCase name) formPages with
            | Some index =>
              exists page,
                nth_error formPages index = Some page
                /\ title_is toLowerCase name page = true
                /\ forall j earlier, (j < index)%nat ->
                      nth_error formPages j = Some earlier ->
                      title_is toLowerCase name earlier = false
            | None =>
              forall page, In page formPages -> title_is toLowerCase name page = false
            end).
  { intros name.
    destruct (findIndex (title_is toLowerCase name) formPages) as [index|] eqn:Hi.
    - exact (proj1 (findIndex_Some _ _ _) Hi).
    - exact (proj1 (findIndex_None _ _) Hi). }
  destruct actionKey; simpl; apply H.
Qed.

End FormConstants.

(** ** The brace tier of the brief-driven extractor *)

(** X20. The brace tier hands over the text from the first opening brace
    to the last closing brace after it, braces included, and finds
    nothing when no closing brace follows the first opening one. *)
Theorem brace_slice_spec (text span : jsstring) :
  brace_slice text = Some span
  <-> exists pre mid post,
        text = pre ++ 123 :: mid ++ 125 :: post
        /\ ~ In 123 pre /\ ~ In 125 post
        /\ span = 123 :: mid ++ [125].
Proof.
  unfold brace_slice. split.
  - destruct (from_first 123 text) as [[|open body]|] eqn:Hf; try discriminate.
    apply from_first_spec in Hf. destruct Hf as (pre & rest & Htext & Hpre & [= -> ->]).
    destruct (in_dec N.eq_dec 125 rest) as [Hin|Hnin].
    + destruct (last_occurrence 125 rest Hin) as (mid & post & -> & Hpost).
      rewrite (upto_last_split 125 mid post Hpost).
      replace (nonempty (mid ++ [125])) with true by (destruct mid; reflexivity).
      intros [= <-]. exists pre, mid, post. auto.
    + rewrite (upto_last_absent 125 rest Hnin). discriminate.
  - intros (pre & mid & post & -> & Hpre & Hpost & ->).
    assert (Hf : from_first 123 (pre ++ 123 :: mid ++ 125 :: post)
                 = Some (123 :: mid ++ 125 :: post)).
    { apply from_first_spec. exists pre, (mid ++ 125 :: post). auto. }
    rewrite Hf, (upto_last_split 125 mid post Hpost).
    replace (nonempty (mid ++ [125])) with true by (destruct mid; reflexivity).
    reflexivity.
Qed.

(** ** Whole steps *)

Lemma div_half_even_multiple (x c : Z) :
  (0 < c)%Z -> div_half_even (x * c) c = x.
Proof.
  intros Hc. unfold div_half_even.
  rewrite Z.div_mul by lia. rewrite Z.mod_mul by lia.
  replace (2 * 0 <? c)%Z with true by (symmetry; apply Z.ltb_lt; lia).
  reflexivity.
Qed.

Lemma round_ratio_whole (k j : Z) :
  (0 < k < 2 ^ 53)%Z -> (0 <= j)%Z ->
  round_ratio false (k * 2 ^ j) (2 ^ j) = whole k.
Proof.
  intros Hk Hj. unfold round_ratio, whole.
  assert (Hpj : (0 < 2 ^ j)%Z) by (apply Z.pow_pos_nonneg; lia).
  assert (Hb : (0 <= Z.log2 k < 53)%Z).
  { split; [apply Z.log2_nonneg|]. apply Z.log2_lt_pow2; lia. }
  destruct (Z.log2_spec k ltac:(lia)) as [Hlo Hhi].
  set (b := Z.log2 k) in *.
  replace (k * 2 ^ j =? 0)%Z with false by (symmetry; apply Z.eqb_neq; nia).
  rewrite Z.log2_mul_pow2, Z.log2_pow2 by lia. fold b.
  replace (j + b - j)%Z with b by lia.
  replace (0 <=? b)%Z with true by (symmetry; apply Z.leb_le; lia).
  replace (k * 2 ^ j <? 2 ^ j * 2 ^ b)%Z with false
    by (symmetry; apply Z.ltb_ge; nia).
  replace (Z.max (b - 52) (-1074)) with (b - 52)%Z by lia.
  assert (Hm : (0 < k * 2 ^ (52 - b) < 2 ^ 53)%Z).
  { assert (Hp : (0 < 2 ^ (52 - b))%Z) by (apply Z.pow_pos_nonneg; lia).
    split; [nia|].
    replace (2 ^ 53)%Z with (2 ^ Z.succ b * 2 ^ (52 - b))%Z.
    - apply Z.mul_lt_mono_pos_r; assumption.
    - rewrite <- Z.pow_add_r by lia. f_equal. lia. }
  destruct (0 <=? b - 52)%Z eqn:Hu.
  - apply Z.leb_le in Hu. assert (Eb : b = 52%Z) by lia.
    rewrite Eb in *. change (52 - 52)%Z with 0%Z in *. change (2 ^ 0)%Z with 1%Z in *.
    rewrite Z.mul_1_r in *. rewrite div_half_even_multiple by lia.
    replace (k =? 0)%Z with false by (symmetry; apply Z.eqb_neq; lia).
    replace (k =? 2 ^ 53)%Z with false by (symmetry; apply Z.eqb_neq; lia).
    change (971 <? 0)%Z with false. cbv iota. rewrite ?Z.mul_1_r. reflexivity.
  - apply Z.leb_gt in Hu.
    replace (- (b - 52))%Z with (52 - b)%Z by lia.
    replace (k * 2 ^ j * 2 ^ (52 - b))%Z with (k * 2 ^ (52 - b) * 2 ^ j)%Z by lia.
    rewrite div_half_even_multiple by lia.
    replace (k * 2 ^ (52 - b) =? 0)%Z with false by (symmetry; apply Z.eqb_neq; lia).
    replace (k * 2 ^ (52 - b) =? 2 ^ 53)%Z with false
      by (symmetry; apply Z.eqb_neq; lia).
    replace (971 <? b - 52)%Z with false by (symmetry; apply Z.ltb_ge; lia).
    reflexivity.
Qed.

Lemma number_of_nat_zero : number_of_nat 0 = NZero false.
Proof. reflexivity. Qed.

Lemma number_of_nat_whole (k : nat) :
  (0 < Z.of_nat k < 2 ^ 53)%Z -> number_of_nat k = whole (Z.of_nat k).
Proof.
  intros Hk. unfold number_of_nat.
  rewrite <- (round_ratio_whole (Z.of_nat k) 0 Hk (Z.le_refl 0)).
  change (2 ^ 0)%Z with 1%Z. rewrite Z.mul_1_r. reflexivity.
Qed.

Lemma whole_positive (k : Z) :
  (0 < k < 2 ^ 53)%Z ->
  (0 <= Z.log2 k <= 52)%Z
  /\ Z.pos (Z.to_pos (k * 2 ^ (52 - Z.log2 k))) = (k * 2 ^ (52 - Z.log2 k))%Z.
Proof.
  intros Hk.
  assert (Hb : (0 <= Z.log2 k < 53)%Z).
  { split; [apply Z.log2_nonneg|]. apply Z.log2_lt_pow2; lia. }
  split; [lia|]. apply Z2Pos.id.
  assert (Hp : (0 < 2 ^ (52 - Z.log2 k))%Z) by (apply Z.pow_pos_nonneg; lia).
  nia.
Qed.

(** Adding an integer to a whole number gives the whole number of the
    sum, as long as the sum stays below [2^53]. *)
Lemma num_add_int_whole (k d : Z) :
  (0 < k < 2 ^ 53)%Z -> (0 < k + d < 2 ^ 53)%Z ->
  num_add_int (whole k) d = whole (k + d).
Proof.
  intros Hk Hs. destruct (whole_positive k Hk) as [Hb Hm].
  unfold num_add_int, whole at 1. rewrite Hm.
  destruct (0 <=? Z.log2 k - 52)%Z eqn:Hu.
  - apply Z.leb_le in Hu. assert (Eb : Z.log2 k = 52%Z) by lia.
    rewrite Eb. change (52 - 52)%Z with 0%Z. change (2 ^ 0)%Z with 1%Z.
    rewrite !Z.mul_1_r.
    replace (k + d <? 0)%Z with false by (symmetry; apply Z.ltb_ge; lia).
    rewrite Z.abs_eq by lia.
    rewrite <- (round_ratio_whole (k + d) 0 Hs (Z.le_refl 0)).
    change (2 ^ 0)%Z with 1%Z. rewrite Z.mul_1_r. reflexivity.
  - apply Z.leb_gt in Hu.
    replace (- (Z.log2 k - 52))%Z with (52 - Z.log2 k)%Z by lia.
    assert (Hp : (0 < 2 ^ (52 - Z.log2 k))%Z) by (apply Z.pow_pos_nonneg; lia).
    replace (k * 2 ^ (52 - Z.log2 k) + d * 2 ^ (52 - Z.log2 k))%Z
      with ((k + d) * 2 ^ (52 - Z.log2 k))%Z by lia.
    replace ((k + d) * 2 ^ (52 - Z.log2 k) <? 0)%Z with false
      by (symmetry; apply Z.ltb_ge; nia).
    rewrite Z.abs_eq by nia.
    apply round_ratio_whole; lia.
Qed.

Lemma num_add_int_whole_zero (k : Z) :
  (0 < k < 2 ^ 53)%Z -> num_add_int (whole k) (- k) = NZero false.
Proof.
  intros Hk. destruct (whole_positive k Hk) as [Hb Hm].
  unfold num_add_int, whole. rewrite Hm.
  destruct (0 <=? Z.log2 k - 52)%Z eqn:Hu.
  - apply Z.leb_le in Hu. assert (Eb : Z.log2 k = 52%Z) by lia.
    rewrite Eb. change (52 - 52)%Z with 0%Z. change (2 ^ 0)%Z with 1%Z.
    rewrite !Z.mul_1_r. replace (k + - k)%Z with 0%Z by lia. reflexivity.
  - replace (k * 2 ^ (52 - Z.log2 k) + - k * 2 ^ (- (Z.log2 k - 52)))%Z with 0%Z.
    + reflexivity.
    + replace (- (Z.log2 k - 52))%Z with (52 - Z.log2 k)%Z by lia. lia.
Qed.

(** Whole numbers are ordered as the integers are. *)
Lemma num_compare_whole (a b : Z) :
  (0 < a < 2 ^ 53)%Z -> (0 < b < 2 ^ 53)%Z ->
  num_compare (whole a) (whole b) = (a ?= b)%Z.
Proof.
  intros Ha Hb. destruct (whole_positive a Ha) as [Hla Hma].
  destruct (whole_positive b Hb) as [Hlb Hmb].
  unfold whole, num_compare, mag_compare. rewrite Hma, Hmb.
  set (e := Z.min (Z.log2 a - 52) (Z.log2 b - 52)).
  assert (He : (e <= Z.log2 a - 52 /\ e <= Z.log2 b - 52 /\ e <= 0)%Z) by lia.
  rewrite <- !Z.mul_assoc, <- !Z.pow_add_r by lia.
  replace (52 - Z.log2 a + (Z.log2 a - 52 - e))%Z with (- e)%Z by lia.
  replace (52 - Z.log2 b + (Z.log2 b - 52 - e))%Z with (- e)%Z by lia.
  assert (Hp : (0 < 2 ^ (- e))%Z) by (apply Z.pow_pos_nonneg; lia).
  destruct (Z.compare_spec a b) as [->|Hlt|Hgt].
  - apply Z.compare_refl.
  - apply Z.compare_lt_iff. nia.
  - apply Z.compare_gt_iff. nia.
Qed.

Lemma number_of_nat_cases (k : nat) :
  (Z.of_nat k < 2 ^ 53)%Z ->
  number_of_nat k = match k with O => NZero false | S _ => whole (Z.of_nat k) end.
Proof.
  intros Hk. destruct k as [|k]; [reflexivity|]. apply number_of_nat_whole. lia.
Qed.

Lemma num_compare_nat (a b : nat) :
  (Z.of_nat a < 2 ^ 53)%Z -> (Z.of_nat b < 2 ^ 53)%Z ->
  num_compare (number_of_nat a) (number_of_nat b) = (Z.of_nat a ?= Z.of_nat b)%Z.
Proof.
  intros Ha Hb. rewrite (number_of_nat_cases a Ha), (number_of_nat_cases b Hb).
  destruct a as [|a], b as [|b]; try reflexivity.
  apply num_compare_whole; lia.
Qed.

Lemma num_succ_nat (k : nat) :
  (Z.of_nat (S k) < 2 ^ 53)%Z ->
  num_add_int (number_of_nat k) 1 = number_of_nat (S k).
Proof.
  intros Hk. rewrite (number_of_nat_cases k ltac:(lia)).
  destruct k as [|k]; [reflexivity|].
  rewrite num_add_int_whole by lia.
  rewrite (number_of_nat_whole (S (S k))) by lia. f_equal. lia.
Qed.

Lemma num_pred_nat (k : nat) :
  (Z.of_nat (S k) < 2 ^ 53)%Z ->
  num_add_int (number_of_nat (S k)) (-1) = number_of_nat k.
Proof.
  intros Hk. rewrite (number_of_nat_whole (S k)) by lia.
  destruct k as [|k]; [reflexivity|].
  rewrite num_add_int_whole by lia.
  rewrite (number_of_nat_whole (S k)) by lia. f_equal. lia.
Qed.

Section WholeSteps.
Variables (toLowerCase normalizeNFD : jsstring -> jsstring).
Variable formPages : list FormPage.
Hypothesis formPages_small : (Z.of_nat (length formPages) < 2 ^ 53)%Z.

Local Abbreviation hi := (summaryStepIndex formPages).
Local Abbreviation clamp := (clamp_step formPages).
Local Abbreviation run := (run_events toLowerCase normalizeNFD formPages).

(** A whole step up to the summary step is left alone by the clamp. *)
Lemma clamp_step_whole (k : nat) :
  (k <= length formPages)%nat -> clamp (number_of_nat k) = number_of_nat k.
Proof.
  intros Hk. unfold clamp_step, Math_min, summaryStepIndex.
  rewrite num_compare_nat by lia.
  assert (Hmin : match (Z.of_nat k ?= Z.of_nat (length formPages))%Z with
                 | Eq => match number_of_nat k with
                         | NZero true => number_of_nat k
                         | _ => number_of_nat (length formPages)
                         end
                 | Lt => number_of_nat k
                 | Gt => number_of_nat (length formPages)
                 end = number_of_nat k).
  { destruct (Z.compare_spec (Z.of_nat k) (Z.of_nat (length formPages)))
      as [E|_|Hgt]; [|reflexivity|lia].
    apply Nat2Z.inj in E. rewrite <- E.
    destruct (number_of_nat k) as [[|]| |]; reflexivity. }
  rewrite Hmin. rewrite (number_of_nat_cases k ltac:(lia)).
  destruct k; reflexivity.
Qed.

(** Below the first step the clamp gives the first step. *)
Lemma clamp_step_before_first : clamp (num_add_int (NZero false) (-1)) = NZero false.
Proof.
  unfold clamp_step, Math_min, summaryStepIndex.
  rewrite (number_of_nat_cases (length formPages) formPages_small).
  destruct (length formPages); reflexivity.
Qed.

(** X21. On a whole step the navigation is exact: Next moves one page
    forward and stops at the summary step, where it exports instead; Back
    moves one page back and stops at the first step; a breadcrumb moves to
    its own step.  None of them touches the answers. *)
Theorem navigation_moves_one_step (st : AppState) (k : nat) :
  currentStep st = number_of_nat k -> (k <= length formPages)%nat ->
  currentStep (handleNext formPages st)
    = number_of_nat (Nat.min (S k) (length formPages))
  /\ currentStep (handleBack formPages st) = number_of_nat (Nat.pred k)
  /\ (forall index, (index <= length formPages)%nat ->
        currentStep (goToStep formPages st (number_of_nat index))
        = number_of_nat index)
  /\ answers (handleNext formPages st) = answers st
  /\ answers (handleBack formPages st) = answers st.
Proof.
  intros Hst Hk. repeat split.
  - unfold handleNext, isSummaryStep, num_eqb, summaryStepIndex.
    rewrite Hst, num_compare_nat by lia.
    destruct (Z.compare_spec (Z.of_nat k) (Z.of_nat (length formPages)))
      as [E|Hlt|Hgt]; [| |lia].
    + replace (Nat.min (S k) (length formPages)) with k by lia. exact Hst.
    + replace (Nat.min (S k) (length formPages)) with (S k) by lia.
      cbn [goToStep currentStep]. rewrite num_succ_nat by lia.
      apply clamp_step_whole. lia.
  - unfold handleBack. simpl. rewrite Hst. destruct k as [|k].
    + apply clamp_step_before_first.
    + rewrite num_pred_nat by lia. apply clamp_step_whole. lia.
  - intros index Hindex. simpl. apply clamp_step_whole. exact Hindex.
  - unfold handleNext. destruct (isSummaryStep formPages st); reflexivity.
Qed.

Lemma handle_whole_step (st st' : AppState) (ev : Event) :
  (forall text, ev <> FileRead text) ->
  (forall index, ev = BreadcrumbClick index -> (index <= length formPages)%nat) ->
  (exists k, (k <= length formPages)%nat /\ currentStep st = number_of_nat k) ->
  handle toLowerCase normalizeNFD formPages st ev = Some st' ->
  exists k, (k <= length formPages)%nat /\ currentStep st' = number_of_nat k.
Proof.
  intros Hfile Hcrumb (k & Hk & Hst).
  destruct ev as [f v|index| | |text|actionKey content|captured content]; simpl.
  - intros [= <-]. exists k. auto.
  - intros [= <-]. exists index. split; [exact (Hcrumb index eq_refl)|].
    apply clamp_step_whole. exact (Hcrumb index eq_refl).
  - intros [= <-]. exists (Nat.min (S k) (length formPages)). split; [lia|].
    unfold handleNext, isSummaryStep, num_eqb, summaryStepIndex.
    rewrite Hst, num_compare_nat by lia.
    destruct (Z.compare_spec (Z.of_nat k) (Z.of_nat (length formPages)))
      as [E|Hlt|Hgt]; [| |lia].
    + replace (Nat.min (S k) (length formPages)) with k by lia. exact Hst.
    + replace (Nat.min (S k) (length formPages)) with (S k) by lia.
      cbn [goToStep currentStep]. rewrite num_succ_nat by lia.
      apply clamp_step_whole. lia.
  - intros [= <-]. exists (Nat.pred k). split; [lia|]. simpl. rewrite Hst.
    destruct k as [|k].
    + apply clamp_step_before_first.
    + rewrite num_pred_nat by lia. apply clamp_step_whole. lia.
  - destruct (Hfile text eq_refl).
  - unfold handleAiAction_response.
    destruct (stepIndex (aiActionConfigs toLowerCase normalizeNFD formPages actionKey))
      as [index|]; [|discriminate].
    destruct (aiAction_outcome
                (aiActionConfigs toLowerCase normalizeNFD formPages actionKey)
                index content);
      intros [= <-]; exists k; auto.
  - intros [= <-]. unfold handlePrefillWithAi_response.
    destruct (prefill_outcome toLowerCase normalizeNFD formPages captured content);
      exists k; auto.
Qed.

(** X22. As long as no file is imported, the current step is a whole
    number from the first step to the summary step: the index of a page of
    the form, or the summary. *)
Theorem currentStep_whole (evs : list Event) (st : AppState) :
  (forall text, ~ In (FileRead text) evs) ->
  (forall index, In (BreadcrumbClick index) evs -> (index <= length formPages)%nat) ->
  run initialState evs = Some st ->
  exists k, (k <= length formPages)%nat /\ currentStep st = number_of_nat k.
Proof.
  assert (Hgen : forall st0,
            (forall text, ~ In (FileRead text) evs) ->
            (forall index, In (BreadcrumbClick index) evs ->
                           (index <= length formPages)%nat) ->
            (exists k, (k <= length formPages)%nat
                       /\ currentStep st0 = number_of_nat k) ->
            run st0 evs = Some st ->
            exists k, (k <= length formPages)%nat /\ currentStep st = number_of_nat k).
  { induction evs as [|ev rest IH]; intros st0 Hfile Hcrumb H0; simpl.
    - intros [= <-]. exact H0.
    - destruct (handle toLowerCase normalizeNFD formPages st0 ev) as [st1|] eqn:H1;
        [|discriminate].
      apply IH.
      + intros text Hin. apply (Hfile text). right. exact Hin.
      + intros index Hin. apply Hcrumb. right. exact Hin.
      + apply (handle_whole_step st0 st1 ev); try assumption.
        * intros text ->. apply (Hfile text). left. reflexivity.
        * intros index ->. apply Hcrumb. left. reflexivity. }
  intros Hfile Hcrumb. apply Hgen; try assumption.
  exists O. split; [lia|reflexivity].
Qed.

End WholeSteps.

(** ** Fenced blocks *)

Lemma starts_with_split (p s : jsstring) :
  starts_with p s = true -> exists post, s = p ++ post.
Proof.
  revert s. induction p as [|a p IH]; intros s; simpl.
  - intros _. exists s. reflexivity.
  - destruct s as [|b s]; [discriminate|].
    intros H. apply andb_true_iff in H. destruct H as [Hab Hp].
    apply N.eqb_eq in Hab. subst b. destruct (IH s Hp) as [post ->].
    exists post. reflexivity.
Qed.

Lemma lazy_until_fence_sound (rest : jsstring) :
  forall cap_rev cap,
    lazy_until_fence cap_rev rest = Some cap ->
    exists mid post,
      mid <> [] /\ cap = rev cap_rev ++ mid /\ rest = mid ++ fence ++ post.
Proof.
  induction rest as [|c rest IH]; intros cap_rev cap; cbn [lazy_until_fence];
    [discriminate|].
  destruct (starts_with fence rest) eqn:Hf.
  - intros [= <-]. destruct (starts_with_split _ _ Hf) as [post ->].
    exists [c], post. split; [discriminate|]. split; reflexivity.
  - intros H. destruct (IH _ _ H) as (mid & post & _ & -> & ->).
    exists (c :: mid), post. split; [discriminate|]. split; [|reflexivity].
    simpl. rewrite <- app_assoc. reflexivity.
Qed.

Lemma ws_then_capture_sound (r cap : jsstring) :
  ws_then_capture r = Some cap ->
  exists ws post,
    Forall (fun c => is_space c = true) ws /\ cap <> []
    /\ r = ws ++ cap ++ fence ++ post.
Proof.
  assert (Hlazy : forall r', lazy_until_fence [] r' = Some cap ->
            exists ws post,
              Forall (fun c => is_space c = true) ws /\ cap <> []
              /\ r' = ws ++ cap ++ fence ++ post).
  { intros r' H. destruct (lazy_until_fence_sound _ _ _ H) as (mid & post & Hm & -> & ->).
    exists [], post. split; [constructor|]. split; [exact Hm|]. reflexivity. }
  induction r as [|c r IH]; cbn [ws_then_capture]; [discriminate|].
  destruct (is_space c) eqn:Hc; [|apply Hlazy].
  destruct (ws_then_capture r) as [cap'|] eqn:Hr.
  - intros [= ->]. destruct (IH eq_refl) as (ws & post & Hws & Hcap & ->).
    exists (c :: ws), post. split; [constructor; assumption|]. split; [exact Hcap|].
    reflexivity.
  - apply Hlazy.
Qed.

(** X23. What the fence expression captures is never empty, and it stands
    in the text between an opening fence, with the [json] annotation or
    without it and then whitespace, and a closing fence. *)
Theorem fenced_block_sound (text block : jsstring) :
  fenced_block text = Some block ->
  block <> []
  /\ exists pre annotation ws post,
       text = pre ++ fence ++ annotation ++ ws ++ block ++ fence ++ post
       /\ (annotation = [] \/ annotation = js "json")
       /\ Forall (fun c => is_space c = true) ws.
Proof.
  induction text as [|c text IH]; [discriminate|].
  cbn [fenced_block].
  destruct (if starts_with fence (c :: text) then after_fence (skipn 3 (c :: text))
            else None) as [cap|] eqn:Hhere.
  - intros [= <-].
    destruct (starts_with fence (c :: text)) eqn:Hf; [|discriminate].
    destruct (starts_with_split _ _ Hf) as [r Hr]. rewrite Hr in Hhere.
    change (skipn 3 (fence ++ r)) with r in Hhere.
    unfold after_fence in Hhere.
    destruct (if starts_with (js "json") r then ws_then_capture (skipn 4 r) else None)
      as [cap'|] eqn:Hann.
    + injection Hhere as ->.
      destruct (starts_with (js "json") r) eqn:Hj; [|discriminate].
      destruct (starts_with_split _ _ Hj) as [r' ->].
      change (skipn 4 (js "json" ++ r')) with r' in Hann.
      destruct (ws_then_capture_sound _ _ Hann) as (ws & post & Hws & Hcap & ->).
      split; [exact Hcap|]. exists [], (js "json"), ws, post.
      split; [rewrite Hr; reflexivity|]. auto.
    + destruct (ws_then_capture_sound _ _ Hhere) as (ws & post & Hws & Hcap & ->).
      split; [exact Hcap|]. exists [], [], ws, post.
      split; [rewrite Hr; reflexivity|]. auto.
  - intros H. destruct (IH H) as (Hb & pre & ann & ws & post & -> & Hann & Hws).
    split; [exact Hb|]. exists (c :: pre), ann, ws, post. auto.
Qed.

Lemma fenced_block_sound_witness :
  jq "{'tam':'1','sam':'2','som':'3'}" ++ [LF] <> []
  /\ exists pre annotation ws post,
       triple_fenced_text
       = pre ++ fence ++ annotation ++ ws
         ++ (jq "{'tam':'1','sam':'2','som':'3'}" ++ [LF]) ++ fence ++ post
       /\ (annotation = [] \/ annotation = js "json")
       /\ Forall (fun c => is_space c = true) ws.
Proof.
  apply (fenced_block_sound triple_fenced_text). vm_compute. reflexivity.
Defined.

(** ** The last candidate for a field wins *)

Section LastWins.
Variables (toLowerCase normalizeNFD : jsstring -> jsstring).
Variable formPages : list FormPage.

Local Abbreviation validIds := (validFieldIdSet toLowerCase normalizeNFD formPages).
Local Abbreviation isRecognized := (recognized toLowerCase normalizeNFD formPages).
Local Abbreviation assign :=
  (fun (acc : AnswerMap) entry =>
     obj_assign (pe_fieldId entry) (trim (pe_value entry)) acc).

Lemma fold_assign_other (k : jsstring) (entries : list PrefillAnswerEntry) :
  forall acc : AnswerMap,
    (forall e, In e entries -> pe_fieldId e <> k) ->
    fold_left assign entries acc !! k = acc !! k.
Proof.
  induction entries as [|e rest IH]; intros acc Hne; simpl; [reflexivity|].
  rewrite IH by (intros e' He'; apply Hne; right; exact He').
  unfold obj_assign. destruct (str_eqb (pe_fieldId e) (js "__proto__")); [reflexivity|].
  apply lookup_insert_ne. apply Hne. left. reflexivity.
Qed.

(** X24. When the reply names a field more than once, the last recognized
    candidate for it is the one returned. *)
Theorem applyPrefillResult_last_wins (text : jsstring)
    (front back : list PrefillAnswerEntry) (e : PrefillAnswerEntry) :
  trim text <> [] ->
  applyPrefillResult_tryParse toLowerCase normalizeNFD formPages (trim text)
    = Some (front ++ e :: back) ->
  isRecognized e = true ->
  (forall e', In e' back -> isRecognized e' = true -> pe_fieldId e' <> pe_fieldId e) ->
  exists updates,
    applyPrefillResult toLowerCase normalizeNFD formPages text = inr updates
    /\ updates !! pe_fieldId e = Some (trim (pe_value e)).
Proof.
  intros Htext Hparse He Hback. unfold applyPrefillResult.
  apply nonempty_true in Htext. rewrite Htext, Hparse. cbn [negb].
  rewrite filter_app, filter_cons.
  destruct (decide (Is_true (isRecognized e))) as [_|Hn];
    [|destruct Hn; rewrite He; exact I].
  set (fa := filter (fun e0 => isRecognized e0) front).
  set (fb := filter (fun e0 => isRecognized e0) back).
  assert (Hk : pe_fieldId e <> js "__proto__").
  { unfold recognized in He. apply andb_true_iff in He. destruct He as [He _].
    apply bool_decide_eq_true in He. apply validFieldIdSet_prefix in He.
    intros E. rewrite E in He. vm_compute in He. discriminate. }
  assert (Hres : fold_left assign (fa ++ e :: fb) (∅ : AnswerMap) !! pe_fieldId e
                 = Some (trim (pe_value e))).
  { rewrite fold_left_app. simpl. rewrite fold_assign_other.
    - unfold obj_assign. rewrite (proj2 (str_eqb_neq _ _) Hk).
      apply lookup_insert_eq.
    - intros e' He'. apply list_elem_of_In in He'. subst fb.
      apply list_elem_of_filter in He'. destruct He' as [Hr Hin].
      apply Hback; [apply list_elem_of_In; exact Hin|].
      apply Is_true_eq_true. exact Hr. }
  destruct (fa ++ e :: fb) as [|e0 recog] eqn:Hl; [destruct fa; discriminate|].
  eexists. split; [reflexivity|]. exact Hres.
Qed.

End LastWins.

(** ** The further properties on the sample form *)

Lemma handleAiAction_overwrites_witness :
  currentStep after_onepager = currentStep sample_state
  /\ ((exists e, statusMessage after_onepager = Some (StatusError e)
                 /\ answers after_onepager = answers sample_state)
      \/ exists index updates,
           stepIndex (aiActionConfigs Sample.lower Sample.nfd Sample.pages onepager)
             = Some index
           /\ parseResult (aiActionConfigs Sample.lower Sample.nfd Sample.pages onepager)
                (extractMessageContent onepager_reply) index = inr updates
           /\ statusMessage after_onepager
              = Some (StatusSuccess
                        (successMessage
                           (aiActionConfigs Sample.lower Sample.nfd Sample.pages
                              onepager)))
           /\ forall k,
                answers after_onepager !! k
                = match updates !! k with
                  | Some v => Some v
                  | None => answers sample_state !! k
                  end).
Proof.
  apply (handleAiAction_overwrites Sample.lower Sample.nfd Sample.pages
           onepager sample_state after_onepager onepager_reply).
  vm_compute. reflexivity.
Defined.

Lemma handleAiAction_idempotent_witness :
  exists st2,
    handleAiAction_response Sample.lower Sample.nfd Sample.pages
      onepager after_onepager onepager_reply = Some st2
    /\ answers st2 = answers after_onepager.
Proof.
  apply (handleAiAction_idempotent Sample.lower Sample.nfd Sample.pages
           onepager sample_state after_onepager onepager_reply).
  vm_compute. reflexivity.
Defined.

Lemma applyPrefillResult_contract_witness :
  sample_updates <> ∅
  /\ forall k v, sample_updates !! k = Some v ->
       k ∈ validFieldIdSet Sample.lower Sample.nfd Sample.pages
       /\ v <> [] /\ trim v = v
       /\ forall answers : AnswerMap,
            fills_empty_field answers (k, v) = true
            <-> forall old, answers !! k = Some old -> trim old = [].
Proof.
  apply (applyPrefillResult_contract Sample.lower Sample.nfd Sample.pages
           (jq "{'step-0-estado':'Escala','step-1-tam':'100'}")).
  vm_compute. reflexivity.
Defined.

Lemma prefill_judges_captured_answers_witness :
  answers (handlePrefillWithAi_response Sample.lower Sample.nfd Sample.pages
             (answers sample_state) typed_meanwhile sample_reply)
    !! js "step-1-tam" = Some (js "100").
Proof.
  apply (prefill_judges_captured_answers Sample.lower Sample.nfd Sample.pages
           (answers sample_state) typed_meanwhile sample_reply sample_updates).
  - vm_compute. discriminate.
  - vm_compute. reflexivity.
  - vm_compute. reflexivity.
  - intros old H. vm_compute in H. discriminate.
Defined.

Lemma prefill_rerun_fills_nothing_witness :
  handlePrefillWithAi_response Sample.lower Sample.nfd Sample.pages
    (answers (handlePrefillWithAi_response Sample.lower Sample.nfd Sample.pages
                (answers sample_state) typed_meanwhile sample_reply))
    (handlePrefillWithAi_response Sample.lower Sample.nfd Sample.pages
       (answers sample_state) typed_meanwhile sample_reply)
    sample_reply
  = {| answers :=
         answers (handlePrefillWithAi_response Sample.lower Sample.nfd Sample.pages
                    (answers sample_state) typed_meanwhile sample_reply);
       currentStep :=
         currentStep (handlePrefillWithAi_response Sample.lower Sample.nfd
                        Sample.pages (answers sample_state) typed_meanwhile
                        sample_reply);
       statusMessage := Some (StatusError PrefillNoEmptyFields) |}.
Proof.
  apply (prefill_rerun_fills_nothing Sample.lower Sample.nfd Sample.pages
           (answers sample_state) typed_meanwhile).
  - intros k old Hk _. unfold sample_state in Hk. cbn [answers] in Hk.
    apply lookup_singleton_Some in Hk. destruct Hk as [<- _].
    exists (js "Idea"). split; [vm_compute; reflexivity|vm_compute; discriminate].
  - vm_compute. reflexivity.
Defined.

Lemma normalizePrefillEntries_filled_witness :
  [ {| pe_fieldId := js "step-0-estado"; pe_value := js "Idea" |} ] <> []
  /\ Forall (fun e => pe_fieldId e <> [] /\ pe_value e <> [])
       [ {| pe_fieldId := js "step-0-estado"; pe_value := js "Idea" |} ].
Proof.
  apply (normalizePrefillEntries_filled Sample.lower Sample.nfd Sample.pages
           (JObj [(js "answers", JStr (jq "{'step-0-estado':' Idea '}"))])).
  vm_compute. reflexivity.
Defined.

Lemma currentStep_in_range_witness :
  num_le (NZero false) (currentStep (run_or_initial sample_session_with_import))
  /\ num_le (currentStep (run_or_initial sample_session_with_import))
       (summaryStepIndex Sample.pages).
Proof.
  apply (currentStep_in_range Sample.lower Sample.nfd Sample.pages
           sample_session_with_import).
  vm_compute. reflexivity.
Defined.

Lemma answers_stay_in_registry_witness :
  js "step-4-one-pager" ∈ validFieldIdSet Sample.lower Sample.nfd Sample.pages.
Proof.
  apply (answers_stay_in_registry Sample.lower Sample.nfd Sample.pages
           sample_session (run_or_initial sample_session)).
  - intros f v Hin. simpl in Hin.
    destruct Hin as [H|[H|[H|[H|[H|[H|[H|[]]]]]]]]; try discriminate.
    injection H as <- _. apply (proj1 (bool_decide_eq_true _)). vm_compute. reflexivity.
  - intros text Hin. simpl in Hin.
    destruct Hin as [H|[H|[H|[H|[H|[H|[H|[]]]]]]]]; discriminate.
  - vm_compute. reflexivity.
  - exists (js "Resumen ejecutivo"). vm_compute. reflexivity.
Defined.

Lemma navigation_moves_one_step_witness :
  currentStep (handleNext Sample.pages sample_state)
    = number_of_nat (Nat.min 1 (length Sample.pages))
  /\ currentStep (handleBack Sample.pages sample_state) = number_of_nat (Nat.pred 0)
  /\ (forall index, (index <= length Sample.pages)%nat ->
        currentStep (goToStep Sample.pages sample_state (number_of_nat index))
        = number_of_nat index)
  /\ answers (handleNext Sample.pages sample_state) = answers sample_state
  /\ answers (handleBack Sample.pages sample_state) = answers sample_state.
Proof.
  apply (navigation_moves_one_step Sample.pages).
  - vm_compute. reflexivity.
  - reflexivity.
  - simpl. lia.
Defined.

Lemma currentStep_whole_witness :
  exists k, (k <= length Sample.pages)%nat
            /\ currentStep (run_or_initial sample_session) = number_of_nat k.
Proof.
  apply currentStep_whole
    with (toLowerCase := Sample.lower) (normalizeNFD := Sample.nfd)
         (evs := sample_session).
  - vm_compute. reflexivity.
  - intros text Hin. simpl in Hin.
    destruct Hin as [H|[H|[H|[H|[H|[H|[H|[]]]]]]]]; discriminate.
  - intros index Hin. simpl in Hin.
    destruct Hin as [H|[H|[H|[H|[H|[H|[H|[]]]]]]]]; try discriminate.
    injection H as <-. simpl. lia.
  - vm_compute. reflexivity.
Defined.

Lemma applyPrefillResult_last_wins_witness :
  exists updates,
    applyPrefillResult Sample.lower Sample.nfd Sample.pages twice_named_text
      = inr updates
    /\ updates !! js "step-0-estado" = Some (js "Escala").
Proof.
  apply (applyPrefillResult_last_wins Sample.lower Sample.nfd Sample.pages
           twice_named_text
           [ {| pe_fieldId := js "step-0-estado"; pe_value := js "Idea" |} ] []
           {| pe_fieldId := js "step-0-estado"; pe_value := js "Escala" |}).
  - vm_compute. discriminate.
  - vm_compute. reflexivity.
  - vm_compute. reflexivity.
  - intros e' [].
Defined.
